(** * Orphaned HelmRelease detection and cleanup

    A shallow embedding of [find-orphaned-helmreleases.py]: the inventory
    parser and the set of managed releases
    ([get_managed_helmreleases_from_inventory]), the orphan detector
    ([find_orphaned_helmreleases]) and the interactive cleanup loop
    ([delete_helmrelease], [cleanup_orphans_interactive]).

    Conventions.
    - Python [str] values are Rocq [string]s (byte strings holding the UTF-8
      encoding).  The characters the program looks for are ASCII (["_"],
      ["/"], the two markers, the choices [y n s q]); splitting on an ASCII
      byte, searching an ASCII substring and comparing byte-wise agree with
      the same operations on code points.  The lines the operator types
      are taken to be ASCII: [lower] and [strip] are modelled on ASCII
      letters and ASCII white space.
    - The JSON objects returned by [kubectl ... -o json] are records whose
      fields are [option]s: [None] is a key that is absent, so that
      [d.get(k, v)] is [default v] of the field.  Field types follow the
      Kubernetes object schema ([metadata.name], [metadata.namespace] are
      strings, [metadata.labels] is a map from strings to strings).
    - A Python [set] of strings is a [gset string]; the [defaultdict(list)]
      of the cleanup loop is a [gmap string (list orphan)]. *)

From Stdlib Require Import Ascii String.
From stdpp Require Import base option list gmap strings sorting fin_maps.
From stdpp Require Import pretty.

(* ===================================================================== *)
(** * Python string primitives used by the program                        *)
(* ===================================================================== *)

Module PyStr.

(** [needle in hay] for strings: some suffix of [hay] starts with
    [needle]. *)
Fixpoint contains (needle hay : string) : bool :=
  if String.prefix needle hay then true
  else match hay with
       | EmptyString => false
       | String _ hay' => contains needle hay'
       end.

(** [s.split(sep)] for a one-character separator: the tokens between the
    occurrences of [sep], empty tokens kept, never the empty list. *)
Fixpoint split (sep : ascii) (s : string) : list string :=
  match s with
  | EmptyString => [EmptyString]
  | String c s' =>
      if Ascii.eqb c sep then EmptyString :: split sep s'
      else match split sep s' with
           | tok :: toks => String c tok :: toks
           | [] => [String c EmptyString]
           end
  end.

(** [parts[i]] on a list that is known to be long enough. *)
Definition item (parts : list string) (i : nat) : string :=
  nth i parts EmptyString.

(** [c.lower()] on one ASCII character. *)
Definition lower_ascii (c : ascii) : ascii :=
  let n := nat_of_ascii c in
  if (65 <=? n)%nat && (n <=? 90)%nat then ascii_of_nat (n + 32) else c.

(** [s.lower()]. *)
Fixpoint lower (s : string) : string :=
  match s with
  | EmptyString => EmptyString
  | String c s' => String (lower_ascii c) (lower s')
  end.

(** The ASCII characters [str.strip()] removes: TAB, LF, VT, FF, CR, the
    separators FS, GS, RS, US, and the space. *)
Definition is_space (c : ascii) : bool :=
  let n := nat_of_ascii c in
  ((9 <=? n)%nat && (n <=? 13)%nat)
  || ((28 <=? n)%nat && (n <=? 32)%nat).

Fixpoint lstrip (s : string) : string :=
  match s with
  | EmptyString => EmptyString
  | String c s' => if is_space c then lstrip s' else s
  end.

(** Drops trailing white space: a character is kept when it is not white
    space or when something is kept after it. *)
Fixpoint rstrip (s : string) : string :=
  match s with
  | EmptyString => EmptyString
  | String c s' =>
      match rstrip s' with
      | EmptyString => if is_space c then EmptyString else String c EmptyString
      | t => String c t
      end
  end.

(** [s.strip()]. *)
Definition strip (s : string) : string := rstrip (lstrip s).

(** Truth value of an optional string, as in [if x:] for
    [x = d.get(k)]: [None] and [""] are false. *)
Definition truthy (x : option string) : bool :=
  match x with
  | None => false
  | Some s => negb (String.eqb s EmptyString)
  end.

End PyStr.

(* ===================================================================== *)
(** * The cluster objects                                                 *)
(* ===================================================================== *)

(** One inventory entry, [{"id": ..., "v": ...}]. *)
Record entry := Entry {
  entry_id : option string;
  entry_v : option string
}.

Record inventory := Inventory {
  inv_entries : option (list entry)
}.

Record ks_status := KsStatus {
  st_inventory : option inventory
}.

Record obj_metadata := ObjMetadata {
  md_name : option string;
  md_namespace : option string;
  md_labels : option (gmap string string)
}.

(** A Flux Kustomization as listed by [get_all_kustomizations]. *)
Record kustomization := Kustomization {
  ks_metadata : option obj_metadata;
  ks_status_of : option ks_status
}.

(** A HelmRelease as listed by [get_all_helmreleases]; the program reads
    its metadata only. *)
Record helmrelease := HelmRelease {
  hr_metadata : option obj_metadata
}.

(** The dictionary [find_orphaned_helmreleases] builds for an orphan. *)
Record orphan := Orphan {
  o_name : string;
  o_namespace : string;
  original_kustomization_name : string;
  original_kustomization_namespace : string;
  o_labels : gmap string string;
  o_raw : helmrelease
}.

Definition empty_metadata : obj_metadata := ObjMetadata None None None.
Definition empty_status : ks_status := KsStatus None.
Definition empty_inventory : inventory := Inventory None.

(** [f"{namespace}/{name}"], the element type of the set of managed
    releases. *)
Definition release_key (namespace name : string) : string :=
  namespace ++ "/" ++ name.

(* ===================================================================== *)
(** * [get_managed_helmreleases_from_inventory]                           *)
(* ===================================================================== *)

Definition KIND_MARKER : string := "_HelmRelease".
Definition GROUP_MARKER : string := "helm.toolkit.fluxcd.io".
Definition DELIMITER : ascii := "_"%char.

(** Lines 72-78: the namespace and the name an entry id stands for, when it
    passes the two substring tests and splits in at least two parts. *)
Definition parse_entry_id (entry_id : string) : option (string * string) :=
  if PyStr.contains KIND_MARKER entry_id && PyStr.contains GROUP_MARKER entry_id
  then
    let parts := PyStr.split DELIMITER entry_id in
    if (2 <=? length parts)%nat
    then Some (PyStr.item parts 0, PyStr.item parts 1)
    else None
  else None.

(** Lines 66-79, the body of the inner loop: one entry against the set
    built so far. *)
Definition add_entry (managed_releases : gset string) (e : entry) : gset string :=
  let entry_id := default EmptyString (entry_id e) in
  match parse_entry_id entry_id with
  | Some (ns, name) => {[ release_key ns name ]} ∪ managed_releases
  | None => managed_releases
  end.

(** Lines 63-64: [ks.get("status", {}).get("inventory", {}).get("entries", [])]. *)
Definition ks_entries (ks : kustomization) : list entry :=
  let status := default empty_status (ks_status_of ks) in
  let inventory := default empty_inventory (st_inventory status) in
  default [] (inv_entries inventory).

(** Lines 59-79, the body of the outer loop.  The name and the namespace
    of the Kustomization (lines 60-61) are read and not used. *)
Definition add_kustomization (managed_releases : gset string) (ks : kustomization)
  : gset string :=
  foldl add_entry managed_releases (ks_entries ks).

Definition get_managed_helmreleases_from_inventory
  (kustomizations : list kustomization) : gset string :=
  foldl add_kustomization ∅ kustomizations.



(* ===================================================================== *)
(** * [find_orphaned_helmreleases]                                        *)
(* ===================================================================== *)

Definition OWNER_NAME_LABEL : string := "kustomize.toolkit.fluxcd.io/name".
Definition OWNER_NAMESPACE_LABEL : string := "kustomize.toolkit.fluxcd.io/namespace".

Definition hr_meta (hr : helmrelease) : obj_metadata :=
  default empty_metadata (hr_metadata hr).
Definition hr_name (hr : helmrelease) : string :=
  default EmptyString (md_name (hr_meta hr)).
Definition hr_namespace (hr : helmrelease) : string :=
  default EmptyString (md_namespace (hr_meta hr)).
Definition hr_labels (hr : helmrelease) : gmap string string :=
  default ∅ (md_labels (hr_meta hr)).

(** Lines 117-139, the body of the loop: the orphan record of one
    HelmRelease, if it has one. *)
Definition orphan_of (managed_releases : gset string) (hr : helmrelease)
  : option orphan :=
  let name := hr_name hr in
  let namespace := hr_namespace hr in
  let labels := hr_labels hr in
  let ks_name := labels !! OWNER_NAME_LABEL in
  let ks_namespace := labels !! OWNER_NAMESPACE_LABEL in
  if PyStr.truthy ks_name && PyStr.truthy ks_namespace then
    let release_key := release_key namespace name in
    if bool_decide (release_key ∉ managed_releases) then
      Some {| o_name := name;
              o_namespace := namespace;
              original_kustomization_name := default EmptyString ks_name;
              original_kustomization_namespace := default EmptyString ks_namespace;
              o_labels := labels;
              o_raw := hr |}
    else None
  else None.

Fixpoint find_orphaned_helmreleases
  (helmreleases : list helmrelease) (managed_releases : gset string)
  : list orphan :=
  match helmreleases with
  | [] => []
  | hr :: rest =>
      match orphan_of managed_releases hr with
      | Some o => o :: find_orphaned_helmreleases rest managed_releases
      | None => find_orphaned_helmreleases rest managed_releases
      end
  end.

(* ===================================================================== *)
(** * The interactive cleanup: observable events                          *)
(* ===================================================================== *)

(** One constructor for each [print] of [delete_helmrelease] and
    [cleanup_orphans_interactive], with the values it interpolates. *)
Inductive message :=
| MsgNothingToCleanUp                          (* line 202 *)
| MsgRule                                      (* lines 212, 214, 282, 284 *)
| MsgCleanupTitle                              (* line 213 *)
| MsgFound (n_orphans n_namespaces : nat)      (* line 215 *)
| MsgWillPrompt                                (* line 216 *)
| MsgOptions                                   (* line 217 *)
| MsgNamespaceRule                             (* line 224 *)
| MsgNamespace (ns : string)                   (* line 225 *)
| MsgNamespaceCount (n : nat)                  (* line 226 *)
| MsgOrphanLine (name ks_ref : string)         (* line 229 *)
| MsgAborted                                   (* lines 235, 263 *)
| MsgSummary (deleted skipped : nat)           (* line 236 *)
| MsgDeletingAll (ns : string)                 (* line 240 *)
| MsgSkippingNamespace (ns : string)           (* line 249 *)
| MsgSkipped (name : string)                   (* line 272 *)
| MsgInvalidIndividual                         (* line 276 *)
| MsgInvalidChoice                             (* line 280 *)
| MsgDeleted (ns name : string)                (* line 193 *)
| MsgDeleteFailed (ns name output : string)    (* line 195 *)
| MsgCleanupComplete                           (* line 283 *)
| MsgDeletedCount (n : nat)                    (* line 285 *)
| MsgSkippedCount (n : nat).                   (* line 286 *)

(** The two calls of [input]. *)
Inductive prompt :=
| PromptNamespace (n : nat) (ns : string)          (* line 232 *)
| PromptIndividual (name ks_ref : string).         (* lines 258-260 *)

(** What a run does, in order: it prints, it reads a line from the
    operator ([None] when the input has ended, where [input] raises
    [EOFError]), it runs [kubectl] with some arguments. *)
Inductive event :=
| Stdout (m : message)
| Input (p : prompt) (line : option string)
| Kubectl (args : list string) (success : bool).

(** How a block of [cleanup_orphans_interactive] is left: by falling
    through, by one of its three [return]s, or by the [EOFError] of
    [input]. *)
Inductive control :=
| Normal
| ReturnNothingToDo        (* line 203 *)
| ReturnQuitNamespace      (* line 237 *)
| ReturnQuitIndividual     (* line 264 *)
| RaiseEOFError.

(** [choice = input(...).lower().strip()], on an ASCII line (see
    [is_ascii]): the statements that need the line to be read as Python
    reads it carry this hypothesis, or a hypothesis that forces it. *)
Definition read_choice (line : string) : string :=
  PyStr.strip (PyStr.lower line).

(** [l.index(x)] for an [x] that occurs in [l]. *)
Fixpoint py_index (x : string) (l : list string) : nat :=
  match l with
  | [] => 0
  | y :: l' => if String.eqb y x then 0 else S (py_index x l')
  end.

(** Lines 205-208: [by_namespace[orphan["namespace"]].append(orphan)]. *)
Definition group_by_namespace (orphans : list orphan) : gmap string (list orphan) :=
  foldl (λ by_namespace o,
           <[ o_namespace o := by_namespace !!! o_namespace o ++ [o] ]> by_namespace)
        ∅ orphans.

(** Line 210: [sorted(by_namespace.keys())].  The keys of a dictionary are
    distinct, so the sorted list does not depend on the order they are
    enumerated in (see [sorted_keys_unique]). *)
Definition sorted_keys (by_namespace : gmap string (list orphan)) : list string :=
  merge_sort String.le (elements (dom by_namespace)).

(** Line 236:
    [sum(len(by_namespace[n]) for n in namespaces[namespaces.index(ns):])]. *)
Definition remaining_total (by_namespace : gmap string (list orphan))
  (namespaces : list string) (ns : string) : nat :=
  sum_list ((λ n, length (by_namespace !!! n))
              <$> drop (py_index ns namespaces) namespaces).

(** [f"{orphan['original_kustomization_namespace']}/{orphan['original_kustomization_name']}"]. *)
Definition ks_ref (o : orphan) : string :=
  original_kustomization_namespace o ++ "/" ++ original_kustomization_name o.

Definition delete_args (namespace name : string) : list string :=
  ["delete"; "helmrelease.helm.toolkit.fluxcd.io"; "-n"; namespace; name].

(* ===================================================================== *)
(** * [delete_helmrelease] and [cleanup_orphans_interactive]              *)
(* ===================================================================== *)

Section Cleanup.

(** The cluster behind [kubectl]: [run_kubectl args] answers with a
    success flag and an output, and may change the cluster. *)
Context {World : Type}.
Variable run_kubectl : list string → World → bool * string * World.

(** The two counters of the loop, the cluster and the events so far. *)
Record state := State {
  deleted_count : nat;
  skipped_count : nat;
  world : World;
  trace : list event
}.

Definition log (e : event) (σ : state) : state :=
  State (deleted_count σ) (skipped_count σ) (world σ) (trace σ ++ [e]).

Definition add_deleted (n : nat) (σ : state) : state :=
  State (deleted_count σ + n) (skipped_count σ) (world σ) (trace σ).

Definition add_skipped (n : nat) (σ : state) : state :=
  State (deleted_count σ) (skipped_count σ + n) (world σ) (trace σ).

(** Lines 186-196. *)
Definition delete_helmrelease (namespace name : string) (σ : state)
  : bool * state :=
  let args := delete_args namespace name in
  match run_kubectl args (world σ) with
  | (success, output, w) =>
      let σ := log (Kubectl args success)
                   (State (deleted_count σ) (skipped_count σ) w (trace σ)) in
      if success
      then (true, log (Stdout (MsgDeleted namespace name)) σ)
      else (false, log (Stdout (MsgDeleteFailed namespace name output)) σ)
  end.

(** Lines 242-245 and 266-269: delete one orphan and count the result. *)
Definition delete_and_count (o : orphan) (σ : state) : state :=
  match delete_helmrelease (o_namespace o) (o_name o) σ with
  | (true, σ) => add_deleted 1 σ
  | (false, σ) => add_skipped 1 σ
  end.

(** Lines 241-245. *)
Definition delete_all (ns_orphans : list orphan) (σ : state) : state :=
  foldl (λ σ o, delete_and_count o σ) σ ns_orphans.

(** Lines 257-276: the inner [while True], one orphan, one line of input
    for each round. *)
Fixpoint ask_individual (o : orphan) (stdin : list string) (σ : state)
  : control * list string * state :=
  let p := PromptIndividual (o_name o) (ks_ref o) in
  match stdin with
  | [] => (RaiseEOFError, [], log (Input p None) σ)
  | line :: stdin =>
      let σ := log (Input p (Some line)) σ in
      let individual_choice := read_choice line in
      if String.eqb individual_choice "q" then
        (ReturnQuitIndividual, stdin, log (Stdout MsgAborted) σ)
      else if String.eqb individual_choice "y" then
        (Normal, stdin, delete_and_count o σ)
      else if String.eqb individual_choice "n" then
        (Normal, stdin, add_skipped 1 (log (Stdout (MsgSkipped (o_name o))) σ))
      else
        ask_individual o stdin (log (Stdout MsgInvalidIndividual) σ)
  end.

(** Lines 255-276: the [for] of the individual selection. *)
Fixpoint select_individual (ns_orphans : list orphan) (stdin : list string)
  (σ : state) : control * list string * state :=
  match ns_orphans with
  | [] => (Normal, stdin, σ)
  | o :: ns_orphans =>
      match ask_individual o stdin σ with
      | (Normal, stdin, σ) => select_individual ns_orphans stdin σ
      | stopped => stopped
      end
  end.

(** Lines 231-280: the outer [while True] of one namespace. *)
Fixpoint ask_namespace (by_namespace : gmap string (list orphan))
  (namespaces : list string) (ns : string) (stdin : list string) (σ : state)
  : control * list string * state :=
  let ns_orphans := by_namespace !!! ns in
  let p := PromptNamespace (length ns_orphans) ns in
  match stdin with
  | [] => (RaiseEOFError, [], log (Input p None) σ)
  | line :: stdin =>
      let σ := log (Input p (Some line)) σ in
      let choice := read_choice line in
      if String.eqb choice "q" then
        let σ := log (Stdout MsgAborted) σ in
        (ReturnQuitNamespace, stdin,
         log (Stdout (MsgSummary (deleted_count σ)
                       (skipped_count σ
                        + remaining_total by_namespace namespaces ns))) σ)
      else if String.eqb choice "y" then
        (Normal, stdin, delete_all ns_orphans (log (Stdout (MsgDeletingAll ns)) σ))
      else if String.eqb choice "n" then
        (Normal, stdin,
         add_skipped (length ns_orphans) (log (Stdout (MsgSkippingNamespace ns)) σ))
      else if String.eqb choice "s" then
        select_individual ns_orphans stdin σ
      else
        ask_namespace by_namespace namespaces ns stdin (log (Stdout MsgInvalidChoice) σ)
  end.

(** Lines 224-229: the heading of one namespace. *)
Definition print_namespace (ns : string) (ns_orphans : list orphan) (σ : state)
  : state :=
  let σ := log (Stdout MsgNamespaceRule) σ in
  let σ := log (Stdout (MsgNamespace ns)) σ in
  let σ := log (Stdout (MsgNamespaceCount (length ns_orphans))) σ in
  foldl (λ σ o, log (Stdout (MsgOrphanLine (o_name o) (ks_ref o))) σ) σ ns_orphans.

(** Lines 222-280: [for ns in namespaces], on the namespaces still to
    visit. *)
Fixpoint namespace_loop (by_namespace : gmap string (list orphan))
  (namespaces todo : list string) (stdin : list string) (σ : state)
  : control * list string * state :=
  match todo with
  | [] => (Normal, stdin, σ)
  | ns :: todo =>
      let σ := print_namespace ns (by_namespace !!! ns) σ in
      match ask_namespace by_namespace namespaces ns stdin σ with
      | (Normal, stdin, σ) => namespace_loop by_namespace namespaces todo stdin σ
      | stopped => stopped
      end
  end.

(** Lines 282-286. *)
Definition print_complete (σ : state) : state :=
  let σ := log (Stdout MsgRule) σ in
  let σ := log (Stdout MsgCleanupComplete) σ in
  let σ := log (Stdout MsgRule) σ in
  let σ := log (Stdout (MsgDeletedCount (deleted_count σ))) σ in
  log (Stdout (MsgSkippedCount (skipped_count σ))) σ.

(** Lines 212-217. *)
Definition print_banner (n_orphans n_namespaces : nat) (σ : state) : state :=
  let σ := log (Stdout MsgRule) σ in
  let σ := log (Stdout MsgCleanupTitle) σ in
  let σ := log (Stdout MsgRule) σ in
  let σ := log (Stdout (MsgFound n_orphans n_namespaces)) σ in
  let σ := log (Stdout MsgWillPrompt) σ in
  log (Stdout MsgOptions) σ.

(** Lines 199-286: a run on the orphans, the lines the operator will
    type and the cluster. *)
Definition cleanup_orphans_interactive (orphans : list orphan)
  (stdin : list string) (w : World) : control * list string * state :=
  let σ := State 0 0 w [] in
  match orphans with
  | [] => (ReturnNothingToDo, stdin, log (Stdout MsgNothingToCleanUp) σ)
  | _ =>
      let by_namespace := group_by_namespace orphans in
      let namespaces := sorted_keys by_namespace in
      let σ := print_banner (length orphans) (length namespaces) σ in
      match namespace_loop by_namespace namespaces namespaces stdin σ with
      | (Normal, stdin, σ) => (Normal, stdin, print_complete σ)
      | stopped => stopped
      end
  end.

End Cleanup.

Arguments State {World}.
Arguments state : clear implicits.
Arguments print_complete : simpl never.

(** The result of a run, taken apart. *)
Definition ending {World} (r : control * list string * state World) : control :=
  r.1.1.
Definition events {World} (r : control * list string * state World) : list event :=
  trace r.2.

(** The [kubectl] calls of a trace, in order: arguments and success. *)
Definition kubectl_calls (tr : list event) : list (list string * bool) :=
  omap (λ e, match e with Kubectl args ok => Some (args, ok) | _ => None end) tr.

(** The number of [kubectl] calls of a trace that ended with the given
    success flag. *)
Definition count_kubectl (success : bool) (tr : list event) : nat :=
  length (filter (λ c, c.2 = success) (kubectl_calls tr)).

(** The names in the [Skipped] messages of the individual selection, in
    order. *)
Definition skipped_names (tr : list event) : list string :=
  omap (λ e, match e with Stdout (MsgSkipped name) => Some name | _ => None end) tr.

(** The lines read from the operator, in order. *)
Definition lines_read (tr : list event) : list string :=
  omap (λ e, match e with Input _ (Some line) => Some line | _ => None end) tr.

(* ===================================================================== *)
(** * Vocabulary of the statements                                        *)
(* ===================================================================== *)

(** The HelmRelease [hr] carries the label [k], whatever its value. *)
Definition carries_label (hr : helmrelease) (k : string) : Prop :=
  is_Some (hr_labels hr !! k).

(** The HelmRelease [hr] carries the label [k] with a value that is not
    the empty string. *)
Definition carries_nonempty_label (hr : helmrelease) (k : string) : Prop :=
  ∃ v, hr_labels hr !! k = Some v ∧ v ≠ EmptyString.

(** The detector reports [hr]: its result holds a record made from [hr]. *)
Definition reported (helmreleases : list helmrelease)
  (managed_releases : gset string) (hr : helmrelease) : Prop :=
  ∃ o, o ∈ find_orphaned_helmreleases helmreleases managed_releases ∧ o_raw o = hr.


(** The entry id has both markers as substrings. *)
Definition has_markers (entry_id : string) : Prop :=
  PyStr.contains KIND_MARKER entry_id = true
  ∧ PyStr.contains GROUP_MARKER entry_id = true.

(** The key [x] is decoded from some entry of some Kustomization of the
    list. *)
Definition decoded_from (kustomizations : list kustomization) (x : string) : Prop :=
  ∃ ks e ns name,
    ks ∈ kustomizations ∧ e ∈ ks_entries ks
    ∧ parse_entry_id (default EmptyString (entry_id e)) = Some (ns, name)
    ∧ x = release_key ns name.

(** A line that is read as the choice [q]. *)
Definition quit_event (e : event) : Prop :=
  ∃ p line, e = Input p (Some line) ∧ read_choice line = "q".

(** No line of the trace was read as the choice [q]. *)
Definition no_quit (tr : list event) : Prop :=
  ∀ e, e ∈ tr → ¬ quit_event e.

(** Every [kubectl] call of the trace deletes an orphan of the list. *)
Definition calls_within (orphans : list orphan) (tr : list event) : Prop :=
  ∀ args ok, Kubectl args ok ∈ tr →
    ∃ o, o ∈ orphans ∧ args = delete_args (o_namespace o) (o_name o).

(** The number of orphans in the given namespaces. *)
Definition total_in (by_namespace : gmap string (list orphan))
  (namespaces : list string) : nat :=
  sum_list ((λ n, length (by_namespace !!! n)) <$> namespaces).

(** The orphans of a namespace. *)
Definition in_namespace (ns : string) (o : orphan) : Prop := o_namespace o = ns.

#[global] Instance in_namespace_dec ns o : Decision (in_namespace ns o) :=
  decide (o_namespace o = ns).

(** The number of orphans the operator declined to delete, as the trace
    shows it: one for each [Skipped] message of the individual selection,
    and the size of the namespace for each [n] at the namespace prompt. *)
Definition declined_by (e : event) : nat :=
  match e with
  | Stdout (MsgSkipped _) => 1
  | Input (PromptNamespace k _) (Some line) =>
      if String.eqb (read_choice line) "n" then k else 0
  | _ => 0
  end.

Definition declined (tr : list event) : nat := sum_list (declined_by <$> tr).

Arguments declined : simpl never.

(** What a block of the cleanup does between the state [σ] and its result
    [r], on the input [stdin]: it adds events [Δ] to the trace, reads its
    lines from the front of [stdin], calls [kubectl] only for orphans of
    [os], and
    - when it falls through, it read no [q], it counted [n] orphans, the
      deleted counter grew by the number of successful calls and the
      skipped counter by the number of failed calls and of declined
      orphans;
    - when it returns at a [q] of the individual prompt, the [q] is the
      last line read and only the abort message follows;
    - when it returns at a [q] of the namespace prompt, the [q] is the
      last line read, and the abort message and a summary follow, which
      reports the deleted counter and a skipped count that brings the
      total to [m] more than the counters of [σ];
    - when the input ends, it read no [q]. *)
Definition block_ok {World} (os : list orphan) (n m : nat)
  (stdin : list string) (σ : state World)
  (r : control * list string * state World) : Prop :=
  ∃ Δ,
    trace r.2 = trace σ ++ Δ
    ∧ calls_within os Δ
    ∧ stdin = lines_read Δ ++ r.1.2
    ∧ match r.1.1 with
      | Normal =>
          no_quit Δ
          ∧ deleted_count r.2 = deleted_count σ + count_kubectl true Δ
          ∧ skipped_count r.2
            = skipped_count σ + count_kubectl false Δ + declined Δ
          ∧ deleted_count r.2 + skipped_count r.2
            = deleted_count σ + skipped_count σ + n
      | ReturnQuitIndividual =>
          ∃ Δ0 name ref line,
            Δ = Δ0 ++ [Input (PromptIndividual name ref) (Some line);
                       Stdout MsgAborted]
            ∧ read_choice line = "q" ∧ no_quit Δ0
      | ReturnQuitNamespace =>
          ∃ Δ0 k ns line d s,
            Δ = Δ0 ++ [Input (PromptNamespace k ns) (Some line);
                       Stdout MsgAborted; Stdout (MsgSummary d s)]
            ∧ read_choice line = "q" ∧ no_quit Δ0
            ∧ d = deleted_count σ + count_kubectl true Δ0
            ∧ d + s = deleted_count σ + skipped_count σ + m
      | RaiseEOFError => no_quit Δ ∧ r.1.2 = []
      | ReturnNothingToDo => False
      end.

(** The five lines of the final report (lines 282-286). *)
Definition final_report (deleted skipped : nat) : list event :=
  [Stdout MsgRule; Stdout MsgCleanupComplete; Stdout MsgRule;
   Stdout (MsgDeletedCount deleted); Stdout (MsgSkippedCount skipped)].

(** A count is reported by a trace when the trace prints a summary or a
    final count. *)
Definition is_count (e : event) : bool :=
  match e with
  | Stdout (MsgSummary _ _) | Stdout (MsgDeletedCount _) | Stdout (MsgSkippedCount _) =>
      true
  | _ => false
  end.

Definition reports_counts (tr : list event) : bool := existsb is_count tr.

(** ** Concrete objects of the examples *)

Definition scenario_a_id : string :=
  "teamA_web-release_helm.toolkit.fluxcd.io_HelmRelease".


(** A HelmRelease [teamA/web-release] whose owner-name label is present
    and empty. *)
Definition empty_label_release : helmrelease :=
  HelmRelease (Some (ObjMetadata (Some "web-release") (Some "teamA")
    (Some (<[ OWNER_NAME_LABEL := EmptyString ]>
             (<[ OWNER_NAMESPACE_LABEL := "flux-system" ]> ∅))))).

(** A HelmRelease [teamA/web-release] with both owner labels set. *)
Definition labelled_release : helmrelease :=
  HelmRelease (Some (ObjMetadata (Some "web-release") (Some "teamA")
    (Some (<[ OWNER_NAME_LABEL := "apps" ]>
             (<[ OWNER_NAMESPACE_LABEL := "flux-system" ]> ∅))))).

(** The orphan record of [namespace/name], once owned by
    [flux-system/apps]. *)
Definition sample_orphan (namespace name : string) : orphan :=
  {| o_name := name;
     o_namespace := namespace;
     original_kustomization_name := "apps";
     original_kustomization_namespace := "flux-system";
     o_labels := <[ OWNER_NAME_LABEL := "apps" ]>
                   (<[ OWNER_NAMESPACE_LABEL := "flux-system" ]> ∅);
     o_raw := HelmRelease (Some (ObjMetadata (Some name) (Some namespace)
                (Some (<[ OWNER_NAME_LABEL := "apps" ]>
                         (<[ OWNER_NAMESPACE_LABEL := "flux-system" ]> ∅))))) |}.

(** A cluster whose answers to [kubectl] are scripted: the list holds the
    success flags of the calls to come; once it is used up every call
    succeeds. *)
Definition scripted_kubectl (args : list string) (w : list bool)
  : bool * string * list bool :=
  match w with
  | [] => (true, EmptyString, [])
  | ok :: w => (ok, if ok then EmptyString else "Error from server", w)
  end.

(** Three runs on the one orphan [teamA/web-release], on a cluster where
    every call succeeds: the operator quits at the namespace prompt, quits
    at the individual prompt, or has the namespace deleted. *)
Definition one_orphan : list orphan := [sample_orphan "teamA" "web-release"].

Definition quit_namespace_run : control * list string * state (list bool) :=
  cleanup_orphans_interactive scripted_kubectl one_orphan ["q"; "y"] [].

Definition quit_individual_run : control * list string * state (list bool) :=
  cleanup_orphans_interactive scripted_kubectl one_orphan ["s"; "q"] [].

Definition delete_run : control * list string * state (list bool) :=
  cleanup_orphans_interactive scripted_kubectl one_orphan ["y"] [].

(* ===================================================================== *)
(** * The rest of the program: fetching, rendering and [main]             *)
(* ===================================================================== *)

(** More Python string primitives.  Widths are counted in characters of
    the [string], which are the code points of an ASCII text; the names,
    namespaces and label values of Kubernetes objects are ASCII. *)
Module PyFmt.

(** [c * n] for a one-character string [c]. *)
Fixpoint repeat (c : ascii) (n : nat) : string :=
  match n with
  | 0 => EmptyString
  | S n => String c (repeat c n)
  end.

(** The format [{s:<width}]: [s], then spaces up to [width] characters;
    a longer [s] is left as it is. *)
Definition ljust (width : nat) (s : string) : string :=
  s +:+ repeat " "%char (width - String.length s).

(** The line feed of ["\n"]. *)
Definition NL : string := String (ascii_of_nat 10) EmptyString.

(** [sep.join(parts)] for a one-character separator. *)
Fixpoint join (sep : ascii) (parts : list string) : string :=
  match parts with
  | [] => EmptyString
  | [s] => s
  | s :: parts => s +:+ String sep (join sep parts)
  end.

(** [c in s] for one character. *)
Fixpoint has_char (c : ascii) (s : string) : bool :=
  match s with
  | EmptyString => false
  | String b s => Ascii.eqb b c || has_char c s
  end.

End PyFmt.

(** The id the source documents for the inventory entry of the
    HelmRelease [name] of [namespace] (lines 70-71):
    [namespace_name_helm.toolkit.fluxcd.io_HelmRelease]. *)
Definition helmrelease_entry_id (namespace name : string) : string :=
  namespace +:+ "_" +:+ name +:+ "_helm.toolkit.fluxcd.io_HelmRelease".

(** The number of inventory entries of a list of Kustomizations. *)
Definition count_entries (kustomizations : list kustomization) : nat :=
  sum_list ((λ ks, length (ks_entries ks)) <$> kustomizations).

(** ** The renderers *)

(** One element of the list [print_orphans_json] hands to [json.dumps]. *)
Record json_orphan := JsonOrphan {
  j_name : string;
  j_namespace : string;
  j_ks_name : string;        (* originalKustomization.name *)
  j_ks_namespace : string    (* originalKustomization.namespace *)
}.

(** What [main] and the functions it calls do, in order: a [print] to the
    standard output with its text, the [print] of
    [json.dumps(output, indent=2)], a [print] to [sys.stderr], and the
    events of the cleanup and of [kubectl]. *)
Inductive main_event :=
| Out (text : string)
| OutJson (output : list json_orphan)
| Err (text : string)
| Ev (e : event).

(** Lines 155-156: one row of the table. *)
Definition table_row (o : orphan) : string :=
  PyFmt.ljust 30 (o_namespace o) +:+ " " +:+ PyFmt.ljust 40 (o_name o) +:+ " "
  +:+ PyFmt.ljust 50 (ks_ref o).

(** Line 151. *)
Definition table_header : string :=
  PyFmt.NL +:+ PyFmt.ljust 30 "NAMESPACE" +:+ " " +:+ PyFmt.ljust 40 "NAME" +:+ " "
  +:+ PyFmt.ljust 50 "ORIGINAL KUSTOMIZATION".

(** Lines 144-158. *)
Definition print_orphans_table (orphans : list orphan) : list main_event :=
  match orphans with
  | [] => [Out "No orphaned HelmReleases found."]
  | _ =>
      [Out table_header; Out (PyFmt.repeat "-"%char 120)]
      ++ ((λ o, Out (table_row o)) <$> orphans)
      ++ [Out (PyFmt.NL +:+ "Total orphaned HelmReleases: "
               +:+ pretty (length orphans))]
  end.

(** Lines 163-172. *)
Definition json_of_orphan (o : orphan) : json_orphan :=
  {| j_name := o_name o;
     j_namespace := o_namespace o;
     j_ks_name := original_kustomization_name o;
     j_ks_namespace := original_kustomization_namespace o |}.

(** Lines 161-173. *)
Definition print_orphans_json (orphans : list orphan) : list main_event :=
  [OutJson (json_of_orphan <$> orphans)].

(** Lines 179-183: the five lines of one orphan. *)
Definition yaml_lines (o : orphan) : list string :=
  ["- name: " +:+ o_name o;
   "  namespace: " +:+ o_namespace o;
   "  originalKustomization:";
   "    name: " +:+ original_kustomization_name o;
   "    namespace: " +:+ original_kustomization_namespace o].

(** Lines 176-183. *)
Definition print_orphans_yaml (orphans : list orphan) : list main_event :=
  orphans ≫= (λ o, Out <$> yaml_lines o).

(** The texts printed to the standard output, the [kubectl] calls and
    the events of the cleanup of a trace of [main], in order. *)
Definition out_texts (tr : list main_event) : list string :=
  omap (λ e, match e with Out text => Some text | _ => None end) tr.

Definition main_kubectl_calls (tr : list main_event) : list (list string * bool) :=
  omap (λ e, match e with Ev (Kubectl args ok) => Some (args, ok) | _ => None end)
       tr.

Definition cleanup_events (tr : list main_event) : list event :=
  omap (λ e, match e with Ev e => Some e | _ => None end) tr.

(** ** Fetching and [main] *)

(** The values of [--output]. *)
Inductive output_format := Table | Json | Yaml.

(** The parsed command line (lines 290-309). *)
Record arguments := Arguments_ {
  arg_namespace : option string;
  arg_output : output_format;
  arg_cleanup : bool
}.

Definition KUSTOMIZATIONS_ARGS : list string :=
  ["get"; "kustomizations.kustomize.toolkit.fluxcd.io"; "-A"; "-o"; "json"].

(** Lines 86-90. *)
Definition helmreleases_args (namespace : option string) : list string :=
  ["get"; "helmreleases.helm.toolkit.fluxcd.io"; "-o"; "json"]
  ++ (if PyStr.truthy namespace
      then ["-n"; default EmptyString namespace]
      else ["-A"]).

Section Program.

(** The cluster behind [kubectl], as for the cleanup, and [json.loads]
    of the standard library followed by the reading of ["items"]: the
    text of the [JSONDecodeError], or the items at the record types of
    this file, [None] when the key is absent. *)
Context {World : Type}.
Variable run_kubectl : list string → World → bool * string * World.
Variable json_loads_kustomizations : string → string + option (list kustomization).
Variable json_loads_helmreleases : string → string + option (list helmrelease).

(** Lines 34-49. *)
Definition get_all_kustomizations (w : World)
  : list kustomization * World * list main_event :=
  match run_kubectl KUSTOMIZATIONS_ARGS w with
  | (success, output, w) =>
      let call := Ev (Kubectl KUSTOMIZATIONS_ARGS success) in
      if negb success then
        ([], w, [call; Err ("Error fetching Kustomizations: " +:+ output)])
      else
        match json_loads_kustomizations output with
        | inr data => (default [] data, w, [call])
        | inl e =>
            ([], w, [call; Err ("Error parsing Kustomizations JSON: " +:+ e)])
        end
  end.

(** Lines 84-102. *)
Definition get_all_helmreleases (namespace : option string) (w : World)
  : list helmrelease * World * list main_event :=
  let args := helmreleases_args namespace in
  match run_kubectl args w with
  | (success, output, w) =>
      let call := Ev (Kubectl args success) in
      if negb success then
        ([], w, [call; Err ("Error fetching HelmReleases: " +:+ output)])
      else
        match json_loads_helmreleases output with
        | inr data => (default [] data, w, [call])
        | inl e =>
            ([], w, [call; Err ("Error parsing HelmReleases JSON: " +:+ e)])
        end
  end.

(** Lines 311-327: the orphans of the cluster, with the cluster after the
    two fetches and the events up to the analysis. *)
Definition detect (args : arguments) (w : World)
  : list orphan * World * list main_event :=
  match get_all_kustomizations w with
  | (kustomizations, w, fetched_ks) =>
      let managed_releases :=
        get_managed_helmreleases_from_inventory kustomizations in
      match get_all_helmreleases (arg_namespace args) w with
      | (helmreleases, w, fetched_hr) =>
          (find_orphaned_helmreleases helmreleases managed_releases, w,
           [Out "Fetching Kustomizations..."]
           ++ fetched_ks
           ++ (match kustomizations with
               | [] =>
                   [Err "Warning: No Kustomizations found or unable to fetch them."]
               | _ => []
               end)
           ++ [Out ("Found " +:+ pretty (length kustomizations)
                    +:+ " Kustomizations");
               Out "Building inventory of managed HelmReleases...";
               Out ("Found " +:+ pretty (size managed_releases)
                    +:+ " HelmReleases in Kustomization inventories");
               Out "Fetching HelmReleases from cluster..."]
           ++ fetched_hr
           ++ [Out ("Found " +:+ pretty (length helmreleases)
                    +:+ " HelmReleases in cluster");
               Out "Analyzing for orphaned HelmReleases..."])
      end
  end.

(** Lines 330-335. *)
Definition render (format : output_format) (orphans : list orphan)
  : list main_event :=
  match format with
  | Table => print_orphans_table orphans
  | Json => print_orphans_json orphans
  | Yaml => print_orphans_yaml orphans
  end.

(** Lines 289-341: [main] on the parsed command line, the lines the
    operator will type and the cluster.  It ends by falling through
    ([Normal]) or by the [EOFError] of the cleanup. *)
Definition main (args : arguments) (stdin : list string) (w : World)
  : control * list string * World * list main_event :=
  match detect args w with
  | (orphans, w, detected) =>
      let tr := detected ++ render (arg_output args) orphans in
      if arg_cleanup args then
        match orphans with
        | [] =>
            (Normal, stdin, w,
             tr ++ [Out (PyFmt.NL +:+ "No orphaned HelmReleases to clean up.")])
        | _ =>
            match cleanup_orphans_interactive run_kubectl orphans stdin w with
            | (c, stdin, σ) =>
                (match c with RaiseEOFError => RaiseEOFError | _ => Normal end,
                 stdin, world σ, tr ++ (Ev <$> trace σ))
            end
        end
      else (Normal, stdin, w, tr)
  end.

End Program.

(** ** Concrete objects of the examples, for the rest of the program *)

(** A cluster for [main], scripted: each call of [kubectl] takes the
    next answer of the list; once the list is used up every call
    succeeds with an empty output. *)
Definition scripted_cluster (args : list string) (w : list (bool * string))
  : bool * string * list (bool * string) :=
  match w with
  | [] => (true, EmptyString, [])
  | (ok, output) :: w => (ok, output, w)
  end.

(** A Kustomization [flux-system/apps] whose inventory holds the entry of
    the HelmRelease [teamA/web-release]. *)
Definition apps_kustomization : kustomization :=
  Kustomization
    (Some (ObjMetadata (Some "apps") (Some "flux-system") None))
    (Some (KsStatus (Some (Inventory (Some
       [Entry (Some (helmrelease_entry_id "teamA" "web-release")) (Some "v2")]))))).

(** A decoder for the scripted cluster: the output ["ks"] is the list
    with [apps_kustomization], ["none"] is a document without items, any
    other output is not JSON. *)
Definition scripted_kustomizations (output : string)
  : string + option (list kustomization) :=
  if String.eqb output "ks" then inr (Some [apps_kustomization])
  else if String.eqb output "none" then inr None
  else inl "Expecting value".

(** The output ["hr"] is the list with [labelled_release], ["none"] is a
    document without items, any other output is not JSON. *)
Definition scripted_helmreleases (output : string)
  : string + option (list helmrelease) :=
  if String.eqb output "hr" then inr (Some [labelled_release])
  else if String.eqb output "none" then inr None
  else inl "Expecting value".

(** ** Vocabulary of the statements on the cleanup *)

(** Some line of the trace was read as the choice [y]. *)
Definition yes_read (tr : list event) : Prop :=
  ∃ line, line ∈ lines_read tr ∧ read_choice line = "y".

(** The arguments of the [kubectl] calls of a trace, in order. *)
Definition call_args (tr : list event) : list (list string) :=
  (kubectl_calls tr).*1.

(** The [delete] call of an orphan. *)
Definition delete_call (o : orphan) : list string :=
  delete_args (o_namespace o) (o_name o).

(** The orphans in the order the cleanup walks them: namespace by
    namespace in sorted order, and in the order of the list inside a
    namespace. *)
Definition walk_order (orphans : list orphan) : list orphan :=
  let by_namespace := group_by_namespace orphans in
  sorted_keys by_namespace ≫= (λ ns, by_namespace !!! ns).

(** The namespaces whose heading (line 225) a trace prints, in order. *)
Definition namespaces_shown (tr : list event) : list string :=
  omap (λ e, match e with Stdout (MsgNamespace ns) => Some ns | _ => None end) tr.

(** The prompts of a trace with what was read at each, in order. *)
Definition inputs (tr : list event) : list (prompt * option string) :=
  omap (λ e, match e with Input p line => Some (p, line) | _ => None end) tr.

(** Two states have shown the same prompts, read the same answers and
    made the same [kubectl] calls. *)
Definition same_flow {World1 World2 : Type}
  (σ1 : state World1) (σ2 : state World2) : Prop :=
  inputs (trace σ1) = inputs (trace σ2)
  ∧ call_args (trace σ1) = call_args (trace σ2).

(** A string of white space only. *)
Fixpoint all_space (s : string) : bool :=
  match s with
  | EmptyString => true
  | String c s => PyStr.is_space c && all_space s
  end.


(** ** Vocabulary of the statements on [main] *)

(** The arguments of the [kubectl] calls of a trace of [main], in order. *)
Definition main_call_args (tr : list main_event) : list (list string) :=
  (main_kubectl_calls tr).*1.

(** The texts printed to the standard error, in order. *)
Definition err_texts (tr : list main_event) : list string :=
  omap (λ e, match e with Err text => Some text | _ => None end) tr.

(** ** Vocabulary of the statements on the answers and on the outcomes *)

(** A line of ASCII characters.  On such a line [read_choice] is what
    Python's [.lower().strip()] gives; Python also lowers letters and
    strips white space outside ASCII (the no-break space, for one), which
    [read_choice] leaves in place. *)
Fixpoint is_ascii (s : string) : bool :=
  match s with
  | EmptyString => true
  | String c s => (nat_of_ascii c <? 128)%nat && is_ascii s
  end.

(** The line holds the letter [c], in lower or in upper case, between
    white space, and nothing else. *)
Fixpoint one_letter (c : ascii) (line : string) : bool :=
  match line with
  | EmptyString => false
  | String d rest =>
      if PyStr.is_space d then one_letter c rest
      else Ascii.eqb (PyStr.lower_ascii d) c && all_space rest
  end.

(** What the cleanup does with one orphan: it deletes it, it calls
    [kubectl] and the call fails, or the operator declines it (by itself,
    or with its namespace). *)
Inductive outcome := Deleted | DeleteFailed | Declined.

#[global] Instance outcome_eq_dec : EqDecision outcome.
Proof. solve_decision. Defined.

(** The namespace and the name of an orphan, and those a [delete] call
    names: its argument after [-n] and its last argument. *)
Definition orphan_key (o : orphan) : string * string :=
  (o_namespace o, o_name o).

Definition call_key (args : list string) : string * string :=
  (default EmptyString (args !! 3), default EmptyString (args !! 4)).

(** The outcomes a trace shows, in order, each with the namespace and the
    name of the orphan it is for: a [kubectl] call is the outcome of the
    orphan it names, a [Skipped] message that of the orphan of this name
    in the namespace of the last heading, and the message of a skipped
    namespace that of every orphan of the namespace.  [ns] is the
    namespace of the last heading before the trace. *)
Fixpoint outcomes_from (by_namespace : gmap string (list orphan)) (ns : string)
  (tr : list event) : list (string * string * outcome) :=
  match tr with
  | [] => []
  | e :: tr =>
      match e with
      | Stdout (MsgNamespace ns') => outcomes_from by_namespace ns' tr
      | Stdout (MsgSkippingNamespace ns') =>
          ((λ o, (orphan_key o, Declined)) <$> by_namespace !!! ns')
          ++ outcomes_from by_namespace ns tr
      | Stdout (MsgSkipped name) =>
          ((ns, name), Declined) :: outcomes_from by_namespace ns tr
      | Kubectl args ok =>
          (call_key args, if ok then Deleted else DeleteFailed)
          :: outcomes_from by_namespace ns tr
      | _ => outcomes_from by_namespace ns tr
      end
  end.

Definition outcomes (by_namespace : gmap string (list orphan)) (tr : list event)
  : list (string * string * outcome) :=
  outcomes_from by_namespace EmptyString tr.

(** The namespace of the last heading of a trace, [ns] when it has none. *)
Definition heading (ns : string) (tr : list event) : string :=
  foldl (λ ns e, match e with Stdout (MsgNamespace ns') => ns' | _ => ns end)
        ns tr.

(** The number of orphans deleted, and of those not deleted, among the
    outcomes. *)
Definition deleted_in (out : list (string * string * outcome)) : nat :=
  length (filter (λ x, x.2 = Deleted) out).

Definition skipped_in (out : list (string * string * outcome)) : nat :=
  length (filter (λ x, x.2 ≠ Deleted) out).

(** The state accounts for the orphans [os]: its trace shows one outcome
    for each of them, in order, and no other; the two counters count
    these outcomes; [ns] is the namespace of the last heading. *)
Definition accounted {World} (by_namespace : gmap string (list orphan))
  (os : list orphan) (ns : string) (σ : state World) : Prop :=
  let out := outcomes by_namespace (trace σ) in
  out.*1 = orphan_key <$> os
  ∧ deleted_count σ = deleted_in out
  ∧ skipped_count σ = skipped_in out
  ∧ heading EmptyString (trace σ) = ns.

(* ===================================================================== *)
(** * The inventory parser                                                *)
(* ===================================================================== *)

Section Parser.

Lemma prefix_cons_inv c needle s :
  String.prefix (String c needle) s = true → ∃ s', s = String c s'.
Proof.
  destruct s as [|b s']; simpl; [discriminate|].
  destruct (ascii_dec c b) as [->|]; [eauto | discriminate].
Qed.

Lemma split_length_pos sep s : 1 ≤ length (PyStr.split sep s).
Proof.
  induction s as [|c s IH]; simpl; [lia|].
  destruct (Ascii.eqb c sep); simpl; [lia|].
  destruct (PyStr.split sep s); simpl in *; lia.
Qed.

Lemma split_length_cons sep c s :
  length (PyStr.split sep s) ≤ length (PyStr.split sep (String c s)).
Proof.
  simpl. destruct (Ascii.eqb c sep); simpl; [lia|].
  pose proof (split_length_pos sep s).
  destruct (PyStr.split sep s); simpl in *; lia.
Qed.

(** A string that contains a substring starting with the separator
    splits in at least two tokens. *)
Lemma contains_sep_split sep needle s :
  PyStr.contains (String sep needle) s = true →
  2 ≤ length (PyStr.split sep s).
Proof.
  induction s as [|c s IH]; intros H.
  - simpl in H. discriminate.
  - cbn [PyStr.contains] in H.
    destruct (String.prefix (String sep needle) (String c s)) eqn:Hp.
    + apply prefix_cons_inv in Hp as [s' Hs']. injection Hs' as Hc _. subst c.
      simpl. rewrite Ascii.eqb_refl. simpl.
      pose proof (split_length_pos sep s). lia.
    + etrans; [apply IH, H | apply split_length_cons].
Qed.

Lemma parse_entry_id_markers entry_id :
  has_markers entry_id →
  ∃ ns name rest,
    PyStr.split DELIMITER entry_id = ns :: name :: rest
    ∧ parse_entry_id entry_id = Some (ns, name).
Proof.
  intros [Hk Hg]. unfold parse_entry_id. rewrite Hk, Hg. simpl.
  pose proof (contains_sep_split _ _ _ Hk) as Hlen.
  fold DELIMITER in Hlen.
  destruct (PyStr.split DELIMITER entry_id) as [|ns [|name rest]];
    simpl in Hlen; try lia.
  exists ns, name, rest. done.
Qed.

Lemma parse_entry_id_no_markers entry_id :
  ¬ has_markers entry_id → parse_entry_id entry_id = None.
Proof.
  intros Hn. unfold parse_entry_id, has_markers in *.
  destruct (PyStr.contains KIND_MARKER entry_id);
    destruct (PyStr.contains GROUP_MARKER entry_id); simpl; try done.
  destruct Hn; done.
Qed.

Lemma parse_entry_id_Some_inv entry_id k :
  parse_entry_id entry_id = Some k → has_markers entry_id.
Proof.
  intros H. destruct (decide (has_markers entry_id)) as [|Hn]; [done|].
  rewrite (parse_entry_id_no_markers _ Hn) in H. done.
Qed.

End Parser.

(* ===================================================================== *)
(** * The set of managed releases                                         *)
(* ===================================================================== *)

Section ManagedSet.

Lemma elem_of_add_entry (S : gset string) e x :
  x ∈ add_entry S e ↔
  x ∈ S ∨ ∃ ns name,
    parse_entry_id (default EmptyString (entry_id e)) = Some (ns, name)
    ∧ x = release_key ns name.
Proof.
  unfold add_entry.
  destruct (parse_entry_id _) as [[ns name]|].
  - rewrite elem_of_union, elem_of_singleton. split.
    + intros [->|?]; [right; eauto | by left].
    + intros [?|(ns' & name' & [= <- <-] & ->)]; [by right | by left].
  - split; [by left|]. by intros [?|(? & ? & [=] & _)].
Qed.

Lemma elem_of_add_entries es : ∀ (S : gset string) x,
  x ∈ foldl add_entry S es ↔
  x ∈ S ∨ ∃ e ns name,
    e ∈ es
    ∧ parse_entry_id (default EmptyString (entry_id e)) = Some (ns, name)
    ∧ x = release_key ns name.
Proof.
  induction es as [|e es IH]; intros S x; simpl.
  - split; [auto|]. intros [?|(e & ? & ? & He & _)]; [done|].
    by apply elem_of_nil in He.
  - rewrite IH, elem_of_add_entry. split.
    + intros [[?|(ns & name & ? & ?)]|(e' & ns & name & ? & ? & ?)]; auto.
      * right. exists e, ns, name. split; [left|done].
      * right. exists e', ns, name. split; [by right|done].
    + intros [?|(e' & ns & name & [->|?]%elem_of_cons & ? & ?)]; eauto 10.
Qed.

Lemma elem_of_add_kustomizations kss : ∀ (S : gset string) x,
  x ∈ foldl add_kustomization S kss ↔ x ∈ S ∨ decoded_from kss x.
Proof.
  unfold decoded_from.
  induction kss as [|ks kss IH]; intros S x; simpl.
  - split; [auto|]. intros [?|(ks & ? & ? & ? & Hks & _)]; [done|].
    by apply elem_of_nil in Hks.
  - rewrite IH. unfold add_kustomization.
    rewrite elem_of_add_entries. split.
    + intros [[?|(e & ns & name & ? & ? & ?)]|(ks' & e & ns & name & ? & ?)];
        auto.
      * right. exists ks, e, ns, name. split; [left|done].
      * right. exists ks', e, ns, name. split; [by right|done].
    + intros [?|(ks' & e & ns & name & [->|?]%elem_of_cons & ? & ? & ?)];
        eauto 12.
Qed.

(** The set is the union, over the Kustomizations and their entries, of
    the decoded keys. *)
Lemma elem_of_managed_releases kss x :
  x ∈ get_managed_helmreleases_from_inventory kss ↔ decoded_from kss x.
Proof.
  unfold get_managed_helmreleases_from_inventory.
  rewrite elem_of_add_kustomizations. split; [|by right].
  intros [H|?]; [by apply not_elem_of_empty in H | done].
Qed.

Lemma decoded_from_Permutation kss kss' x :
  kss ≡ₚ kss' → decoded_from kss x → decoded_from kss' x.
Proof.
  intros Hp (ks & e & ns & name & Hks & H). exists ks, e, ns, name.
  split; [by rewrite <- Hp | done].
Qed.

Lemma managed_releases_Permutation kss kss' :
  kss ≡ₚ kss' →
  get_managed_helmreleases_from_inventory kss
  = get_managed_helmreleases_from_inventory kss'.
Proof.
  intros Hp. apply set_eq. intros x. rewrite !elem_of_managed_releases.
  split; apply decoded_from_Permutation; [done | by symmetry].
Qed.

End ManagedSet.

(* ===================================================================== *)
(** * The orphan detector                                                 *)
(* ===================================================================== *)

Section Detector.

Lemma truthy_nonempty (x : option string) :
  PyStr.truthy x = true ↔ ∃ v, x = Some v ∧ v ≠ EmptyString.
Proof.
  destruct x as [v|]; simpl.
  - destruct (String.eqb_spec v EmptyString) as [->|Hne]; simpl; split.
    + discriminate.
    + by intros (v & [= <-] & ?).
    + eauto.
    + done.
  - split; [discriminate | by intros (v & [=] & _)].
Qed.

Lemma orphan_of_Some M hr o :
  orphan_of M hr = Some o →
  o_raw o = hr ∧ o_name o = hr_name hr ∧ o_namespace o = hr_namespace hr
  ∧ hr_labels hr !! OWNER_NAME_LABEL = Some (original_kustomization_name o)
  ∧ hr_labels hr !! OWNER_NAMESPACE_LABEL
    = Some (original_kustomization_namespace o)
  ∧ o_labels o = hr_labels hr.
Proof.
  unfold orphan_of.
  destruct (PyStr.truthy (hr_labels hr !! OWNER_NAME_LABEL)) eqn:H1; [|done].
  destruct (PyStr.truthy (hr_labels hr !! OWNER_NAMESPACE_LABEL)) eqn:H2;
    [|done].
  simpl. case_bool_decide; [|done].
  apply truthy_nonempty in H1 as (v1 & E1 & _).
  apply truthy_nonempty in H2 as (v2 & E2 & _).
  intros [= <-]. simpl. rewrite E1, E2. done.
Qed.

Lemma orphan_of_is_Some M hr :
  is_Some (orphan_of M hr) ↔
  carries_nonempty_label hr OWNER_NAME_LABEL
  ∧ carries_nonempty_label hr OWNER_NAMESPACE_LABEL
  ∧ release_key (hr_namespace hr) (hr_name hr) ∉ M.
Proof.
  unfold carries_nonempty_label. rewrite <- !truthy_nonempty.
  unfold orphan_of.
  destruct (PyStr.truthy (hr_labels hr !! OWNER_NAME_LABEL));
    destruct (PyStr.truthy (hr_labels hr !! OWNER_NAMESPACE_LABEL)); simpl;
    try (split; [intros [? [=]] | intros (? & ? & ?); done]).
  case_bool_decide; split; eauto.
  - intros [? [=]].
  - intros (_ & _ & ?). done.
Qed.

Lemma elem_of_find_orphaned hrs M o :
  o ∈ find_orphaned_helmreleases hrs M ↔
  ∃ hr, hr ∈ hrs ∧ orphan_of M hr = Some o.
Proof.
  induction hrs as [|hr hrs IH]; simpl.
  - split; [by intros ?%elem_of_nil | by intros (? & ?%elem_of_nil & _)].
  - destruct (orphan_of M hr) as [o'|] eqn:E.
    + rewrite elem_of_cons, IH. split.
      * intros [->|(hr' & ? & ?)]; [exists hr | exists hr'];
          (split; [|done]); [left | by right].
      * intros (hr' & [->|?]%elem_of_cons & E'); [left; congruence|].
        right. eauto.
    + rewrite IH. split.
      * intros (hr' & ? & ?). exists hr'. split; [by right | done].
      * intros (hr' & [->|?]%elem_of_cons & E'); [congruence | eauto].
Qed.

Lemma reported_iff hrs M hr :
  reported hrs M hr ↔ hr ∈ hrs ∧ is_Some (orphan_of M hr).
Proof.
  unfold reported. split.
  - intros (o & (hr' & Hin & E)%elem_of_find_orphaned & Hraw).
    apply orphan_of_Some in E as E'. destruct E' as [Hr _].
    assert (hr' = hr) as -> by congruence. eauto.
  - intros [Hin [o E]]. exists o. split.
    + apply elem_of_find_orphaned. eauto.
    + by apply orphan_of_Some in E as [? _].
Qed.

End Detector.

(* ===================================================================== *)
(** * Properties of the parser, the set and the detector                  *)
(* ===================================================================== *)

(** C2.  An entry id that contains both the kind marker and the group
    marker splits on the delimiter in at least two tokens, and is decoded
    to the key made of the first token (namespace) and the second token
    (name), which is what the entry adds to the set; any other entry id is
    decoded to nothing and the entry leaves the set as it is.  The id
    ["teamA_web-release_helm.toolkit.fluxcd.io_HelmRelease"] is decoded to
    [("teamA", "web-release")]. *)
Theorem parse_entry_id_correct :
  (∀ entry_id, has_markers entry_id →
     ∃ ns name rest,
       PyStr.split DELIMITER entry_id = ns :: name :: rest
       ∧ parse_entry_id entry_id = Some (ns, name)
       ∧ ∀ (S : gset string) v,
           add_entry S (Entry (Some entry_id) v) = {[ release_key ns name ]} ∪ S)
  ∧ (∀ entry_id, ¬ has_markers entry_id →
       parse_entry_id entry_id = None
       ∧ ∀ (S : gset string) v, add_entry S (Entry (Some entry_id) v) = S)
  ∧ parse_entry_id scenario_a_id = Some ("teamA", "web-release").
Proof.
  split; [|split].
  - intros entry_id Hm.
    destruct (parse_entry_id_markers entry_id Hm) as (ns & name & rest & Hs & Hp).
    exists ns, name, rest. repeat split; [done..|].
    intros S v. unfold add_entry. simpl. by rewrite Hp.
  - intros entry_id Hn. pose proof (parse_entry_id_no_markers _ Hn) as Hp.
    split; [done|]. intros S v. unfold add_entry. simpl. by rewrite Hp.
  - reflexivity.
Qed.

Lemma parse_entry_id_correct_witness :
  ∃ ns name rest,
    PyStr.split DELIMITER scenario_a_id = ns :: name :: rest
    ∧ parse_entry_id scenario_a_id = Some (ns, name)
    ∧ ∀ (S : gset string) v,
        add_entry S (Entry (Some scenario_a_id) v) = {[ release_key ns name ]} ∪ S.
Proof.
  apply (proj1 parse_entry_id_correct scenario_a_id).
  split; reflexivity.
Defined.




(** C1, as stated, fails: a candidate that carries both owner labels, one
    of them with the empty value, and whose key is not in the set, is not
    reported. *)
Lemma carried_labels_not_sufficient :
  ¬ (∀ helmreleases (managed_releases : gset string) hr,
       hr ∈ helmreleases →
       (reported helmreleases managed_releases hr ↔
        carries_label hr OWNER_NAME_LABEL
        ∧ carries_label hr OWNER_NAMESPACE_LABEL
        ∧ release_key (hr_namespace hr) (hr_name hr) ∉ managed_releases)).
Proof.
  intros H.
  specialize (H [empty_label_release] ∅ empty_label_release).
  destruct H as [_ H]; [by left|].
  destruct H as (o & Ho & _).
  - split; [|split].
    + exists EmptyString. reflexivity.
    + exists "flux-system". reflexivity.
    + apply not_elem_of_empty.
  - vm_compute in Ho. by apply elem_of_nil in Ho.
Qed.

(** C1, amended.  The detector reports a candidate of its list exactly
    when the candidate carries both owner labels with values that are not
    empty and its key [namespace/name] is not in the set of managed
    releases; a candidate that lacks one of the two labels is never
    reported, whatever the set holds. *)
Theorem find_orphaned_helmreleases_correct :
  (∀ helmreleases (managed_releases : gset string) hr,
     hr ∈ helmreleases →
     (reported helmreleases managed_releases hr ↔
      carries_nonempty_label hr OWNER_NAME_LABEL
      ∧ carries_nonempty_label hr OWNER_NAMESPACE_LABEL
      ∧ release_key (hr_namespace hr) (hr_name hr) ∉ managed_releases))
  ∧ (∀ helmreleases (managed_releases : gset string) hr,
       ¬ carries_label hr OWNER_NAME_LABEL
       ∨ ¬ carries_label hr OWNER_NAMESPACE_LABEL →
       ¬ reported helmreleases managed_releases hr).
Proof.
  split.
  - intros hrs M hr Hin. rewrite reported_iff, orphan_of_is_Some. tauto.
  - intros hrs M hr Hl [_ Ho]%reported_iff.
    apply orphan_of_is_Some in Ho as ((v1 & E1 & _) & (v2 & E2 & _) & _).
    unfold carries_label in Hl. rewrite E1, E2 in Hl.
    destruct Hl as [Hl|Hl]; apply Hl; eauto.
Qed.

Lemma find_orphaned_helmreleases_correct_witness :
  reported [labelled_release] ∅ labelled_release ↔
  carries_nonempty_label labelled_release OWNER_NAME_LABEL
  ∧ carries_nonempty_label labelled_release OWNER_NAMESPACE_LABEL
  ∧ release_key (hr_namespace labelled_release) (hr_name labelled_release)
    ∉ (∅ : gset string).
Proof.
  apply (proj1 find_orphaned_helmreleases_correct [labelled_release] ∅).
  apply list_elem_of_here.
Defined.

(** C9.  A candidate whose owner-name label or owner-namespace label is
    present with the empty string as its value is handled as a candidate
    without that label: no record is made for it and the detector does
    not report it, also when its key is not in the set. *)
Theorem empty_label_not_reported helmreleases (managed_releases : gset string) hr :
  hr_labels hr !! OWNER_NAME_LABEL = Some EmptyString
  ∨ hr_labels hr !! OWNER_NAMESPACE_LABEL = Some EmptyString →
  orphan_of managed_releases hr = None
  ∧ ¬ reported helmreleases managed_releases hr.
Proof.
  intros Hl.
  assert (orphan_of managed_releases hr = None) as Hn.
  { unfold orphan_of. destruct Hl as [-> | ->]; simpl; [done|].
    by rewrite andb_false_r. }
  split; [done|]. intros [_ [o Ho]]%reported_iff. congruence.
Qed.

Lemma empty_label_not_reported_witness :
  orphan_of ∅ empty_label_release = None
  ∧ ¬ reported [empty_label_release] ∅ empty_label_release.
Proof.
  apply (empty_label_not_reported [empty_label_release] ∅ empty_label_release).
  left. reflexivity.
Defined.

(** C7, as stated, fails in its last part: with the empty set, a candidate
    that carries both owner labels, one of them with the empty value, is
    not reported. *)
Lemma labelled_not_always_reported :
  ¬ (∀ helmreleases hr,
       hr ∈ helmreleases →
       carries_label hr OWNER_NAME_LABEL →
       carries_label hr OWNER_NAMESPACE_LABEL →
       reported helmreleases (get_managed_helmreleases_from_inventory []) hr).
Proof.
  intros H.
  destruct (H [empty_label_release] empty_label_release) as (o & Ho & _).
  - apply list_elem_of_here.
  - exists EmptyString. reflexivity.
  - exists "flux-system". reflexivity.
  - vm_compute in Ho. by apply elem_of_nil in Ho.
Qed.

(** C7, amended.  The set of managed releases has no duplicate key and is
    the same for every permutation of the list of Kustomizations; the
    empty list gives the empty set, and with it every candidate that
    carries both owner labels with values that are not empty is
    reported. *)
Theorem managed_releases_set :
  (∀ kustomizations,
     NoDup (elements (get_managed_helmreleases_from_inventory kustomizations)))
  ∧ (∀ kustomizations kustomizations',
       kustomizations ≡ₚ kustomizations' →
       get_managed_helmreleases_from_inventory kustomizations
       = get_managed_helmreleases_from_inventory kustomizations')
  ∧ get_managed_helmreleases_from_inventory [] = ∅
  ∧ (∀ helmreleases hr,
       hr ∈ helmreleases →
       carries_nonempty_label hr OWNER_NAME_LABEL →
       carries_nonempty_label hr OWNER_NAMESPACE_LABEL →
       reported helmreleases (get_managed_helmreleases_from_inventory []) hr).
Proof.
  repeat split.
  - intros kss. apply NoDup_elements.
  - apply managed_releases_Permutation.
  - intros hrs hr Hin H1 H2. apply reported_iff. split; [done|].
    apply orphan_of_is_Some. repeat split; [done..|].
    apply not_elem_of_empty.
Qed.

Lemma managed_releases_set_witness :
  reported [labelled_release] (get_managed_helmreleases_from_inventory [])
    labelled_release.
Proof.
  apply (proj2 (proj2 (proj2 managed_releases_set)) [labelled_release]).
  - apply list_elem_of_here.
  - exists "apps". split; [reflexivity | discriminate].
  - exists "flux-system". split; [reflexivity | discriminate].
Defined.

(* ===================================================================== *)
(** * Grouping by namespace                                               *)
(* ===================================================================== *)

Section Grouping.

Implicit Types (orphans : list orphan) (by_namespace : gmap string (list orphan)).

Lemma group_step_lookup by_namespace o ns :
  <[ o_namespace o := by_namespace !!! o_namespace o ++ [o] ]> by_namespace !!! ns
  = by_namespace !!! ns ++ filter (in_namespace ns) [o].
Proof.
  destruct (decide (o_namespace o = ns)) as [<-|Hne].
  - rewrite lookup_total_insert_eq.
    rewrite filter_cons_True by done. done.
  - rewrite lookup_total_insert_ne by done.
    rewrite filter_cons_False by done. by rewrite app_nil_r.
Qed.

Lemma group_fold_lookup orphans : ∀ by_namespace ns,
  foldl (λ m o, <[ o_namespace o := m !!! o_namespace o ++ [o] ]> m)
        by_namespace orphans !!! ns
  = by_namespace !!! ns ++ filter (in_namespace ns) orphans.
Proof.
  induction orphans as [|o orphans IH]; intros m ns; simpl.
  - by rewrite app_nil_r.
  - rewrite IH, group_step_lookup, <- app_assoc. f_equal.
    by rewrite <- filter_app.
Qed.

(** [by_namespace[ns]] holds the orphans of [ns], in the order of the
    list. *)
Lemma group_by_namespace_lookup orphans ns :
  group_by_namespace orphans !!! ns = filter (in_namespace ns) orphans.
Proof.
  unfold group_by_namespace. rewrite group_fold_lookup.
  by rewrite lookup_total_empty.
Qed.

Lemma group_fold_dom orphans : ∀ by_namespace,
  dom (foldl (λ m o, <[ o_namespace o := m !!! o_namespace o ++ [o] ]> m)
             by_namespace orphans)
  = dom by_namespace ∪ list_to_set (o_namespace <$> orphans).
Proof.
  induction orphans as [|o orphans IH]; intros m; simpl.
  - by rewrite (right_id_L ∅ (∪)).
  - rewrite IH, dom_insert_L.
    by rewrite (comm_L (∪) {[ o_namespace o ]} (dom m)), (assoc_L (∪)).
Qed.

Lemma group_by_namespace_dom orphans :
  dom (group_by_namespace orphans) = list_to_set (o_namespace <$> orphans).
Proof.
  unfold group_by_namespace. rewrite group_fold_dom, dom_empty_L.
  by rewrite (left_id_L ∅ (∪)).
Qed.

Lemma sorted_keys_NoDup by_namespace : NoDup (sorted_keys by_namespace).
Proof.
  unfold sorted_keys. rewrite merge_sort_Permutation. apply NoDup_elements.
Qed.

Lemma elem_of_sorted_keys by_namespace ns :
  ns ∈ sorted_keys by_namespace ↔ ns ∈ dom by_namespace.
Proof.
  unfold sorted_keys. rewrite merge_sort_Permutation. apply elem_of_elements.
Qed.

Lemma sorted_keys_sorted by_namespace :
  Sorted String.le (sorted_keys by_namespace).
Proof. apply Sorted_merge_sort, _. Qed.

(** The sorted list of the keys is the same for every enumeration of
    the keys. *)
Lemma sorted_keys_unique by_namespace (keys : list string) :
  keys ≡ₚ elements (dom by_namespace) →
  merge_sort String.le keys = sorted_keys by_namespace.
Proof.
  intros Hp. apply (Sorted_unique String.le).
  - apply Sorted_merge_sort, _.
  - apply sorted_keys_sorted.
  - unfold sorted_keys. by rewrite !merge_sort_Permutation.
Qed.

Lemma count_not_in_namespaces o (namespaces : list string) :
  o_namespace o ∉ namespaces →
  sum_list ((λ n, length (filter (in_namespace n) [o])) <$> namespaces) = 0.
Proof.
  induction namespaces as [|n l IH]; [done|]. simpl.
  intros [Hne Hn]%not_elem_of_cons.
  rewrite filter_cons_False by done. simpl. by apply IH.
Qed.

(** One orphan is in exactly one of a duplicate-free list of namespaces
    that holds its own. *)
Lemma count_in_namespaces o (namespaces : list string) :
  NoDup namespaces → o_namespace o ∈ namespaces →
  sum_list ((λ n, length (filter (in_namespace n) [o])) <$> namespaces) = 1.
Proof.
  induction 1 as [|n namespaces Hn Hnd IH]; intros Hin.
  - by apply elem_of_nil in Hin.
  - simpl. destruct (decide (o_namespace o = n)) as [E|Hne].
    + rewrite filter_cons_True by done. simpl. f_equal.
      apply count_not_in_namespaces. by rewrite E.
    + rewrite filter_cons_False by done. simpl.
      apply IH. apply elem_of_cons in Hin as [?|?]; [congruence|done].
Qed.

Lemma sum_list_fmap_add {A} (f g : A → nat) (l : list A) :
  sum_list ((λ x, f x + g x) <$> l) = sum_list (f <$> l) + sum_list (g <$> l).
Proof. induction l as [|x l IH]; csimpl; lia. Qed.

(** The groups of a duplicate-free list of namespaces that covers the
    orphans hold, together, as many orphans as the list. *)
Lemma total_filter orphans (namespaces : list string) :
  NoDup namespaces →
  (∀ o, o ∈ orphans → o_namespace o ∈ namespaces) →
  sum_list ((λ n, length (filter (in_namespace n) orphans)) <$> namespaces)
  = length orphans.
Proof.
  intros Hnd. induction orphans as [|o orphans IH]; intros Hcov.
  - clear. induction namespaces as [|n l IH]; csimpl; auto.
  - transitivity
      (sum_list ((λ n, length (filter (in_namespace n) [o])) <$> namespaces)
       + sum_list ((λ n, length (filter (in_namespace n) orphans)) <$> namespaces)).
    + rewrite <- sum_list_fmap_add. f_equal. apply list_fmap_ext.
      intros _ n _. change (o :: orphans) with ([o] ++ orphans).
      by rewrite filter_app, length_app.
    + rewrite count_in_namespaces, IH; [done| |done|].
      * intros o' Ho'. apply Hcov. by right.
      * apply Hcov. by left.
Qed.

Lemma total_in_group orphans :
  total_in (group_by_namespace orphans)
           (sorted_keys (group_by_namespace orphans))
  = length orphans.
Proof.
  unfold total_in.
  rewrite <- (total_filter orphans (sorted_keys (group_by_namespace orphans))).
  - apply (f_equal sum_list), list_fmap_ext. intros _ n _.
    by rewrite group_by_namespace_lookup.
  - apply sorted_keys_NoDup.
  - intros o Ho. rewrite elem_of_sorted_keys, group_by_namespace_dom.
    apply elem_of_list_to_set, list_elem_of_fmap. eauto.
Qed.

Lemma group_subset orphans ns o :
  o ∈ group_by_namespace orphans !!! ns → o ∈ orphans.
Proof.
  rewrite group_by_namespace_lookup. by intros [_ ?]%list_elem_of_filter.
Qed.

Lemma py_index_app (done_ : list string) ns todo :
  ns ∉ done_ → py_index ns (done_ ++ ns :: todo) = length done_.
Proof.
  induction done_ as [|n l IH]; simpl; intros Hn.
  - by rewrite String.eqb_refl.
  - apply not_elem_of_cons in Hn as [Hne Hn].
    destruct (String.eqb_spec n ns); [congruence|]. by rewrite IH.
Qed.

(** On a duplicate-free list, the namespaces from [ns] on are [ns] and
    those that follow it. *)
Lemma remaining_total_app by_namespace (done_ : list string) ns todo :
  NoDup (done_ ++ ns :: todo) →
  remaining_total by_namespace (done_ ++ ns :: todo) ns
  = total_in by_namespace (ns :: todo).
Proof.
  intros Hnd. unfold remaining_total, total_in.
  rewrite py_index_app, drop_app_length; [done|].
  apply NoDup_app in Hnd as (_ & Hd & _). intros Hin.
  apply (Hd _ Hin). by left.
Qed.

End Grouping.

(* ===================================================================== *)
(** * Traces                                                              *)
(* ===================================================================== *)

Section Traces.

Implicit Types (tr Δ : list event).

Lemma kubectl_calls_app tr1 tr2 :
  kubectl_calls (tr1 ++ tr2) = kubectl_calls tr1 ++ kubectl_calls tr2.
Proof. apply omap_app. Qed.

Lemma count_kubectl_app ok tr1 tr2 :
  count_kubectl ok (tr1 ++ tr2) = count_kubectl ok tr1 + count_kubectl ok tr2.
Proof.
  unfold count_kubectl. by rewrite kubectl_calls_app, filter_app, length_app.
Qed.

Lemma lines_read_app tr1 tr2 :
  lines_read (tr1 ++ tr2) = lines_read tr1 ++ lines_read tr2.
Proof. apply omap_app. Qed.

Lemma declined_app tr1 tr2 :
  declined (tr1 ++ tr2) = declined tr1 + declined tr2.
Proof. unfold declined. by rewrite fmap_app, sum_list_with_app. Qed.

Lemma declined_singleton e : declined [e] = declined_by e.
Proof. unfold declined. simpl. lia. Qed.

Lemma no_quit_nil : no_quit [].
Proof. intros e He. by apply elem_of_nil in He. Qed.

Lemma no_quit_app tr1 tr2 : no_quit (tr1 ++ tr2) ↔ no_quit tr1 ∧ no_quit tr2.
Proof.
  unfold no_quit. setoid_rewrite elem_of_app. split.
  - intros H. split; intros e He; apply H; auto.
  - intros [H1 H2] e [He|He]; auto.
Qed.

Lemma no_quit_print m : no_quit [Stdout m].
Proof.
  intros e ->%list_elem_of_singleton (p & line & [=] & _).
Qed.

Lemma no_quit_kubectl args ok : no_quit [Kubectl args ok].
Proof.
  intros e ->%list_elem_of_singleton (p & line & [=] & _).
Qed.

Lemma no_quit_eof p : no_quit [Input p None].
Proof.
  intros e ->%list_elem_of_singleton (p' & line & [=] & _).
Qed.

Lemma no_quit_input p line :
  read_choice line ≠ "q" → no_quit [Input p (Some line)].
Proof.
  intros Hne e ->%list_elem_of_singleton (p' & line' & [= _ <-] & Hq). done.
Qed.

Lemma calls_within_nil os : calls_within os [].
Proof. intros args ok H. by apply elem_of_nil in H. Qed.

Lemma calls_within_app os tr1 tr2 :
  calls_within os tr1 → calls_within os tr2 → calls_within os (tr1 ++ tr2).
Proof.
  intros H1 H2 args ok [H|H]%elem_of_app; eauto.
Qed.

Lemma calls_within_print os m : calls_within os [Stdout m].
Proof. intros args ok [=]%list_elem_of_singleton. Qed.

Lemma calls_within_input os p line : calls_within os [Input p line].
Proof. intros args ok [=]%list_elem_of_singleton. Qed.

Lemma calls_within_kubectl os o ok :
  o ∈ os → calls_within os [Kubectl (delete_args (o_namespace o) (o_name o)) ok].
Proof. intros Ho args ok' [= -> ->]%list_elem_of_singleton. eauto. Qed.

(** An element with a property that no element before it and no element
    after it has, sits at one place only. *)
Lemma split_at_unique {A} (P : A → Prop) (l1 l2 r1 r2 : list A) x y :
  (∀ a, a ∈ l1 → ¬ P a) → (∀ a, a ∈ r1 → ¬ P a) → P x → P y →
  l1 ++ x :: r1 = l2 ++ y :: r2 →
  l1 = l2 ∧ x = y ∧ r1 = r2.
Proof.
  intros Hl Hr Hx Hy. revert l2.
  induction l1 as [|a l1 IH]; intros [|b l2]; simpl; intros [= E1 E2].
  - done.
  - subst. destruct (Hr y); [|done]. apply elem_of_app. right. by left.
  - subst. destruct (Hl y); [by left | done].
  - subst. destruct (IH (λ a Ha, Hl a (list_elem_of_further _ _ _ Ha)) l2 E2)
      as (-> & -> & ->). done.
Qed.

End Traces.

(* ===================================================================== *)
(** * Composing blocks                                                    *)
(* ===================================================================== *)

Section BlockAlgebra.

Context {World : Type}.

Implicit Types (σ : state World) (os : list orphan) (stdin : list string).
Implicit Types (r : control * list string * state World).

Lemma block_seq os n n1 n2 m m2 stdin stdin1 σ σ1 r :
  block_ok os n1 m stdin σ (Normal, stdin1, σ1) →
  block_ok os n2 m2 stdin1 σ1 r →
  n = n1 + n2 → m = n1 + m2 →
  block_ok os n m stdin σ r.
Proof.
  intros (Δ1 & Ht1 & Hc1 & Hl1 & Hq1 & Hd1 & Hk1 & Hs1)
    (Δ2 & Ht2 & Hc2 & Hl2 & H2)
    -> ->.
  simpl in *. exists (Δ1 ++ Δ2). repeat split.
  - by rewrite Ht2, Ht1, app_assoc.
  - by apply calls_within_app.
  - by rewrite lines_read_app, <- app_assoc, <- Hl2.
  - destruct (r.1.1).
    + destruct H2 as (Hq2 & Hd2 & Hk2 & Hs2). repeat split.
      * by apply no_quit_app.
      * rewrite count_kubectl_app. lia.
      * rewrite count_kubectl_app, declined_app. lia.
      * lia.
    + done.
    + destruct H2 as (Δ0 & k & ns & line & d & s & -> & Hq & Hn & Hd & Hs).
      exists (Δ1 ++ Δ0), k, ns, line, d, s. repeat split.
      * by rewrite app_assoc.
      * done.
      * by apply no_quit_app.
      * rewrite count_kubectl_app. lia.
      * lia.
    + destruct H2 as (Δ0 & name & ref & line & -> & Hq & Hn).
      exists (Δ1 ++ Δ0), name, ref, line. repeat split.
      * by rewrite app_assoc.
      * done.
      * by apply no_quit_app.
    + destruct H2 as [Hq2 ?]. split; [by apply no_quit_app | done].
Qed.

(** The count of a block that does not fall through is of no
    consequence. *)
Lemma block_stopped os n n' m stdin σ r :
  r.1.1 ≠ Normal → block_ok os n m stdin σ r → block_ok os n' m stdin σ r.
Proof.
  intros Hne (Δ & Ht & Hc & Hl & H). exists Δ. repeat split; [done..|].
  destruct (r.1.1); done.
Qed.

(** The total of a block that does not return at the namespace prompt is
    of no consequence. *)
Lemma block_total os n m m' stdin σ r :
  r.1.1 ≠ ReturnQuitNamespace →
  block_ok os n m stdin σ r → block_ok os n m' stdin σ r.
Proof.
  intros Hne (Δ & Ht & Hc & Hl & H). exists Δ. repeat split; [done..|].
  destruct (r.1.1); done.
Qed.

Lemma block_skip os m stdin σ : block_ok os 0 m stdin σ (Normal, stdin, σ).
Proof.
  exists []. simpl. rewrite app_nil_r. repeat split;
    auto using calls_within_nil, no_quit_nil.
  unfold count_kubectl, declined. simpl. lia.
Qed.

Lemma block_print os m stdin σ msg :
  declined_by (Stdout msg) = 0 →
  block_ok os 0 m stdin σ (Normal, stdin, log (Stdout msg) σ).
Proof.
  intros H0. exists [Stdout msg]. simpl. rewrite declined_singleton, H0.
  repeat split; auto using calls_within_print, no_quit_print.
  unfold count_kubectl. simpl. lia.
Qed.

Lemma block_input os m stdin σ p line :
  read_choice line ≠ "q" →
  declined_by (Input p (Some line)) = 0 →
  block_ok os 0 m (line :: stdin) σ (Normal, stdin, log (Input p (Some line)) σ).
Proof.
  intros Hne H0. exists [Input p (Some line)]. simpl.
  rewrite declined_singleton, H0.
  repeat split; auto using calls_within_input, no_quit_input.
  unfold count_kubectl. simpl. lia.
Qed.

(** Lines 272-273: one orphan declined at the individual prompt. *)
Lemma block_declined_one os m stdin σ name :
  block_ok os 1 m stdin σ
           (Normal, stdin, add_skipped 1 (log (Stdout (MsgSkipped name)) σ)).
Proof.
  exists [Stdout (MsgSkipped name)]. simpl.
  repeat split; auto using calls_within_print, no_quit_print.
  unfold count_kubectl, declined. simpl. lia.
Qed.

(** Lines 249-250: a namespace declined at the namespace prompt. *)
Lemma block_declined_namespace os m stdin σ k ns line :
  read_choice line = "n" →
  block_ok os k m (line :: stdin) σ
    (Normal, stdin,
     add_skipped k (log (Stdout (MsgSkippingNamespace ns))
                      (log (Input (PromptNamespace k ns) (Some line)) σ))).
Proof.
  intros Hn.
  exists [Input (PromptNamespace k ns) (Some line);
          Stdout (MsgSkippingNamespace ns)].
  simpl. rewrite <- app_assoc.
  repeat split;
    [| |unfold count_kubectl, declined; simpl; rewrite ?Hn; simpl; lia..].
  - apply (calls_within_app _ [_] [_]);
      auto using calls_within_input, calls_within_print.
  - apply (no_quit_app [_] [_]); split; [|apply no_quit_print].
    apply no_quit_input. by rewrite Hn.
Qed.

(** Sequence, for a second block that does not return at the namespace
    prompt. *)
Lemma block_seq_inner os n n1 n2 m m1 m2 stdin stdin1 σ σ1 r :
  block_ok os n1 m1 stdin σ (Normal, stdin1, σ1) →
  block_ok os n2 m2 stdin1 σ1 r →
  r.1.1 ≠ ReturnQuitNamespace →
  n = n1 + n2 →
  block_ok os n m stdin σ r.
Proof.
  intros H1 H2 Hr ->.
  apply (block_total os _ (n1 + m2)); [done|].
  eapply block_seq; [|exact H2|done..].
  by apply (block_total os _ m1).
Qed.

End BlockAlgebra.

(** Sequencing inside one namespace, and a step that prints a message. *)
Ltac then_inner os m := eapply (block_seq_inner os _ _ _ m m m).
Ltac printed os m msg := exact (block_print os m _ _ msg eq_refl).

(* ===================================================================== *)
(** * The blocks of the cleanup loop                                      *)
(* ===================================================================== *)

Section Blocks.

Context {World : Type}.
Variable run_kubectl : list string → World → bool * string * World.

Implicit Types (σ : state World) (os : list orphan) (stdin : list string).

Lemma block_delete_and_count os m stdin σ o :
  o ∈ os →
  block_ok os 1 m stdin σ (Normal, stdin, delete_and_count run_kubectl o σ).
Proof.
  intros Ho. unfold delete_and_count, delete_helmrelease.
  destruct (run_kubectl _ (world σ)) as [[[] output] w]; simpl.
  - exists [Kubectl (delete_args (o_namespace o) (o_name o)) true;
            Stdout (MsgDeleted (o_namespace o) (o_name o))].
    simpl. rewrite <- app_assoc.
    repeat split; [| |unfold count_kubectl, declined; simpl; lia..].
    + apply (calls_within_app _ [_] [_]);
        auto using calls_within_kubectl, calls_within_print.
    + apply (no_quit_app [_] [_]);
        auto using no_quit_kubectl, no_quit_print.
  - exists [Kubectl (delete_args (o_namespace o) (o_name o)) false;
            Stdout (MsgDeleteFailed (o_namespace o) (o_name o) output)].
    simpl. rewrite <- app_assoc.
    repeat split; [| |unfold count_kubectl, declined; simpl; lia..].
    + apply (calls_within_app _ [_] [_]);
        auto using calls_within_kubectl, calls_within_print.
    + apply (no_quit_app [_] [_]);
        auto using no_quit_kubectl, no_quit_print.
Qed.

Lemma block_delete_all os m ns_orphans : ∀ stdin σ,
  (∀ o, o ∈ ns_orphans → o ∈ os) →
  block_ok os (length ns_orphans) m stdin σ
           (Normal, stdin, delete_all run_kubectl ns_orphans σ).
Proof.
  unfold delete_all.
  induction ns_orphans as [|o l IH]; intros stdin σ Hin; simpl.
  - apply block_skip.
  - then_inner os m;
      [apply (block_delete_and_count os m stdin σ o) | apply IH |done..].
    + apply Hin. by left.
    + intros o' Ho'. apply Hin. by right.
Qed.

Lemma ask_individual_inner o : ∀ stdin σ,
  (ask_individual run_kubectl o stdin σ).1.1 ≠ ReturnQuitNamespace.
Proof.
  induction stdin as [|line stdin IH]; intros σ; simpl; [done|].
  repeat case_match; simpl; try done; apply IH.
Qed.

Lemma select_individual_inner ns_orphans : ∀ stdin σ,
  (select_individual run_kubectl ns_orphans stdin σ).1.1 ≠ ReturnQuitNamespace.
Proof.
  induction ns_orphans as [|o l IH]; intros stdin σ; simpl; [done|].
  pose proof (ask_individual_inner o stdin σ) as Ha.
  destruct (ask_individual run_kubectl o stdin σ) as [[[] stdin'] σ'];
    simpl in *; try done; apply IH.
Qed.

Lemma eqb_q_false line :
  String.eqb (read_choice line) "q" = false → read_choice line ≠ "q".
Proof. by intros ?%String.eqb_neq. Qed.

Lemma ask_individual_ok os m o : o ∈ os → ∀ stdin σ,
  block_ok os 1 m stdin σ (ask_individual run_kubectl o stdin σ).
Proof.
  intros Ho. induction stdin as [|line stdin IH]; intros σ; simpl.
  - exists [Input (PromptIndividual (o_name o) (ks_ref o)) None]. simpl.
    repeat split; auto using calls_within_input, no_quit_eof.
  - destruct (String.eqb (read_choice line) "q") eqn:Eq.
    { apply String.eqb_eq in Eq.
      exists [Input (PromptIndividual (o_name o) (ks_ref o)) (Some line);
              Stdout MsgAborted]. simpl.
      rewrite <- app_assoc. repeat split.
      - apply (calls_within_app _ [_] [_]);
          auto using calls_within_input, calls_within_print.
      - exists [], (o_name o), (ks_ref o), line.
        auto using no_quit_nil. }
    apply eqb_q_false in Eq.
    pose proof (block_input os m stdin σ
                  (PromptIndividual (o_name o) (ks_ref o)) line Eq eq_refl)
      as Hin.
    destruct (String.eqb (read_choice line) "y").
    { then_inner os m;
        [exact Hin | by apply (block_delete_and_count os m) | done..]. }
    destruct (String.eqb (read_choice line) "n").
    { then_inner os m;
        [exact Hin | apply block_declined_one | done..]. }
    then_inner os m;
      [exact Hin | | apply ask_individual_inner | done].
    then_inner os m;
      [printed os m MsgInvalidIndividual | apply IH
      | apply ask_individual_inner | done].
Qed.

Lemma select_individual_ok os m ns_orphans :
  (∀ o, o ∈ ns_orphans → o ∈ os) → ∀ stdin σ,
  block_ok os (length ns_orphans) m stdin σ
           (select_individual run_kubectl ns_orphans stdin σ).
Proof.
  induction ns_orphans as [|o l IH]; intros Hin stdin σ; simpl.
  - apply block_skip.
  - assert (o ∈ os) as Ho by (apply Hin; by left).
    pose proof (ask_individual_ok os m o Ho stdin σ) as Ha.
    destruct (ask_individual run_kubectl o stdin σ) as [[c stdin'] σ'].
    destruct c; try (by apply (block_stopped os 1)).
    then_inner os m;
      [exact Ha | apply IH | apply select_individual_inner | done].
    intros o' Ho'. apply Hin. by right.
Qed.

Lemma print_namespace_ok os m stdin ns ns_orphans σ :
  block_ok os 0 m stdin σ (Normal, stdin, print_namespace ns ns_orphans σ).
Proof.
  unfold print_namespace.
  assert (∀ l σ, block_ok os 0 m stdin σ
            (Normal, stdin,
             foldl (λ σ o, log (Stdout (MsgOrphanLine (o_name o) (ks_ref o))) σ)
                   σ l)) as Hfold.
  { induction l as [|o l IH]; intros σ0; simpl; [apply block_skip|].
    then_inner os m;
      [printed os m (MsgOrphanLine (o_name o) (ks_ref o)) | apply IH
      | done..]. }
  then_inner os m; [printed os m MsgNamespaceRule | | done..].
  then_inner os m; [printed os m (MsgNamespace ns) | | done..].
  then_inner os m;
    [printed os m (MsgNamespaceCount (length ns_orphans)) | apply Hfold
    | done..].
Qed.

Lemma ask_namespace_ok os by_namespace namespaces ns :
  (∀ o, o ∈ by_namespace !!! ns → o ∈ os) → ∀ stdin σ,
  block_ok os (length (by_namespace !!! ns))
           (remaining_total by_namespace namespaces ns) stdin σ
           (ask_namespace run_kubectl by_namespace namespaces ns stdin σ).
Proof.
  intros Hsub. set (m := remaining_total by_namespace namespaces ns).
  induction stdin as [|line stdin IH]; intros σ; simpl.
  - exists [Input (PromptNamespace (length (by_namespace !!! ns)) ns) None].
    simpl. repeat split; auto using calls_within_input, no_quit_eof.
  - destruct (String.eqb (read_choice line) "q") eqn:Eq.
    { apply String.eqb_eq in Eq.
      exists [Input (PromptNamespace (length (by_namespace !!! ns)) ns)
                (Some line);
              Stdout MsgAborted;
              Stdout (MsgSummary (deleted_count σ) (skipped_count σ + m))].
      simpl. rewrite <- !app_assoc. repeat split.
      - apply (calls_within_app _ [_] [_; _]); [apply calls_within_input|].
        apply (calls_within_app _ [_] [_]); apply calls_within_print.
      - exists [], (length (by_namespace !!! ns)), ns, line,
          (deleted_count σ), (skipped_count σ + m).
        repeat split; auto using no_quit_nil;
          unfold count_kubectl; simpl; lia. }
    apply eqb_q_false in Eq.
    set (p := PromptNamespace (length (by_namespace !!! ns)) ns).
    destruct (String.eqb (read_choice line) "y") eqn:Ey.
    { apply String.eqb_eq in Ey.
      then_inner os m;
        [apply (block_input os m stdin σ p line Eq) | | done..].
      - simpl. by rewrite Ey.
      - then_inner os m;
          [printed os m (MsgDeletingAll ns)
          | by apply (block_delete_all os m) | done..]. }
    destruct (String.eqb (read_choice line) "n") eqn:En.
    { apply String.eqb_eq in En. by apply block_declined_namespace. }
    assert (block_ok os 0 m (line :: stdin) σ
              (Normal, stdin, log (Input p (Some line)) σ)) as Hin.
    { apply block_input; [done|]. simpl. by rewrite En. }
    destruct (String.eqb (read_choice line) "s").
    { then_inner os m;
        [exact Hin | by apply (select_individual_ok os m)
        | apply select_individual_inner | done]. }
    eapply block_seq; [exact Hin | | done..].
    eapply block_seq; [printed os m MsgInvalidChoice | apply IH | done..].
Qed.

Lemma namespace_loop_ok os by_namespace namespaces :
  NoDup namespaces →
  (∀ ns o, o ∈ by_namespace !!! ns → o ∈ os) →
  ∀ todo done_, namespaces = done_ ++ todo → ∀ stdin σ,
  block_ok os (total_in by_namespace todo) (total_in by_namespace todo) stdin σ
           (namespace_loop run_kubectl by_namespace namespaces todo stdin σ).
Proof.
  intros Hnd Hsub.
  induction todo as [|ns todo IH]; intros done_ Hsplit stdin σ; simpl.
  - apply block_skip.
  - pose proof (ask_namespace_ok os by_namespace namespaces ns (Hsub ns) stdin
                  (print_namespace ns (by_namespace !!! ns) σ)) as Ha.
    rewrite Hsplit, remaining_total_app in Ha by (by rewrite <- Hsplit).
    rewrite <- Hsplit in Ha.
    destruct (ask_namespace _ _ _ _ _ _) as [[c stdin'] σ'].
    pose proof (print_namespace_ok os (total_in by_namespace (ns :: todo))
                  stdin ns (by_namespace !!! ns) σ) as Hp.
    destruct c;
      try (eapply block_seq; [exact Hp | | done..];
           by apply (block_stopped os (length (by_namespace !!! ns)))).
    eapply block_seq; [exact Hp | | done..].
    eapply block_seq; [ | apply (IH (done_ ++ [ns])) | done..].
    + apply (block_total os _ (total_in by_namespace (ns :: todo))); done.
    + by rewrite <- app_assoc.
Qed.

End Blocks.

(* ===================================================================== *)
(** * The cleanup as a whole                                              *)
(* ===================================================================== *)

Section Run.

Context {World : Type}.
Variable run_kubectl : list string → World → bool * string * World.

Implicit Types (σ : state World) (orphans : list orphan) (stdin : list string).

Lemma print_banner_ok os m stdin a b σ :
  block_ok os 0 m stdin σ (Normal, stdin, print_banner a b σ).
Proof.
  unfold print_banner.
  then_inner os m;
    [printed os m MsgRule | | done..].
  then_inner os m;
    [printed os m MsgCleanupTitle | | done..].
  then_inner os m;
    [printed os m MsgRule | | done..].
  then_inner os m;
    [printed os m (MsgFound a b) | | done..].
  then_inner os m;
    [printed os m MsgWillPrompt
    | printed os m MsgOptions | done..].
Qed.

Lemma print_complete_trace σ :
  trace (print_complete σ)
  = trace σ ++ final_report (deleted_count σ) (skipped_count σ).
Proof. unfold print_complete, final_report. simpl. by rewrite <- !app_assoc. Qed.

(** The loop of a run on a list that is not empty, and what the run adds
    to it. *)
Lemma cleanup_run_ok orphans stdin w :
  orphans ≠ [] →
  ∃ r0,
    block_ok orphans (length orphans) (length orphans) stdin (State 0 0 w []) r0
    ∧ cleanup_orphans_interactive run_kubectl orphans stdin w
      = match r0 with
        | (Normal, stdin', σ') => (Normal, stdin', print_complete σ')
        | stopped => stopped
        end.
Proof.
  intros Hne.
  set (by_namespace := group_by_namespace orphans).
  set (namespaces := sorted_keys by_namespace).
  exists (namespace_loop run_kubectl by_namespace namespaces namespaces stdin
            (print_banner (length orphans) (length namespaces) (State 0 0 w []))).
  split.
  2:{ subst by_namespace namespaces. destruct orphans; [done|]. simpl.
      by destruct (namespace_loop _ _ _ _ _ _) as [[[] ?] ?]. }
  eapply block_seq;
    [apply print_banner_ok
    | apply (namespace_loop_ok run_kubectl orphans by_namespace namespaces
               (sorted_keys_NoDup _) (group_subset orphans) namespaces []
               eq_refl)
    | symmetry; apply total_in_group..].
Qed.

Lemma no_quit_final_report d s : no_quit (final_report d s).
Proof.
  intros e He (p & line & -> & _).
  unfold final_report in He.
  repeat (apply elem_of_cons in He as [He|He]; [discriminate|]).
  by apply elem_of_nil in He.
Qed.

Lemma count_kubectl_length tr :
  count_kubectl true tr + count_kubectl false tr = length (kubectl_calls tr).
Proof.
  unfold count_kubectl.
  induction (kubectl_calls tr) as [|[args []] l IH]; [done|..].
  - rewrite filter_cons_True, filter_cons_False by done. simpl. lia.
  - rewrite filter_cons_False, filter_cons_True by done. simpl. lia.
Qed.

Lemma count_kubectl_final_report ok d s : count_kubectl ok (final_report d s) = 0.
Proof. done. Qed.

Lemma declined_final_report d s : declined (final_report d s) = 0.
Proof. done. Qed.

(** C5.  Whatever the list of orphans, the lines the operator types and
    the cluster, every [kubectl] call of the cleanup is the [delete] of
    the namespace and the name of an orphan of the list it was given. *)
Theorem deletions_within_orphans orphans stdin w args ok :
  Kubectl args ok
    ∈ events (cleanup_orphans_interactive run_kubectl orphans stdin w) →
  ∃ o, o ∈ orphans ∧ args = delete_args (o_namespace o) (o_name o).
Proof.
  destruct (decide (orphans = [])) as [->|Hne].
  { simpl. intros [=]%list_elem_of_singleton. }
  destruct (cleanup_run_ok orphans stdin w Hne)
    as (r0 & (Δ & Ht & Hc & _) & ->).
  intros Hin. apply (Hc args ok).
  destruct r0 as [[[] stdin'] σ']; unfold events in Hin;
    cbn [fst snd trace app] in Hin, Ht; rewrite ?print_complete_trace, Ht in Hin;
    try done.
  apply elem_of_app in Hin as [?|Hin]; [done|].
  unfold final_report in Hin.
  repeat (apply elem_of_cons in Hin as [Hin|Hin]; [discriminate|]).
  by apply elem_of_nil in Hin.
Qed.

(** A run on a list that is not empty reaches its end exactly when no
    line is read as [q] and the input does not run out. *)
Lemma completes_iff_no_quit orphans stdin w :
  let r := cleanup_orphans_interactive run_kubectl orphans stdin w in
  ending r = Normal ↔
  orphans ≠ [] ∧ no_quit (events r) ∧ ending r ≠ RaiseEOFError.
Proof.
  intros r. subst r.
  destruct (decide (orphans = [])) as [->|Hne].
  { split; [done | by intros [? _]]. }
  destruct (cleanup_run_ok orphans stdin w Hne)
    as (r0 & (Δ & Ht & _ & _ & H) & ->).
  destruct r0 as [[c stdin'] σ']. unfold events, ending.
  destruct c; cbn [fst snd trace app] in *.
  - destruct H as (Hq & _). rewrite print_complete_trace, Ht.
    split; [|done]. intros _. repeat split; [done| |done].
    apply no_quit_app. auto using no_quit_final_report.
  - done.
  - destruct H as (Δ0 & k & ns & line & d & s & -> & Hq & _).
    split; [done|]. intros (_ & Hn & _).
    destruct (Hn (Input (PromptNamespace k ns) (Some line))).
    + rewrite Ht. apply elem_of_app. right. by left.
    + by exists (PromptNamespace k ns), line.
  - destruct H as (Δ0 & name & ref & line & -> & Hq & _).
    split; [done|]. intros (_ & Hn & _).
    destruct (Hn (Input (PromptIndividual name ref) (Some line))).
    + rewrite Ht. apply elem_of_app. right. by left.
    + by exists (PromptIndividual name ref), line.
  - split; [done | by intros (_ & _ & ?)].
Qed.

(** C4, amended.  A line read as [q] at any prompt ends the whole run:
    no line was read as [q] before it, the lines after it are left
    unread, and nothing but the abort messages follows it.  At the
    individual prompt only the abort message follows.  At the namespace
    prompt the abort message and a summary follow; the summary reports
    the number of successful deletions so far and a skipped count that,
    with it, adds up to the number of orphans given to the cleanup: the
    orphans not yet visited, in this namespace and in those that remain,
    are counted as skipped. *)
Theorem quit_aborts orphans stdin w pre p line post :
  let r := cleanup_orphans_interactive run_kubectl orphans stdin w in
  events r = pre ++ Input p (Some line) :: post →
  read_choice line = "q" →
  no_quit pre
  ∧ stdin = lines_read pre ++ line :: r.1.2
  ∧ ((∃ name ref,
        p = PromptIndividual name ref
        ∧ ending r = ReturnQuitIndividual
        ∧ post = [Stdout MsgAborted])
     ∨ (∃ k ns s,
          p = PromptNamespace k ns
          ∧ ending r = ReturnQuitNamespace
          ∧ post = [Stdout MsgAborted;
                    Stdout (MsgSummary (count_kubectl true pre) s)]
          ∧ count_kubectl true pre + s = length orphans)).
Proof.
  intros r Hev Hq. subst r.
  assert (quit_event (Input p (Some line))) as Hqe by (by exists p, line).
  destruct (decide (orphans = [])) as [->|Hne].
  { destruct pre as [|? [|? ?]]; discriminate. }
  destruct (cleanup_run_ok orphans stdin w Hne)
    as (r0 & (Δ & Ht & _ & Hl & H) & E).
  rewrite E in *. clear E.
  destruct r0 as [[c stdin'] σ']. unfold events, ending in *.
  destruct c; cbn [fst snd trace deleted_count skipped_count app] in *.
  - (* the run reached its end: no [q] was read *)
    destruct H as (Hnq & _).
    rewrite print_complete_trace, Ht in Hev.
    assert (no_quit (Δ ++ final_report (deleted_count σ') (skipped_count σ')))
      as Hn by (apply no_quit_app; auto using no_quit_final_report).
    destruct (Hn (Input p (Some line))); [|done].
    rewrite Hev. apply elem_of_app. right. by left.
  - done.
  - (* [q] at the namespace prompt *)
    destruct H as (Δ0 & k & ns & line' & d & s & -> & Hq' & Hn0 & Hd & Hs).
    rewrite Ht in Hev.
    apply (split_at_unique quit_event) in Hev as (<- & [= <- <-] & <-);
      [| done | | by exists (PromptNamespace k ns), line' | done].
    + split; [done|]. split.
      { rewrite Hl, lines_read_app. simpl. by rewrite <- app_assoc. }
      right. exists k, ns, s. subst d. cbn in Hs. repeat split; done.
    + intros e He (p' & l' & -> & _).
      repeat (apply elem_of_cons in He as [He|He]; [discriminate|]).
      by apply elem_of_nil in He.
  - (* [q] at the individual prompt *)
    destruct H as (Δ0 & name & ref & line' & -> & Hq' & Hn0).
    rewrite Ht in Hev.
    apply (split_at_unique quit_event) in Hev as (<- & [= <- <-] & <-);
      [| done | | by exists (PromptIndividual name ref), line' | done].
    + split; [done|]. split.
      { rewrite Hl, lines_read_app. simpl. by rewrite <- app_assoc. }
      left. by exists name, ref.
    + intros e He (p' & l' & -> & _).
      repeat (apply elem_of_cons in He as [He|He]; [discriminate|]).
      by apply elem_of_nil in He.
  - (* the input ended: no [q] was read *)
    destruct H as (Hnq & _). rewrite Ht in Hev.
    destruct (Hnq (Input p (Some line))); [|done].
    rewrite Hev. apply elem_of_app. right. by left.
Qed.

End Run.

(* ===================================================================== *)
(** * Scenarios of the cleanup                                            *)
(* ===================================================================== *)

Section Scenarios.

Context {World : Type}.
Variable run_kubectl : list string → World → bool * string * World.

Lemma group_single_namespace ns (orphans : list orphan) :
  Forall (in_namespace ns) orphans →
  group_by_namespace orphans !!! ns = orphans.
Proof.
  intros Hall. rewrite group_by_namespace_lookup.
  induction Hall as [|o l Ho Hl IH]; [done|].
  rewrite filter_cons_True by done. by rewrite IH.
Qed.

Lemma sorted_keys_single_namespace ns o (orphans : list orphan) :
  Forall (in_namespace ns) (o :: orphans) →
  sorted_keys (group_by_namespace (o :: orphans)) = [ns].
Proof.
  intros Hall. unfold sorted_keys. rewrite group_by_namespace_dom.
  assert (list_to_set (o_namespace <$> o :: orphans) = ({[ ns ]} : gset string))
    as ->.
  { apply set_eq. intros x.
    rewrite elem_of_list_to_set, list_elem_of_fmap, elem_of_singleton. split.
    - intros (o' & -> & Ho'). by apply (proj1 (Forall_forall _ _) Hall).
    - intros ->. exists o. split; [|by left]. symmetry.
      by apply Forall_cons in Hall as [? _]. }
  by rewrite elements_singleton.
Qed.

Implicit Types (σ : state World) (stdin : list string).

(** The rounds of the two prompts, by the choice that is read. *)
Lemma ask_individual_yes o line stdin σ :
  read_choice line = "y" →
  ask_individual run_kubectl o (line :: stdin) σ
  = (Normal, stdin,
     delete_and_count run_kubectl o
       (log (Input (PromptIndividual (o_name o) (ks_ref o)) (Some line)) σ)).
Proof. intros E. simpl. by rewrite E. Qed.

Lemma ask_individual_no o line stdin σ :
  read_choice line = "n" →
  ask_individual run_kubectl o (line :: stdin) σ
  = (Normal, stdin,
     add_skipped 1
       (log (Stdout (MsgSkipped (o_name o)))
          (log (Input (PromptIndividual (o_name o) (ks_ref o)) (Some line)) σ))).
Proof. intros E. simpl. by rewrite E. Qed.

Lemma ask_namespace_select by_namespace namespaces ns line stdin σ :
  read_choice line = "s" →
  ask_namespace run_kubectl by_namespace namespaces ns (line :: stdin) σ
  = select_individual run_kubectl (by_namespace !!! ns) stdin
      (log (Input (PromptNamespace (length (by_namespace !!! ns)) ns)
              (Some line)) σ).
Proof. intros E. simpl. by rewrite E. Qed.

(** The effect of one delete on the state. *)
Lemma delete_and_count_eq o σ :
  ∃ (ok : bool) (output : string) w',
    delete_and_count run_kubectl o σ
    = State (deleted_count σ + (if ok then 1 else 0))
            (skipped_count σ + (if ok then 0 else 1)) w'
            (trace σ
             ++ [Kubectl (delete_args (o_namespace o) (o_name o)) ok;
                 Stdout (if ok then MsgDeleted (o_namespace o) (o_name o)
                        else MsgDeleteFailed (o_namespace o) (o_name o) output)]).
Proof.
  unfold delete_and_count, delete_helmrelease.
  destruct (run_kubectl _ (world σ)) as [[ok output] w'].
  exists ok, output, w'.
  destruct ok; unfold add_deleted, add_skipped, log; simpl;
    by rewrite <- app_assoc, ?Nat.add_0_r.
Qed.

(** C8.  One namespace with three orphans; the operator chooses the
    individual selection and answers yes, no, yes.  The run reaches its
    end and leaves the rest of the input unread; exactly two [kubectl]
    calls are made, the deletes of the first and of the third orphan;
    one orphan, the second, is declined, with one [Skipped] message; the
    final report counts the successful calls as deleted and the failed
    calls and the declined orphan as skipped, three in all. *)
Theorem select_yes_no_yes o1 o2 o3 ns l0 l1 l2 l3 rest w :
  in_namespace ns o1 → in_namespace ns o2 → in_namespace ns o3 →
  read_choice l0 = "s" → read_choice l1 = "y" →
  read_choice l2 = "n" → read_choice l3 = "y" →
  let r := cleanup_orphans_interactive run_kubectl [o1; o2; o3]
             (l0 :: l1 :: l2 :: l3 :: rest) w in
  ending r = Normal
  ∧ r.1.2 = rest
  ∧ (kubectl_calls (events r)).*1
    = [delete_args ns (o_name o1); delete_args ns (o_name o3)]
  ∧ skipped_names (events r) = [o_name o2]
  ∧ declined (events r) = 1
  ∧ ∃ pre d s,
      events r = pre ++ final_report d s
      ∧ d = count_kubectl true (events r)
      ∧ s = count_kubectl false (events r) + 1
      ∧ d + s = 3.
Proof.
  intros H1 H2 H3 E0 E1 E2 E3 r. subst r.
  assert (Forall (in_namespace ns) [o1; o2; o3]) as Hall
    by (repeat constructor; done).
  unfold cleanup_orphans_interactive.
  rewrite (sorted_keys_single_namespace ns o1 [o2; o3] Hall).
  cbn [namespace_loop].
  rewrite ask_namespace_select by done.
  rewrite (group_single_namespace ns [o1; o2; o3] Hall).
  cbn [select_individual].
  rewrite ask_individual_yes by done.
  rewrite ask_individual_no by done.
  rewrite ask_individual_yes by done.
  unfold in_namespace in *.
  match goal with |- context [delete_and_count run_kubectl o1 ?σ] =>
    destruct (delete_and_count_eq o1 σ) as (b1 & out1 & w1 & ->) end.
  match goal with |- context [delete_and_count run_kubectl o3 ?σ] =>
    destruct (delete_and_count_eq o3 σ) as (b3 & out3 & w3 & ->) end.
  rewrite H1, H3. unfold ending, events. cbn [fst snd].
  rewrite print_complete_trace.
  repeat split.
  - by destruct b1, b3.
  - unfold declined. destruct b1, b3; simpl; by rewrite E0.
  - eexists _, _, _. split; [reflexivity|].
    rewrite count_kubectl_app, count_kubectl_final_report.
    unfold count_kubectl. destruct b1, b3; simpl; repeat split; reflexivity.
Qed.

End Scenarios.

(* ===================================================================== *)
(** * Runs that report no count                                           *)
(* ===================================================================== *)

Section Reports.

Context {World : Type}.
Variable run_kubectl : list string → World → bool * string * World.

Implicit Types (σ : state World) (stdin : list string).

Lemma log_quiet e σ :
  is_count e = false →
  reports_counts (trace σ) = false →
  reports_counts (trace (log e σ)) = false.
Proof.
  intros He Hq. unfold reports_counts, log. simpl.
  rewrite existsb_app. fold (reports_counts (trace σ)). rewrite Hq. simpl.
  by rewrite He.
Qed.

Lemma delete_and_count_quiet o σ :
  reports_counts (trace σ) = false →
  reports_counts (trace (delete_and_count run_kubectl o σ)) = false.
Proof.
  intros Hq. unfold delete_and_count, delete_helmrelease.
  unfold reports_counts in *.
  destruct (run_kubectl _ (world σ)) as [[[] output] w']; simpl;
    by rewrite !existsb_app, Hq.
Qed.

Lemma delete_all_quiet ns_orphans : ∀ σ,
  reports_counts (trace σ) = false →
  reports_counts (trace (delete_all run_kubectl ns_orphans σ)) = false.
Proof.
  unfold delete_all. induction ns_orphans as [|o l IH]; intros σ Hq; [done|].
  simpl. by apply IH, delete_and_count_quiet.
Qed.

Lemma ask_individual_quiet o : ∀ stdin σ,
  reports_counts (trace σ) = false →
  reports_counts (trace (ask_individual run_kubectl o stdin σ).2) = false.
Proof.
  induction stdin as [|line stdin IH]; intros σ Hq; simpl.
  - by apply log_quiet.
  - set (σ1 := log (Input _ (Some line)) σ).
    assert (reports_counts (trace σ1) = false) as Hq1 by by apply log_quiet.
    destruct (String.eqb (read_choice line) "q"); [by apply log_quiet|].
    destruct (String.eqb (read_choice line) "y");
      [by apply delete_and_count_quiet|].
    destruct (String.eqb (read_choice line) "n");
      [by apply (log_quiet _ σ1)|].
    by apply IH, log_quiet.
Qed.

Lemma select_individual_quiet ns_orphans : ∀ stdin σ,
  reports_counts (trace σ) = false →
  reports_counts (trace (select_individual run_kubectl ns_orphans stdin σ).2)
  = false.
Proof.
  induction ns_orphans as [|o l IH]; intros stdin σ Hq; simpl; [done|].
  pose proof (ask_individual_quiet o stdin σ Hq) as Ha.
  destruct (ask_individual run_kubectl o stdin σ) as [[[] stdin'] σ'];
    simpl in *; try done.
  by apply IH.
Qed.

Lemma print_namespace_quiet ns ns_orphans σ :
  reports_counts (trace σ) = false →
  reports_counts (trace (print_namespace ns ns_orphans σ)) = false.
Proof.
  intros Hq. unfold print_namespace.
  assert (∀ l σ0, reports_counts (trace σ0) = false →
            reports_counts
              (trace (foldl (λ σ o,
                               log (Stdout (MsgOrphanLine (o_name o) (ks_ref o))) σ)
                            σ0 l)) = false) as Hfold.
  { induction l as [|o l IH]; intros σ0 H0; simpl; [done|].
    by apply IH, log_quiet. }
  by apply Hfold, log_quiet, log_quiet, log_quiet.
Qed.

Lemma ask_namespace_quiet by_namespace namespaces ns : ∀ stdin σ,
  reports_counts (trace σ) = false →
  (ask_namespace run_kubectl by_namespace namespaces ns stdin σ).1.1
  ≠ ReturnQuitNamespace →
  reports_counts
    (trace (ask_namespace run_kubectl by_namespace namespaces ns stdin σ).2)
  = false.
Proof.
  induction stdin as [|line stdin IH]; intros σ Hq; simpl.
  - intros _. by apply log_quiet.
  - set (σ1 := log (Input _ (Some line)) σ).
    assert (reports_counts (trace σ1) = false) as Hq1 by by apply log_quiet.
    destruct (String.eqb (read_choice line) "q"); [done|].
    destruct (String.eqb (read_choice line) "y");
      [intros _; by apply delete_all_quiet, log_quiet|].
    destruct (String.eqb (read_choice line) "n");
      [intros _; by apply (log_quiet _ σ1)|].
    destruct (String.eqb (read_choice line) "s");
      [intros _; by apply select_individual_quiet|].
    by apply IH, log_quiet.
Qed.

Lemma namespace_loop_quiet by_namespace namespaces todo : ∀ stdin σ,
  reports_counts (trace σ) = false →
  (namespace_loop run_kubectl by_namespace namespaces todo stdin σ).1.1
  ≠ ReturnQuitNamespace →
  reports_counts
    (trace (namespace_loop run_kubectl by_namespace namespaces todo stdin σ).2)
  = false.
Proof.
  induction todo as [|ns todo IH]; intros stdin σ Hq; simpl; [done|].
  pose proof (ask_namespace_quiet by_namespace namespaces ns stdin _
                (print_namespace_quiet ns (by_namespace !!! ns) σ Hq)) as Ha.
  destruct (ask_namespace _ _ _ _ _ _) as [[[] stdin'] σ']; simpl in *;
    try done; intros; try by apply Ha.
  apply IH; [by apply Ha | done].
Qed.

(** A run that returns at a [q] of the individual prompt (line 264), or
    that stops because the input ended, prints no summary and no final
    count. *)
Lemma stopped_run_quiet orphans stdin w :
  let r := cleanup_orphans_interactive run_kubectl orphans stdin w in
  ending r = ReturnQuitIndividual ∨ ending r = RaiseEOFError →
  reports_counts (events r) = false.
Proof.
  intros r Hend. subst r. unfold ending, events in *.
  destruct orphans as [|o orphans]; [by destruct Hend|].
  unfold cleanup_orphans_interactive in *.
  set (by_namespace := group_by_namespace (o :: orphans)) in *.
  set (namespaces := sorted_keys by_namespace) in *.
  set (σ := print_banner _ _ _) in *.
  assert (reports_counts (trace σ) = false) as Hq by done.
  pose proof (namespace_loop_quiet by_namespace namespaces namespaces stdin σ Hq)
    as Hl.
  destruct (namespace_loop _ _ _ _ _ _) as [[[] stdin'] σ']; simpl in *;
    try (by destruct Hend); by apply Hl.
Qed.

End Reports.

(* ===================================================================== *)
(** * The cleanup on concrete runs                                        *)
(* ===================================================================== *)

Lemma deletions_within_orphans_witness :
  ∃ o, o ∈ one_orphan
       ∧ delete_args "teamA" "web-release" = delete_args (o_namespace o) (o_name o).
Proof.
  apply (deletions_within_orphans scripted_kubectl one_orphan ["y"] [] _ true).
  apply list_elem_of_In. vm_compute. tauto.
Defined.

Lemma quit_aborts_witness :
  no_quit (take 10 (events quit_namespace_run))
  ∧ ["q"; "y"]
    = lines_read (take 10 (events quit_namespace_run))
      ++ "q" :: quit_namespace_run.1.2
  ∧ ((∃ name ref,
        PromptNamespace 1 "teamA" = PromptIndividual name ref
        ∧ ending quit_namespace_run = ReturnQuitIndividual
        ∧ drop 11 (events quit_namespace_run) = [Stdout MsgAborted])
     ∨ (∃ k ns s,
          PromptNamespace 1 "teamA" = PromptNamespace k ns
          ∧ ending quit_namespace_run = ReturnQuitNamespace
          ∧ drop 11 (events quit_namespace_run)
            = [Stdout MsgAborted;
               Stdout (MsgSummary
                        (count_kubectl true (take 10 (events quit_namespace_run)))
                        s)]
          ∧ count_kubectl true (take 10 (events quit_namespace_run)) + s
            = length one_orphan)).
Proof.
  apply (quit_aborts scripted_kubectl one_orphan ["q"; "y"] []
           (take 10 (events quit_namespace_run)) (PromptNamespace 1 "teamA") "q"
           (drop 11 (events quit_namespace_run))).
  - vm_compute. reflexivity.
  - reflexivity.
Defined.

Lemma select_yes_no_yes_witness :
  let r := cleanup_orphans_interactive scripted_kubectl
             [sample_orphan "teamA" "api"; sample_orphan "teamA" "db";
              sample_orphan "teamA" "web"]
             ["s"; "y"; "N"; " y "] [true; false] in
  ending r = Normal
  ∧ r.1.2 = []
  ∧ (kubectl_calls (events r)).*1
    = [delete_args "teamA" "api"; delete_args "teamA" "web"]
  ∧ skipped_names (events r) = ["db"]
  ∧ declined (events r) = 1
  ∧ ∃ pre d s,
      events r = pre ++ final_report d s
      ∧ d = count_kubectl true (events r)
      ∧ s = count_kubectl false (events r) + 1
      ∧ d + s = 3.
Proof.
  apply (select_yes_no_yes scripted_kubectl
           (sample_orphan "teamA" "api") (sample_orphan "teamA" "db")
           (sample_orphan "teamA" "web") "teamA" "s" "y" "N" " y " []
           [true; false]); reflexivity.
Defined.

(** C4, as stated, fails: after a [q] at the namespace prompt the summary
    counts the orphans that were not visited.  Here no orphan has an
    outcome when the operator quits, and the summary reports one
    skipped. *)
Lemma quit_counts_unvisited :
  ¬ (∀ orphans stdin (w : list bool) pre p line post d s,
       events (cleanup_orphans_interactive scripted_kubectl orphans stdin w)
       = pre ++ Input p (Some line) :: post →
       read_choice line = "q" →
       Stdout (MsgSummary d s) ∈ post →
       d + s = length (kubectl_calls pre) + declined pre).
Proof.
  intros H.
  assert (0 + 1 = length (kubectl_calls (take 10 (events quit_namespace_run)))
                  + declined (take 10 (events quit_namespace_run))) as E.
  { apply (H one_orphan ["q"; "y"] [] _ (PromptNamespace 1 "teamA") "q"
             (drop 11 (events quit_namespace_run))).
    - vm_compute. reflexivity.
    - reflexivity.
    - apply list_elem_of_In. vm_compute. tauto. }
  vm_compute in E. discriminate.
Qed.

(** C6.  The run of [quit_individual_run]: one orphan, the operator
    chooses the individual selection and then quits.  The run returns at
    line 264; its last message is the abort message and it reports no
    count, where the same [q] at the namespace prompt
    ([quit_namespace_run], line 236) is followed by a summary. *)
Theorem quit_individual_reports_nothing :
  ending quit_individual_run = ReturnQuitIndividual
  ∧ last (events quit_individual_run) = Some (Stdout MsgAborted)
  ∧ reports_counts (events quit_individual_run) = false
  ∧ ending quit_namespace_run = ReturnQuitNamespace
  ∧ last (events quit_namespace_run) = Some (Stdout (MsgSummary 0 1))
  ∧ reports_counts (events quit_namespace_run) = true.
Proof. repeat split; vm_compute; reflexivity. Qed.

(* ===================================================================== *)
(** * More on the inventory parser                                        *)
(* ===================================================================== *)

Section ParserRoundTrip.

Lemma contains_app_r needle a b :
  PyStr.contains needle b = true → PyStr.contains needle (a +:+ b) = true.
Proof.
  intros Hb. induction a as [|c a IH]; [done|].
  change (PyStr.contains needle (String c a +:+ b))
    with (if String.prefix needle (String c (a +:+ b)) then true
          else PyStr.contains needle (a +:+ b)).
  rewrite IH. by destruct (String.prefix _ _).
Qed.

Lemma split_app_sep sep a b :
  PyFmt.has_char sep a = false →
  PyStr.split sep (a +:+ String sep b) = a :: PyStr.split sep b.
Proof.
  induction a as [|c a IH]; simpl; intros Ha.
  - by rewrite Ascii.eqb_refl.
  - apply orb_false_iff in Ha as [Hc Ha]. rewrite Hc, IH; done.
Qed.

Lemma split_tokens_free sep s t :
  t ∈ PyStr.split sep s → PyFmt.has_char sep t = false.
Proof.
  revert t. induction s as [|c s IH]; simpl; intros t Ht.
  - by apply list_elem_of_singleton in Ht as ->.
  - destruct (Ascii.eqb c sep) eqn:Hc.
    + apply elem_of_cons in Ht as [->|Ht]; [done | by apply IH].
    + destruct (PyStr.split sep s) as [|tok toks].
      * apply list_elem_of_singleton in Ht as ->. simpl. by rewrite Hc.
      * apply elem_of_cons in Ht as [->|Ht].
        -- simpl. rewrite Hc. apply IH. by left.
        -- apply IH. by right.
Qed.

Lemma join_split sep s : PyFmt.join sep (PyStr.split sep s) = s.
Proof.
  induction s as [|c s IH]; [done|]. simpl.
  pose proof (split_length_pos sep s) as Hlen.
  destruct (Ascii.eqb_spec c sep) as [->|Hne].
  - destruct (PyStr.split sep s) as [|tok toks]; [simpl in Hlen; lia|].
    cbn [PyFmt.join]. cbn [PyFmt.join] in IH. by rewrite IH.
  - destruct (PyStr.split sep s) as [|tok toks]; [simpl in Hlen; lia|].
    destruct toks; simpl in *; by rewrite <- IH.
Qed.

(** An id that starts with [namespace_name_] and holds both markers
    after it is decoded to [(namespace, name)], when neither holds the
    delimiter. *)
Lemma parse_entry_id_prefix namespace name rest :
  PyFmt.has_char DELIMITER namespace = false →
  PyFmt.has_char DELIMITER name = false →
  PyStr.contains KIND_MARKER rest = true →
  PyStr.contains GROUP_MARKER rest = true →
  parse_entry_id (namespace +:+ String DELIMITER (name +:+ String DELIMITER rest))
  = Some (namespace, name).
Proof.
  intros Hns Hname Hk Hg. unfold parse_entry_id.
  assert (∀ needle,
            PyStr.contains needle rest = true →
            PyStr.contains needle
              (namespace +:+ String DELIMITER (name +:+ String DELIMITER rest))
            = true) as Hc.
  { intros needle H. apply contains_app_r.
    apply (contains_app_r needle (String DELIMITER EmptyString)), contains_app_r.
    by apply (contains_app_r needle (String DELIMITER EmptyString)). }
  rewrite !Hc by done. simpl andb. cbv iota.
  rewrite !split_app_sep by done. done.
Qed.

(** The two tokens of a decoded key hold no delimiter. *)
Lemma parse_entry_id_delimiter_free entry_id namespace name :
  parse_entry_id entry_id = Some (namespace, name) →
  PyFmt.has_char DELIMITER namespace = false
  ∧ PyFmt.has_char DELIMITER name = false.
Proof.
  intros Hp.
  destruct (parse_entry_id_markers entry_id (parse_entry_id_Some_inv _ _ Hp))
    as (ns & nm & rest & Hs & Hp').
  rewrite Hp in Hp'. injection Hp' as -> ->. split.
  - apply (split_tokens_free DELIMITER entry_id). rewrite Hs. by left.
  - apply (split_tokens_free DELIMITER entry_id). rewrite Hs. right. by left.
Qed.

(** The id of a HelmRelease, as the source documents it, in the shape of
    [parse_entry_id_prefix]. *)
Lemma parse_helmrelease_entry_id namespace name :
  PyFmt.has_char DELIMITER namespace = false →
  PyFmt.has_char DELIMITER name = false →
  parse_entry_id (helmrelease_entry_id namespace name) = Some (namespace, name).
Proof.
  intros Hns Hname.
  by apply (parse_entry_id_prefix namespace name
              "helm.toolkit.fluxcd.io_HelmRelease").
Qed.

(** X1.  Encoding then decoding: the entry id of the HelmRelease [name] of
    [namespace], written as the source documents it, is decoded to
    [(namespace, name)] when neither holds the delimiter; so is every id
    that goes on after the name with a text that holds both markers. *)
Theorem parse_entry_id_round_trip namespace name :
  PyFmt.has_char DELIMITER namespace = false →
  PyFmt.has_char DELIMITER name = false →
  parse_entry_id (helmrelease_entry_id namespace name) = Some (namespace, name)
  ∧ ∀ rest,
      has_markers rest →
      parse_entry_id (namespace +:+ "_" +:+ name +:+ "_" +:+ rest)
      = Some (namespace, name).
Proof.
  intros Hns Hname. split; [by apply parse_helmrelease_entry_id|].
  intros rest [Hk Hg]. by apply (parse_entry_id_prefix namespace name rest).
Qed.

Lemma parse_entry_id_round_trip_witness :
  parse_entry_id (helmrelease_entry_id "teamA" "web-release")
  = Some ("teamA", "web-release")
  ∧ ∀ rest,
      has_markers rest →
      parse_entry_id ("teamA" +:+ "_" +:+ "web-release" +:+ "_" +:+ rest)
      = Some ("teamA", "web-release").
Proof. apply parse_entry_id_round_trip; reflexivity. Defined.

(** X2.  What a decoded key is: the first two tokens of the id, neither of
    which holds the delimiter, and the id starts with
    [namespace_name].  A namespace or a name that holds the delimiter is
    therefore never decoded in full. *)
Theorem parse_entry_id_tokens entry_id namespace name :
  parse_entry_id entry_id = Some (namespace, name) →
  PyFmt.has_char DELIMITER namespace = false
  ∧ PyFmt.has_char DELIMITER name = false
  ∧ ∃ rest,
      PyStr.split DELIMITER entry_id = namespace :: name :: rest
      ∧ entry_id = PyFmt.join DELIMITER (namespace :: name :: rest).
Proof.
  intros Hp.
  destruct (parse_entry_id_delimiter_free _ _ _ Hp) as [Hns Hname].
  destruct (parse_entry_id_markers entry_id (parse_entry_id_Some_inv _ _ Hp))
    as (ns & nm & rest & Hs & Hp').
  rewrite Hp in Hp'. injection Hp' as -> ->.
  split_and!; [done..|].
  exists rest. split; [done|]. by rewrite <- Hs, join_split.
Qed.

Lemma parse_entry_id_tokens_witness :
  PyFmt.has_char DELIMITER "teamA" = false
  ∧ PyFmt.has_char DELIMITER "web-release" = false
  ∧ ∃ rest,
      PyStr.split DELIMITER scenario_a_id = "teamA" :: "web-release" :: rest
      ∧ scenario_a_id = PyFmt.join DELIMITER ("teamA" :: "web-release" :: rest).
Proof. apply (parse_entry_id_tokens scenario_a_id). reflexivity. Defined.

End ParserRoundTrip.

(* ===================================================================== *)
(** * More on the set of managed releases and on the detector             *)
(* ===================================================================== *)

Section ManagedMore.

Lemma decoded_from_app kss1 kss2 x :
  decoded_from (kss1 ++ kss2) x ↔ decoded_from kss1 x ∨ decoded_from kss2 x.
Proof.
  unfold decoded_from. split.
  - intros (ks & e & ns & name & [Hks|Hks]%elem_of_app & H);
      [left | right]; by exists ks, e, ns, name.
  - intros [(ks & e & ns & name & Hks & H)|(ks & e & ns & name & Hks & H)];
      exists ks, e, ns, name; (split; [|done]); apply elem_of_app; auto.
Qed.

(** X3.  The set of two lists of Kustomizations put together is the union of
    their sets, and a Kustomization without inventory entries (no status,
    no inventory, no entries, or an empty list) adds nothing. *)
Theorem managed_releases_app :
  (∀ kss1 kss2,
     get_managed_helmreleases_from_inventory (kss1 ++ kss2)
     = get_managed_helmreleases_from_inventory kss1
       ∪ get_managed_helmreleases_from_inventory kss2)
  ∧ (∀ kss1 ks kss2,
       ks_entries ks = [] →
       get_managed_helmreleases_from_inventory (kss1 ++ ks :: kss2)
       = get_managed_helmreleases_from_inventory (kss1 ++ kss2))
  ∧ (∀ md, ks_entries (Kustomization md None) = []
           ∧ ks_entries (Kustomization md (Some (KsStatus None))) = []
           ∧ ks_entries
               (Kustomization md (Some (KsStatus (Some (Inventory None))))) = []).
Proof.
  assert (∀ kss1 kss2,
            get_managed_helmreleases_from_inventory (kss1 ++ kss2)
            = get_managed_helmreleases_from_inventory kss1
              ∪ get_managed_helmreleases_from_inventory kss2) as Happ.
  { intros kss1 kss2. apply set_eq. intros x.
    rewrite elem_of_union, !elem_of_managed_releases. apply decoded_from_app. }
  split; [done|]. split; [|done].
  intros kss1 ks kss2 Hks. rewrite !Happ. f_equal.
  change (ks :: kss2) with ([ks] ++ kss2). rewrite Happ.
  assert (get_managed_helmreleases_from_inventory [ks] = ∅) as ->.
  { unfold get_managed_helmreleases_from_inventory, add_kustomization. simpl.
    by rewrite Hks. }
  by rewrite (left_id_L ∅ (∪)).
Qed.

Lemma managed_releases_app_witness :
  get_managed_helmreleases_from_inventory
    ([apps_kustomization] ++ Kustomization None None :: [])
  = get_managed_helmreleases_from_inventory ([apps_kustomization] ++ []).
Proof.
  apply (proj1 (proj2 managed_releases_app) [apps_kustomization]
           (Kustomization None None) []).
  reflexivity.
Defined.

Lemma size_add_entry (S : gset string) e : size (add_entry S e) ≤ 1 + size S.
Proof.
  unfold add_entry. destruct (parse_entry_id _) as [[ns name]|]; [|lia].
  rewrite size_union_alt, size_singleton.
  assert (S ∖ {[release_key ns name]} ⊆ S) as Hsub
    by (by intros x [? _]%elem_of_difference).
  apply subseteq_size in Hsub. lia.
Qed.

Lemma size_add_entries es : ∀ (S : gset string),
  size (foldl add_entry S es) ≤ length es + size S.
Proof.
  induction es as [|e es IH]; intros S; simpl; [lia|].
  etrans; [apply IH|]. pose proof (size_add_entry S e). lia.
Qed.

Lemma size_add_kustomizations kss : ∀ (S : gset string),
  size (foldl add_kustomization S kss) ≤ count_entries kss + size S.
Proof.
  unfold count_entries.
  induction kss as [|ks kss IH]; intros S; csimpl; [lia|].
  etrans; [apply IH|]. unfold add_kustomization.
  pose proof (size_add_entries (ks_entries ks) S). lia.
Qed.

(** X4.  The set holds at most as many keys as the inventories hold entries. *)
Theorem managed_releases_size kustomizations :
  size (get_managed_helmreleases_from_inventory kustomizations)
  ≤ count_entries kustomizations.
Proof.
  unfold get_managed_helmreleases_from_inventory.
  etrans; [apply size_add_kustomizations|]. rewrite size_empty. lia.
Qed.

End ManagedMore.

Section DetectorMore.

Implicit Types (hrs : list helmrelease) (M : gset string).

Lemma find_orphaned_omap hrs M :
  find_orphaned_helmreleases hrs M = omap (orphan_of M) hrs.
Proof.
  induction hrs as [|hr hrs IH]; [done|]. simpl.
  rewrite IH. by destruct (orphan_of M hr).
Qed.

(** X5.  The detector looks at each candidate on its own and keeps the order:
    the result on two lists put together is the two results put
    together, and the candidates of the records form a sublist of the
    candidates given. *)
Theorem find_orphaned_helmreleases_order :
  (∀ hrs1 hrs2 M,
     find_orphaned_helmreleases (hrs1 ++ hrs2) M
     = find_orphaned_helmreleases hrs1 M ++ find_orphaned_helmreleases hrs2 M)
  ∧ (∀ hrs M, o_raw <$> find_orphaned_helmreleases hrs M `sublist_of` hrs).
Proof.
  split.
  - intros hrs1 hrs2 M. by rewrite !find_orphaned_omap, omap_app.
  - intros hrs M. induction hrs as [|hr hrs IH]; [done|]. simpl.
    destruct (orphan_of M hr) as [o|] eqn:E.
    + apply orphan_of_Some in E as [Hr _]. csimpl. rewrite Hr.
      by apply sublist_skip.
    + by apply sublist_cons.
Qed.

Lemma orphan_of_subseteq M M' hr o :
  M ⊆ M' → orphan_of M' hr = Some o → orphan_of M hr = Some o.
Proof.
  intros Hsub. unfold orphan_of.
  destruct (PyStr.truthy _ && PyStr.truthy _); [|done].
  repeat case_bool_decide; try done. set_solver.
Qed.

(** X6.  A larger set of managed releases gives fewer orphans: the records
    found with the larger set are a sublist of those found with the
    smaller one. *)
Theorem find_orphaned_helmreleases_antitone hrs M M' :
  M ⊆ M' →
  find_orphaned_helmreleases hrs M' `sublist_of` find_orphaned_helmreleases hrs M.
Proof.
  intros Hsub. induction hrs as [|hr hrs IH]; [done|]. simpl.
  destruct (orphan_of M' hr) as [o|] eqn:E.
  - rewrite (orphan_of_subseteq M M' hr o Hsub E). by apply sublist_skip.
  - destruct (orphan_of M hr); [by apply sublist_cons | done].
Qed.

Lemma find_orphaned_helmreleases_antitone_witness :
  find_orphaned_helmreleases [labelled_release] {[ "teamA/web-release" ]}
  `sublist_of` find_orphaned_helmreleases [labelled_release] ∅.
Proof.
  apply find_orphaned_helmreleases_antitone. apply empty_subseteq.
Defined.

Lemma append_slash_inv a1 a2 b1 b2 :
  PyFmt.has_char "/" a1 = false → PyFmt.has_char "/" a2 = false →
  a1 +:+ String "/" b1 = a2 +:+ String "/" b2 → a1 = a2 ∧ b1 = b2.
Proof.
  revert a2. induction a1 as [|c a1 IH]; intros [|d a2]; simpl; intros H1 H2 E.
  - by injection E as ->.
  - injection E as <- _. by rewrite Ascii.eqb_refl in H2.
  - injection E as -> _. by rewrite Ascii.eqb_refl in H1.
  - injection E as -> E.
    apply orb_false_iff in H1 as [_ H1]. apply orb_false_iff in H2 as [_ H2].
    by destruct (IH a2 H1 H2 E) as [-> ->].
Qed.

(** X7.  The key [namespace/name] stands for the pair: two pairs whose
    namespaces hold no slash have the same key only when they are the
    same pair. *)
Theorem release_key_inj ns1 name1 ns2 name2 :
  PyFmt.has_char "/" ns1 = false → PyFmt.has_char "/" ns2 = false →
  release_key ns1 name1 = release_key ns2 name2 →
  ns1 = ns2 ∧ name1 = name2.
Proof. apply append_slash_inv. Qed.

Lemma release_key_inj_witness : "teamA" = "teamA" ∧ "web-release" = "web-release".
Proof.
  apply (release_key_inj "teamA" "web-release" "teamA" "web-release");
    reflexivity.
Defined.

(** X8.  A release whose entry is in the inventory of some Kustomization of
    the list is not reported, whatever its labels, when its namespace and
    its name hold no delimiter. *)
Theorem tracked_release_not_reported kustomizations hrs hr ks e :
  ks ∈ kustomizations → e ∈ ks_entries ks →
  entry_id e = Some (helmrelease_entry_id (hr_namespace hr) (hr_name hr)) →
  PyFmt.has_char DELIMITER (hr_namespace hr) = false →
  PyFmt.has_char DELIMITER (hr_name hr) = false →
  ¬ reported hrs (get_managed_helmreleases_from_inventory kustomizations) hr.
Proof.
  intros Hks He Hid Hns Hname [_ Ho]%reported_iff.
  apply orphan_of_is_Some in Ho as (_ & _ & Hnot). apply Hnot.
  apply elem_of_managed_releases.
  exists ks, e, (hr_namespace hr), (hr_name hr). repeat split; [done..|].
  rewrite Hid. simpl. by apply parse_helmrelease_entry_id.
Qed.

Lemma tracked_release_not_reported_witness :
  ¬ reported [labelled_release]
      (get_managed_helmreleases_from_inventory [apps_kustomization])
      labelled_release.
Proof.
  apply (tracked_release_not_reported [apps_kustomization] [labelled_release]
           labelled_release apps_kustomization
           (Entry (Some (helmrelease_entry_id "teamA" "web-release")) (Some "v2")));
    try reflexivity; apply list_elem_of_here.
Defined.

Lemma has_char_app c a b :
  PyFmt.has_char c (a +:+ b) = PyFmt.has_char c a || PyFmt.has_char c b.
Proof.
  induction a as [|d a IH]; [done|]. simpl. by rewrite IH, orb_assoc.
Qed.

Lemma has_char_release_key ns name :
  PyFmt.has_char DELIMITER (release_key ns name)
  = PyFmt.has_char DELIMITER ns || PyFmt.has_char DELIMITER name.
Proof. unfold release_key. by rewrite !has_char_app. Qed.

(** X9.  No key of the set holds the delimiter, so a candidate with both owner
    labels whose namespace or name holds the delimiter is reported
    whatever the inventories hold, also when one of them lists it. *)
Theorem delimiter_in_name_reported kustomizations hrs hr :
  hr ∈ hrs →
  carries_nonempty_label hr OWNER_NAME_LABEL →
  carries_nonempty_label hr OWNER_NAMESPACE_LABEL →
  PyFmt.has_char DELIMITER (hr_namespace hr) = true
  ∨ PyFmt.has_char DELIMITER (hr_name hr) = true →
  (∀ x, x ∈ get_managed_helmreleases_from_inventory kustomizations →
        PyFmt.has_char DELIMITER x = false)
  ∧ reported hrs (get_managed_helmreleases_from_inventory kustomizations) hr.
Proof.
  intros Hin H1 H2 Hdel.
  assert (∀ x, x ∈ get_managed_helmreleases_from_inventory kustomizations →
               PyFmt.has_char DELIMITER x = false) as Hfree.
  { intros x (ks & e & ns & name & _ & _ & Hp & ->)%elem_of_managed_releases.
    apply parse_entry_id_delimiter_free in Hp as [Hns Hname].
    by rewrite has_char_release_key, Hns, Hname. }
  split; [done|]. apply reported_iff. split; [done|].
  apply orphan_of_is_Some. repeat split; [done..|].
  intros Hk%Hfree. rewrite has_char_release_key in Hk.
  apply orb_false_iff in Hk as [? ?]. destruct Hdel; congruence.
Qed.

Lemma delimiter_in_name_reported_witness :
  let hr := HelmRelease (Some (ObjMetadata (Some "web_release") (Some "teamA")
              (Some (<[ OWNER_NAME_LABEL := "apps" ]>
                       (<[ OWNER_NAMESPACE_LABEL := "flux-system" ]> ∅))))) in
  let kss := [Kustomization None (Some (KsStatus (Some (Inventory (Some
                [Entry (Some (helmrelease_entry_id "teamA" "web_release"))
                       None])))))] in
  (∀ x, x ∈ get_managed_helmreleases_from_inventory kss →
        PyFmt.has_char DELIMITER x = false)
  ∧ reported [hr] (get_managed_helmreleases_from_inventory kss) hr.
Proof.
  intros hr kss. apply (delimiter_in_name_reported kss [hr] hr).
  - apply list_elem_of_here.
  - exists "apps". split; [reflexivity | discriminate].
  - exists "flux-system". split; [reflexivity | discriminate].
  - right. reflexivity.
Defined.

End DetectorMore.

(* ===================================================================== *)
(** * More on the cleanup: what is deleted, and when                      *)
(* ===================================================================== *)

Section Deletions.

Context {World : Type}.
Variable run_kubectl : list string → World → bool * string * World.

Implicit Types (σ : state World) (stdin : list string) (tr : list event).

Lemma delete_and_count_trace o σ :
  ∃ ok msg,
    trace (delete_and_count run_kubectl o σ)
    = trace σ ++ [Kubectl (delete_call o) ok; Stdout msg].
Proof.
  destruct (delete_and_count_eq run_kubectl o σ) as (ok & output & w' & ->).
  by eexists _, _.
Qed.

Lemma delete_all_trace ns_orphans : ∀ σ,
  ∃ Δ,
    trace (delete_all run_kubectl ns_orphans σ) = trace σ ++ Δ
    ∧ call_args Δ = delete_call <$> ns_orphans
    ∧ lines_read Δ = [].
Proof.
  unfold delete_all.
  induction ns_orphans as [|o l IH]; intros σ; simpl.
  - exists []. by rewrite app_nil_r.
  - destruct (delete_and_count_trace o σ) as (ok & msg & E).
    destruct (IH (delete_and_count run_kubectl o σ)) as (Δ & -> & Hc & Hl).
    exists ([Kubectl (delete_call o) ok; Stdout msg] ++ Δ).
    rewrite E, <- app_assoc. split; [done|]. unfold call_args in *.
    rewrite kubectl_calls_app, lines_read_app, fmap_app, Hc, Hl. done.
Qed.

(** ** No deletion without a [y] *)

Lemma yes_read_app tr Δ : yes_read tr → yes_read (tr ++ Δ).
Proof.
  intros (line & Hin & Hy). exists line. split; [|done].
  rewrite lines_read_app. apply elem_of_app. by left.
Qed.

Lemma yes_read_input tr p line :
  read_choice line = "y" → yes_read (tr ++ [Input p (Some line)]).
Proof.
  intros Hy. exists line. split; [|done].
  rewrite lines_read_app. apply elem_of_app. right. by left.
Qed.

Lemma quiet_step tr e :
  (∀ args ok, e ≠ Kubectl args ok) →
  kubectl_calls tr = [] ∨ yes_read tr →
  kubectl_calls (tr ++ [e]) = [] ∨ yes_read (tr ++ [e]).
Proof.
  intros He [Hc|Hy]; [left | right; by apply yes_read_app].
  rewrite kubectl_calls_app, Hc. destruct e; try done. by destruct (He args success).
Qed.

Lemma ask_individual_needs_yes o : ∀ stdin σ,
  kubectl_calls (trace σ) = [] ∨ yes_read (trace σ) →
  let r := ask_individual run_kubectl o stdin σ in
  kubectl_calls (trace r.2) = [] ∨ yes_read (trace r.2).
Proof.
  induction stdin as [|line stdin IH]; intros σ Hσ; simpl.
  - by apply quiet_step.
  - destruct (String.eqb (read_choice line) "q").
    { simpl. by repeat apply quiet_step. }
    destruct (String.eqb (read_choice line) "y") eqn:Ey.
    { simpl. right. apply String.eqb_eq in Ey.
      destruct (delete_and_count_trace o
                  (log (Input (PromptIndividual (o_name o) (ks_ref o))
                          (Some line)) σ)) as (ok & msg & ->).
      by apply yes_read_app, yes_read_input. }
    destruct (String.eqb (read_choice line) "n").
    { simpl. by repeat apply quiet_step. }
    apply IH. simpl. by repeat apply quiet_step.
Qed.

Lemma select_individual_needs_yes ns_orphans : ∀ stdin σ,
  kubectl_calls (trace σ) = [] ∨ yes_read (trace σ) →
  let r := select_individual run_kubectl ns_orphans stdin σ in
  kubectl_calls (trace r.2) = [] ∨ yes_read (trace r.2).
Proof.
  induction ns_orphans as [|o l IH]; intros stdin σ Hσ; simpl; [done|].
  pose proof (ask_individual_needs_yes o stdin σ Hσ) as Ha.
  destruct (ask_individual run_kubectl o stdin σ) as [[[] stdin'] σ'];
    simpl in *; try done.
  by apply IH.
Qed.

Lemma print_namespace_needs_yes ns ns_orphans σ :
  kubectl_calls (trace σ) = [] ∨ yes_read (trace σ) →
  kubectl_calls (trace (print_namespace ns ns_orphans σ)) = []
  ∨ yes_read (trace (print_namespace ns ns_orphans σ)).
Proof.
  intros Hσ. unfold print_namespace.
  assert (∀ l σ0,
            kubectl_calls (trace σ0) = [] ∨ yes_read (trace σ0) →
            let σ1 := foldl (λ σ o, log (Stdout (MsgOrphanLine (o_name o) (ks_ref o))) σ)
                            σ0 l in
            kubectl_calls (trace σ1) = [] ∨ yes_read (trace σ1)) as Hfold.
  { induction l as [|o l IH]; intros σ0 H0; simpl; [done|].
    apply IH. simpl. by apply quiet_step. }
  apply Hfold. simpl. by repeat apply quiet_step.
Qed.

Lemma ask_namespace_needs_yes by_namespace namespaces ns : ∀ stdin σ,
  kubectl_calls (trace σ) = [] ∨ yes_read (trace σ) →
  let r := ask_namespace run_kubectl by_namespace namespaces ns stdin σ in
  kubectl_calls (trace r.2) = [] ∨ yes_read (trace r.2).
Proof.
  induction stdin as [|line stdin IH]; intros σ Hσ; simpl.
  - by apply quiet_step.
  - destruct (String.eqb (read_choice line) "q").
    { simpl. by repeat apply quiet_step. }
    destruct (String.eqb (read_choice line) "y") eqn:Ey.
    { simpl. right. apply String.eqb_eq in Ey.
      destruct (delete_all_trace (by_namespace !!! ns)
                  (log (Stdout (MsgDeletingAll ns))
                     (log (Input (PromptNamespace (length (by_namespace !!! ns)) ns)
                             (Some line)) σ))) as (Δ & -> & _).
      simpl. by apply yes_read_app, yes_read_app, yes_read_input. }
    destruct (String.eqb (read_choice line) "n").
    { simpl. by repeat apply quiet_step. }
    destruct (String.eqb (read_choice line) "s").
    { apply select_individual_needs_yes. simpl. by apply quiet_step. }
    apply IH. simpl. by repeat apply quiet_step.
Qed.

Lemma namespace_loop_needs_yes by_namespace namespaces todo : ∀ stdin σ,
  kubectl_calls (trace σ) = [] ∨ yes_read (trace σ) →
  let r := namespace_loop run_kubectl by_namespace namespaces todo stdin σ in
  kubectl_calls (trace r.2) = [] ∨ yes_read (trace r.2).
Proof.
  induction todo as [|ns todo IH]; intros stdin σ Hσ; simpl; [done|].
  pose proof (ask_namespace_needs_yes by_namespace namespaces ns stdin _
                (print_namespace_needs_yes ns (by_namespace !!! ns) σ Hσ)) as Ha.
  destruct (ask_namespace _ _ _ _ _ _) as [[[] stdin'] σ']; simpl in *;
    try done.
  by apply IH.
Qed.

(** X10.  The cleanup deletes nothing unless the operator answers [y]:
    in a run whose lines are ASCII and where no line is read as [y], at
    the namespace prompt or at the individual prompt, [kubectl] is never
    called. *)
Theorem no_deletion_without_yes orphans stdin w :
  let r := cleanup_orphans_interactive run_kubectl orphans stdin w in
  (∀ line, line ∈ lines_read (events r) →
           is_ascii line = true ∧ read_choice line ≠ "y") →
  kubectl_calls (events r) = [].
Proof.
  intros r Hno.
  assert (kubectl_calls (events r) = [] ∨ yes_read (events r)) as [?|Hy]; [|done|].
  - subst r. unfold events. destruct orphans as [|o orphans]; [by left|].
    unfold cleanup_orphans_interactive.
    set (by_namespace := group_by_namespace (o :: orphans)).
    set (namespaces := sorted_keys by_namespace).
    set (σ := print_banner _ _ _).
    assert (kubectl_calls (trace σ) = [] ∨ yes_read (trace σ)) as Hσ by by left.
    pose proof (namespace_loop_needs_yes by_namespace namespaces namespaces
                  stdin σ Hσ) as Hl.
    destruct (namespace_loop _ _ _ _ _ _) as [[[] stdin'] σ'];
      cbn [fst snd] in *; try done.
    rewrite print_complete_trace. destruct Hl as [Hc|Hy].
    + left. by rewrite kubectl_calls_app, Hc.
    + right. by apply yes_read_app.
  - destruct Hy as (line & Hin & Hy). by destruct (Hno line Hin) as [_ []].
Qed.

End Deletions.

Lemma no_deletion_without_yes_witness :
  kubectl_calls
    (events (cleanup_orphans_interactive scripted_kubectl
               [sample_orphan "teamA" "api"; sample_orphan "teamB" "db"]
               ["n"; "s"; "maybe"; "N"] [])) = [].
Proof.
  apply (no_deletion_without_yes scripted_kubectl).
  intros line Hin.
  assert (lines_read
            (events (cleanup_orphans_interactive scripted_kubectl
                       [sample_orphan "teamA" "api"; sample_orphan "teamB" "db"]
                       ["n"; "s"; "maybe"; "N"] []))
          = ["n"; "s"; "maybe"; "N"]) as Hread by (vm_compute; reflexivity).
  rewrite Hread in Hin. apply list_elem_of_In in Hin.
  destruct Hin as [<-|[<-|[<-|[<-|[]]]]];
    (split; [reflexivity | vm_compute; discriminate]).
Defined.

(* ===================================================================== *)
(** * More on the cleanup: the order of the walk                          *)
(* ===================================================================== *)

Section WalkOrder.

Implicit Types (orphans : list orphan).

Lemma bind_filter_not_in o (namespaces : list string) orphans :
  o_namespace o ∉ namespaces →
  namespaces ≫= (λ n, filter (in_namespace n) (o :: orphans))
  = namespaces ≫= (λ n, filter (in_namespace n) orphans).
Proof.
  induction namespaces as [|n l IH]; [done|].
  intros [Hne Hl]%not_elem_of_cons. csimpl.
  rewrite filter_cons_False by done. by rewrite IH.
Qed.

Lemma bind_filter_cons o (namespaces : list string) orphans :
  NoDup namespaces → o_namespace o ∈ namespaces →
  namespaces ≫= (λ n, filter (in_namespace n) (o :: orphans))
  ≡ₚ o :: (namespaces ≫= (λ n, filter (in_namespace n) orphans)).
Proof.
  induction 1 as [|n l Hn Hnd IH]; intros Hin.
  - by apply elem_of_nil in Hin.
  - csimpl. destruct (decide (o_namespace o = n)) as [E|Hne].
    + rewrite filter_cons_True by done.
      rewrite bind_filter_not_in by (by rewrite E). done.
    + rewrite filter_cons_False by done.
      apply elem_of_cons in Hin as [?|Hin]; [congruence|].
      rewrite (IH Hin). by rewrite Permutation_middle.
Qed.

(** The walk visits every orphan of the list once. *)
Lemma walk_order_Permutation orphans : walk_order orphans ≡ₚ orphans.
Proof.
  unfold walk_order.
  set (namespaces := sorted_keys (group_by_namespace orphans)).
  assert (NoDup namespaces) as Hnd by apply sorted_keys_NoDup.
  assert (∀ o, o ∈ orphans → o_namespace o ∈ namespaces) as Hcov.
  { intros o Ho. apply elem_of_sorted_keys. rewrite group_by_namespace_dom.
    apply elem_of_list_to_set, list_elem_of_fmap. eauto. }
  assert (namespaces ≫= (λ ns, group_by_namespace orphans !!! ns)
          = namespaces ≫= (λ n, filter (in_namespace n) orphans)) as ->.
  { apply list_bind_ext; [|done]. intros n. apply group_by_namespace_lookup. }
  clearbody namespaces. induction orphans as [|o orphans IH].
  - clear. induction namespaces as [|n l IH]; [done|]. csimpl. by rewrite IH.
  - rewrite bind_filter_cons; [|done|apply Hcov; by left].
    f_equiv. apply IH. intros o' Ho'. apply Hcov. by right.
Qed.

End WalkOrder.

Section Calls.

Context {World : Type}.
Variable run_kubectl : list string → World → bool * string * World.

Implicit Types (σ : state World) (stdin : list string) (tr : list event).
Implicit Types (L : list (list string)).

Lemma call_args_app tr1 tr2 : call_args (tr1 ++ tr2) = call_args tr1 ++ call_args tr2.
Proof. unfold call_args. by rewrite kubectl_calls_app, fmap_app. Qed.

Lemma call_args_log e σ :
  (∀ args ok, e ≠ Kubectl args ok) →
  call_args (trace (log e σ)) = call_args (trace σ).
Proof.
  intros He. simpl. rewrite call_args_app.
  destruct e; try by rewrite app_nil_r. by destruct (He args success).
Qed.

Lemma call_args_delete_and_count o σ :
  call_args (trace (delete_and_count run_kubectl o σ))
  = call_args (trace σ) ++ [delete_call o].
Proof.
  destruct (delete_and_count_trace run_kubectl o σ) as (ok & msg & ->).
  by rewrite call_args_app.
Qed.

Lemma call_args_delete_all ns_orphans σ :
  call_args (trace (delete_all run_kubectl ns_orphans σ))
  = call_args (trace σ) ++ (delete_call <$> ns_orphans).
Proof.
  destruct (delete_all_trace run_kubectl ns_orphans σ) as (Δ & -> & Hc & _).
  by rewrite call_args_app, Hc.
Qed.

Ltac quiet_calls :=
  cbn [fst snd trace log add_skipped]; rewrite ?call_args_app;
  cbn [call_args kubectl_calls omap list_omap fmap list_fmap fst]; rewrite ?app_nil_r.

Lemma ask_individual_calls o L : ∀ stdin σ,
  call_args (trace σ) `sublist_of` L →
  call_args (trace (ask_individual run_kubectl o stdin σ).2)
  `sublist_of` L ++ [delete_call o].
Proof.
  induction stdin as [|line stdin IH]; intros σ Hσ; simpl.
  - quiet_calls. by apply sublist_inserts_r.
  - destruct (String.eqb (read_choice line) "q").
    { simpl. quiet_calls. by apply sublist_inserts_r. }
    destruct (String.eqb (read_choice line) "y").
    { simpl. rewrite call_args_delete_and_count. quiet_calls.
      by apply sublist_app. }
    destruct (String.eqb (read_choice line) "n").
    { cbn [snd]. change (trace (add_skipped 1 ?s)) with (trace s).
      quiet_calls. by apply sublist_inserts_r. }
    apply IH. by quiet_calls.
Qed.

Lemma select_individual_calls ns_orphans : ∀ L stdin σ,
  call_args (trace σ) `sublist_of` L →
  call_args (trace (select_individual run_kubectl ns_orphans stdin σ).2)
  `sublist_of` L ++ (delete_call <$> ns_orphans).
Proof.
  induction ns_orphans as [|o l IH]; intros L stdin σ Hσ; simpl.
  - by rewrite app_nil_r.
  - pose proof (ask_individual_calls o L stdin σ Hσ) as Ha.
    destruct (ask_individual run_kubectl o stdin σ) as [[c stdin'] σ'].
    rewrite cons_middle, (assoc_L (++) L [delete_call o]).
    destruct c; simpl in *; try by apply sublist_inserts_r.
    by apply IH.
Qed.

Lemma call_args_print_namespace ns ns_orphans σ :
  call_args (trace (print_namespace ns ns_orphans σ)) = call_args (trace σ).
Proof.
  unfold print_namespace.
  assert (∀ l σ0,
            call_args (trace (foldl (λ σ o,
                         log (Stdout (MsgOrphanLine (o_name o) (ks_ref o))) σ)
                       σ0 l)) = call_args (trace σ0)) as Hfold.
  { induction l as [|o l IH]; intros σ0; simpl; [done|].
    rewrite IH. by apply call_args_log. }
  rewrite Hfold. by rewrite !call_args_log.
Qed.

Lemma ask_namespace_calls by_namespace namespaces ns L : ∀ stdin σ,
  call_args (trace σ) `sublist_of` L →
  call_args (trace (ask_namespace run_kubectl by_namespace namespaces ns stdin σ).2)
  `sublist_of` L ++ (delete_call <$> by_namespace !!! ns).
Proof.
  induction stdin as [|line stdin IH]; intros σ Hσ; simpl.
  - quiet_calls. by apply sublist_inserts_r.
  - destruct (String.eqb (read_choice line) "q").
    { quiet_calls.
      by apply sublist_inserts_r. }
    destruct (String.eqb (read_choice line) "y").
    { cbn [snd]. rewrite call_args_delete_all. quiet_calls.
      by apply sublist_app. }
    destruct (String.eqb (read_choice line) "n").
    { cbn [snd]. change (trace (add_skipped ?k ?s)) with (trace s).
      quiet_calls. by apply sublist_inserts_r. }
    destruct (String.eqb (read_choice line) "s").
    { apply select_individual_calls. by quiet_calls. }
    apply IH. by quiet_calls.
Qed.

Lemma namespace_loop_calls by_namespace namespaces todo : ∀ L stdin σ,
  call_args (trace σ) `sublist_of` L →
  call_args (trace (namespace_loop run_kubectl by_namespace namespaces todo stdin σ).2)
  `sublist_of` L ++ (delete_call <$> (todo ≫= (λ ns, by_namespace !!! ns))).
Proof.
  induction todo as [|ns todo IH]; intros L stdin σ Hσ; simpl.
  - by rewrite app_nil_r.
  - rewrite <- call_args_print_namespace with (ns := ns)
      (ns_orphans := by_namespace !!! ns) in Hσ.
    pose proof (ask_namespace_calls by_namespace namespaces ns L stdin _ Hσ) as Ha.
    destruct (ask_namespace _ _ _ _ _ _) as [[c stdin'] σ'].
    rewrite fmap_app, (assoc_L (++)).
    destruct c; simpl in *; try by apply sublist_inserts_r.
    by apply IH.
Qed.

Lemma cleanup_calls_sublist orphans stdin w :
  call_args (events (cleanup_orphans_interactive run_kubectl orphans stdin w))
  `sublist_of` delete_call <$> walk_order orphans.
Proof.
  unfold events. destruct orphans as [|o orphans].
  { simpl. apply sublist_nil_l. }
  unfold cleanup_orphans_interactive, walk_order.
  set (by_namespace := group_by_namespace (o :: orphans)).
  set (namespaces := sorted_keys by_namespace).
  set (σ := print_banner _ _ _).
  assert (call_args (trace σ) `sublist_of` []) as Hσ by done.
  pose proof (namespace_loop_calls by_namespace namespaces namespaces []
                stdin σ Hσ) as Hl.
  destruct (namespace_loop _ _ _ _ _ _) as [[[] stdin'] σ'];
    cbn [fst snd app] in *; try done.
  rewrite print_complete_trace, call_args_app.
  change (call_args (final_report _ _)) with (@nil (list string)).
  by rewrite app_nil_r.
Qed.

(** X11.  No orphan is deleted twice and none is retried: the [kubectl] calls
    of a run are [delete] calls of orphans of the list, in the order of
    the walk, with no orphan called more often than it is in the list. *)
Theorem at_most_one_delete orphans stdin w :
  let r := cleanup_orphans_interactive run_kubectl orphans stdin w in
  call_args (events r) `sublist_of` delete_call <$> walk_order orphans
  ∧ walk_order orphans ≡ₚ orphans
  ∧ call_args (events r) ⊆+ delete_call <$> orphans.
Proof.
  intros r. pose proof (cleanup_calls_sublist orphans stdin w) as Hsub.
  split; [done|]. split; [apply walk_order_Permutation|].
  transitivity (delete_call <$> walk_order orphans).
  - by apply sublist_submseteq.
  - apply Permutation_submseteq. by rewrite walk_order_Permutation.
Qed.

End Calls.

(* ===================================================================== *)
(** * More on the cleanup: the answers of the cluster and of the operator *)
(* ===================================================================== *)

Section Outcomes.

(** Two clusters, which may answer differently to every call. *)
Context {World1 World2 : Type}.
Variable run_kubectl1 : list string → World1 → bool * string * World1.
Variable run_kubectl2 : list string → World2 → bool * string * World2.

Implicit Types (stdin : list string).

Lemma inputs_app tr1 tr2 : inputs (tr1 ++ tr2) = inputs tr1 ++ inputs tr2.
Proof. apply omap_app. Qed.

Lemma same_log e (σ1 : state World1) (σ2 : state World2) :
  same_flow σ1 σ2 → same_flow (log e σ1) (log e σ2).
Proof.
  intros [Hi Hc]. split; simpl.
  - by rewrite !inputs_app, Hi.
  - by rewrite !call_args_app, Hc.
Qed.

Lemma same_log_stdout m1 m2 (σ1 : state World1) (σ2 : state World2) :
  same_flow σ1 σ2 → same_flow (log (Stdout m1) σ1) (log (Stdout m2) σ2).
Proof.
  intros [Hi Hc]. split; simpl.
  - by rewrite !inputs_app, Hi.
  - by rewrite !call_args_app, Hc.
Qed.

Lemma same_add_skipped k1 k2 (σ1 : state World1) (σ2 : state World2) :
  same_flow σ1 σ2 → same_flow (add_skipped k1 σ1) (add_skipped k2 σ2).
Proof. done. Qed.

Lemma same_delete_and_count o (σ1 : state World1) (σ2 : state World2) :
  same_flow σ1 σ2 →
  same_flow (delete_and_count run_kubectl1 o σ1) (delete_and_count run_kubectl2 o σ2).
Proof.
  intros [Hi Hc].
  destruct (delete_and_count_trace run_kubectl1 o σ1) as (ok1 & msg1 & E1).
  destruct (delete_and_count_trace run_kubectl2 o σ2) as (ok2 & msg2 & E2).
  split; rewrite E1, E2.
  - by rewrite !inputs_app, Hi.
  - by rewrite !call_args_app, Hc.
Qed.

Lemma same_delete_all ns_orphans : ∀ (σ1 : state World1) (σ2 : state World2),
  same_flow σ1 σ2 →
  same_flow (delete_all run_kubectl1 ns_orphans σ1)
       (delete_all run_kubectl2 ns_orphans σ2).
Proof.
  unfold delete_all. induction ns_orphans as [|o l IH]; intros σ1 σ2 H; [done|].
  simpl. by apply IH, same_delete_and_count.
Qed.

Lemma same_ask_individual o : ∀ stdin (σ1 : state World1) (σ2 : state World2),
  same_flow σ1 σ2 →
  let r1 := ask_individual run_kubectl1 o stdin σ1 in
  let r2 := ask_individual run_kubectl2 o stdin σ2 in
  r1.1 = r2.1 ∧ same_flow r1.2 r2.2.
Proof.
  induction stdin as [|line stdin IH]; intros σ1 σ2 H; simpl.
  - split; [done | by apply same_log].
  - destruct (String.eqb (read_choice line) "q").
    { split; [done | by apply same_log, same_log]. }
    destruct (String.eqb (read_choice line) "y").
    { split; [done | by apply same_delete_and_count, same_log]. }
    destruct (String.eqb (read_choice line) "n").
    { split; [done | by apply same_add_skipped, same_log, same_log]. }
    by apply IH, same_log, same_log.
Qed.

Lemma same_select_individual ns_orphans :
  ∀ stdin (σ1 : state World1) (σ2 : state World2),
  same_flow σ1 σ2 →
  let r1 := select_individual run_kubectl1 ns_orphans stdin σ1 in
  let r2 := select_individual run_kubectl2 ns_orphans stdin σ2 in
  r1.1 = r2.1 ∧ same_flow r1.2 r2.2.
Proof.
  induction ns_orphans as [|o l IH]; intros stdin σ1 σ2 H; simpl; [done|].
  pose proof (same_ask_individual o stdin σ1 σ2 H) as [E Hs].
  destruct (ask_individual run_kubectl1 o stdin σ1) as [[c1 s1] σ1'].
  destruct (ask_individual run_kubectl2 o stdin σ2) as [[c2 s2] σ2'].
  simpl in *. injection E as <- <-.
  destruct c1; simpl; try done. by apply IH.
Qed.

Lemma same_print_namespace ns ns_orphans (σ1 : state World1) (σ2 : state World2) :
  same_flow σ1 σ2 →
  same_flow (print_namespace ns ns_orphans σ1) (print_namespace ns ns_orphans σ2).
Proof.
  intros H. unfold print_namespace.
  assert (∀ l (τ1 : state World1) (τ2 : state World2),
            same_flow τ1 τ2 →
            same_flow (foldl (λ σ o,
                    log (Stdout (MsgOrphanLine (o_name o) (ks_ref o))) σ) τ1 l)
                 (foldl (λ σ o,
                    log (Stdout (MsgOrphanLine (o_name o) (ks_ref o))) σ) τ2 l))
    as Hfold.
  { induction l as [|o l IH]; intros τ1 τ2 Hτ; [done|]. simpl.
    by apply IH, same_log. }
  by apply Hfold, same_log, same_log, same_log.
Qed.

Lemma same_ask_namespace by_namespace namespaces ns :
  ∀ stdin (σ1 : state World1) (σ2 : state World2),
  same_flow σ1 σ2 →
  let r1 := ask_namespace run_kubectl1 by_namespace namespaces ns stdin σ1 in
  let r2 := ask_namespace run_kubectl2 by_namespace namespaces ns stdin σ2 in
  r1.1 = r2.1 ∧ same_flow r1.2 r2.2.
Proof.
  induction stdin as [|line stdin IH]; intros σ1 σ2 H; simpl.
  - split; [done | by apply same_log].
  - destruct (String.eqb (read_choice line) "q").
    { split; [done | by apply same_log_stdout, same_log, same_log]. }
    destruct (String.eqb (read_choice line) "y").
    { split; [done | by apply same_delete_all, same_log, same_log]. }
    destruct (String.eqb (read_choice line) "n").
    { split; [done | by apply same_add_skipped, same_log, same_log]. }
    destruct (String.eqb (read_choice line) "s").
    { by apply same_select_individual, same_log. }
    by apply IH, same_log, same_log.
Qed.

Lemma same_namespace_loop by_namespace namespaces todo :
  ∀ stdin (σ1 : state World1) (σ2 : state World2),
  same_flow σ1 σ2 →
  let r1 := namespace_loop run_kubectl1 by_namespace namespaces todo stdin σ1 in
  let r2 := namespace_loop run_kubectl2 by_namespace namespaces todo stdin σ2 in
  r1.1 = r2.1 ∧ same_flow r1.2 r2.2.
Proof.
  induction todo as [|ns todo IH]; intros stdin σ1 σ2 H; simpl; [done|].
  pose proof (same_ask_namespace by_namespace namespaces ns stdin _ _
                (same_print_namespace ns (by_namespace !!! ns) σ1 σ2 H))
    as [E Hs].
  destruct (ask_namespace run_kubectl1 _ _ _ _ _) as [[c1 s1] σ1'].
  destruct (ask_namespace run_kubectl2 _ _ _ _ _) as [[c2 s2] σ2'].
  simpl in *. injection E as <- <-.
  destruct c1; simpl; try done. by apply IH.
Qed.

(** X12.  The answers of the cluster do not steer the cleanup: on the same
    orphans and the same lines, two runs on clusters that answer
    differently (deletions that succeed on one and fail on the other) end
    the same way, leave the same lines unread, show the same prompts with
    the same answers, and make the same [kubectl] calls in the same
    order.  A failed deletion neither stops the walk nor is retried. *)
Theorem outcomes_do_not_steer orphans stdin (w1 : World1) (w2 : World2) :
  let r1 := cleanup_orphans_interactive run_kubectl1 orphans stdin w1 in
  let r2 := cleanup_orphans_interactive run_kubectl2 orphans stdin w2 in
  ending r1 = ending r2
  ∧ r1.1.2 = r2.1.2
  ∧ inputs (events r1) = inputs (events r2)
  ∧ call_args (events r1) = call_args (events r2).
Proof.
  intros r1 r2. subst r1 r2. unfold ending, events.
  destruct orphans as [|o orphans]; [done|].
  unfold cleanup_orphans_interactive.
  set (by_namespace := group_by_namespace (o :: orphans)).
  set (namespaces := sorted_keys by_namespace).
  assert (same_flow (print_banner (length (o :: orphans)) (length namespaces)
                  (State 0 0 w1 []))
               (print_banner (length (o :: orphans)) (length namespaces)
                  (State 0 0 w2 []))) as Hσ by done.
  pose proof (same_namespace_loop by_namespace namespaces namespaces stdin _ _ Hσ)
    as [E [Hi Hc]].
  destruct (namespace_loop run_kubectl1 _ _ _ _ _) as [[c1 s1] σ1'].
  destruct (namespace_loop run_kubectl2 _ _ _ _ _) as [[c2 s2] σ2'].
  cbn [fst snd] in *. injection E as <- <-.
  destruct c1; cbn [fst snd]; try done.
  rewrite !print_complete_trace, !inputs_app, !call_args_app, Hi, Hc. done.
Qed.

End Outcomes.

(* ===================================================================== *)
(** * More on the cleanup: answering yes, and the order of the namespaces *)
(* ===================================================================== *)

Section AllYes.

Context {World : Type}.
Variable run_kubectl : list string → World → bool * string * World.

Implicit Types (σ : state World) (stdin : list string).

Lemma ask_namespace_yes by_namespace namespaces ns line stdin σ :
  read_choice line = "y" →
  ask_namespace run_kubectl by_namespace namespaces ns (line :: stdin) σ
  = (Normal, stdin,
     delete_all run_kubectl (by_namespace !!! ns)
       (log (Stdout (MsgDeletingAll ns))
          (log (Input (PromptNamespace (length (by_namespace !!! ns)) ns)
                  (Some line)) σ))).
Proof. intros E. simpl. by rewrite E. Qed.

Lemma namespace_loop_all_yes by_namespace namespaces todo :
  ∀ answers rest σ,
  Forall (λ line, read_choice line = "y") answers →
  length answers = length todo →
  let r := namespace_loop run_kubectl by_namespace namespaces todo
             (answers ++ rest) σ in
  r.1 = (Normal, rest)
  ∧ call_args (trace r.2)
    = call_args (trace σ)
      ++ (delete_call <$> (todo ≫= (λ ns, by_namespace !!! ns))).
Proof.
  induction todo as [|ns todo IH]; intros answers rest σ Hy Hlen.
  - destruct answers; [|done]. simpl. by rewrite app_nil_r.
  - destruct answers as [|line answers]; [done|].
    apply Forall_cons in Hy as [Hline Hy]. injection Hlen as Hlen.
    cbn [namespace_loop app]. rewrite ask_namespace_yes by done.
    destruct (IH answers rest
                (delete_all run_kubectl (by_namespace !!! ns)
                   (log (Stdout (MsgDeletingAll ns))
                      (log (Input (PromptNamespace
                                     (length (by_namespace !!! ns)) ns)
                              (Some line))
                         (print_namespace ns (by_namespace !!! ns) σ))))
                Hy Hlen) as [E Hc].
    split; [done|]. rewrite Hc, call_args_delete_all.
    cbn [log trace]. rewrite !call_args_app, call_args_print_namespace.
    cbn [call_args kubectl_calls omap list_omap fmap list_fmap].
    rewrite !app_nil_r. csimpl. by rewrite fmap_app, (assoc_L (++)).
Qed.

(** X13.  Answering [y] (in any case, with any white space around it) at the
    prompt of every namespace deletes everything: with one such line for
    each namespace the run reaches its end, reads these lines and no
    other, and calls [kubectl delete] once for every orphan, in the order
    of the walk, whatever the cluster answers. *)
Theorem all_yes_deletes_all orphans answers rest w :
  orphans ≠ [] →
  Forall (λ line, read_choice line = "y") answers →
  length answers = length (sorted_keys (group_by_namespace orphans)) →
  let r := cleanup_orphans_interactive run_kubectl orphans (answers ++ rest) w in
  ending r = Normal
  ∧ r.1.2 = rest
  ∧ call_args (events r) = delete_call <$> walk_order orphans
  ∧ length (kubectl_calls (events r)) = length orphans.
Proof.
  intros Hne Hy Hlen r.
  assert (ending r = Normal ∧ r.1.2 = rest
          ∧ call_args (events r) = delete_call <$> walk_order orphans)
    as (He & Hr & Hc).
  { subst r. unfold ending, events, walk_order.
    destruct orphans as [|o orphans]; [done|].
    unfold cleanup_orphans_interactive.
    set (by_namespace := group_by_namespace (o :: orphans)) in *.
    set (namespaces := sorted_keys by_namespace) in *.
    set (σ := print_banner _ _ _).
    destruct (namespace_loop_all_yes by_namespace namespaces namespaces
                answers rest σ Hy Hlen) as [E Hc].
    destruct (namespace_loop _ _ _ _ _ _) as [[c stdin'] σ'].
    cbn [fst snd] in *. injection E as -> ->. cbn [fst snd].
    split; [done|]. split; [done|].
    rewrite print_complete_trace, call_args_app, Hc.
    change (call_args (final_report _ _)) with (@nil (list string)).
    by rewrite app_nil_r. }
  split; [done|]. split; [done|]. split; [done|].
  transitivity (length (call_args (events r))).
  { unfold call_args. by rewrite length_fmap. }
  by rewrite Hc, length_fmap, walk_order_Permutation.
Qed.

End AllYes.

Lemma all_yes_deletes_all_witness :
  let r := cleanup_orphans_interactive scripted_kubectl
             [sample_orphan "teamB" "db"; sample_orphan "teamA" "api"]
             (["y"; " Y "] ++ ["kept"]) [false; true] in
  ending r = Normal
  ∧ r.1.2 = ["kept"]
  ∧ call_args (events r)
    = delete_call
      <$> walk_order [sample_orphan "teamB" "db"; sample_orphan "teamA" "api"]
  ∧ length (kubectl_calls (events r)) = 2.
Proof.
  apply (all_yes_deletes_all scripted_kubectl
           [sample_orphan "teamB" "db"; sample_orphan "teamA" "api"]
           ["y"; " Y "] ["kept"] [false; true]).
  - discriminate.
  - repeat constructor.
  - vm_compute. reflexivity.
Defined.

Section NamespaceOrder.

Context {World : Type}.
Variable run_kubectl : list string → World → bool * string * World.

Implicit Types (σ : state World) (stdin : list string) (tr : list event).

Lemma namespaces_shown_app tr1 tr2 :
  namespaces_shown (tr1 ++ tr2) = namespaces_shown tr1 ++ namespaces_shown tr2.
Proof. apply omap_app. Qed.

Ltac quiet_shown :=
  cbn [fst snd trace log add_skipped]; rewrite ?namespaces_shown_app;
  cbn [namespaces_shown omap list_omap]; rewrite ?app_nil_r.

Lemma namespaces_shown_delete_and_count o σ :
  namespaces_shown (trace (delete_and_count run_kubectl o σ))
  = namespaces_shown (trace σ).
Proof.
  destruct (delete_and_count_eq run_kubectl o σ) as (ok & output & w' & ->).
  cbn [trace]. rewrite namespaces_shown_app.
  destruct ok; cbn [namespaces_shown omap list_omap]; by rewrite app_nil_r.
Qed.

Lemma namespaces_shown_delete_all ns_orphans : ∀ σ,
  namespaces_shown (trace (delete_all run_kubectl ns_orphans σ))
  = namespaces_shown (trace σ).
Proof.
  unfold delete_all. induction ns_orphans as [|o l IH]; intros σ; [done|].
  simpl. by rewrite IH, namespaces_shown_delete_and_count.
Qed.

Lemma namespaces_shown_ask_individual o : ∀ stdin σ,
  namespaces_shown (trace (ask_individual run_kubectl o stdin σ).2)
  = namespaces_shown (trace σ).
Proof.
  induction stdin as [|line stdin IH]; intros σ; cbn [ask_individual].
  - by quiet_shown.
  - destruct (String.eqb (read_choice line) "q"); [by quiet_shown|].
    destruct (String.eqb (read_choice line) "y").
    { cbn [snd]. rewrite namespaces_shown_delete_and_count. by quiet_shown. }
    destruct (String.eqb (read_choice line) "n"); [by quiet_shown|].
    rewrite IH. by quiet_shown.
Qed.

Lemma namespaces_shown_select_individual ns_orphans : ∀ stdin σ,
  namespaces_shown (trace (select_individual run_kubectl ns_orphans stdin σ).2)
  = namespaces_shown (trace σ).
Proof.
  induction ns_orphans as [|o l IH]; intros stdin σ; simpl; [done|].
  pose proof (namespaces_shown_ask_individual o stdin σ) as Ha.
  destruct (ask_individual run_kubectl o stdin σ) as [[c stdin'] σ'].
  destruct c; simpl in *; try done. by rewrite IH.
Qed.

Lemma namespaces_shown_ask_namespace by_namespace namespaces ns : ∀ stdin σ,
  namespaces_shown
    (trace (ask_namespace run_kubectl by_namespace namespaces ns stdin σ).2)
  = namespaces_shown (trace σ).
Proof.
  induction stdin as [|line stdin IH]; intros σ; cbn [ask_namespace].
  - by quiet_shown.
  - destruct (String.eqb (read_choice line) "q"); [by quiet_shown|].
    destruct (String.eqb (read_choice line) "y").
    { cbn [snd]. rewrite namespaces_shown_delete_all. by quiet_shown. }
    destruct (String.eqb (read_choice line) "n"); [by quiet_shown|].
    destruct (String.eqb (read_choice line) "s").
    { rewrite namespaces_shown_select_individual. by quiet_shown. }
    rewrite IH. by quiet_shown.
Qed.

Lemma namespaces_shown_print_namespace ns ns_orphans σ :
  namespaces_shown (trace (print_namespace ns ns_orphans σ))
  = namespaces_shown (trace σ) ++ [ns].
Proof.
  unfold print_namespace.
  assert (∀ l σ0,
            namespaces_shown
              (trace (foldl (λ σ o,
                        log (Stdout (MsgOrphanLine (o_name o) (ks_ref o))) σ)
                      σ0 l)) = namespaces_shown (trace σ0)) as Hfold.
  { induction l as [|o l IH]; intros σ0; simpl; [done|].
    rewrite IH. by quiet_shown. }
  rewrite Hfold. by quiet_shown.
Qed.

Lemma namespace_loop_shown by_namespace namespaces todo : ∀ stdin σ,
  let r := namespace_loop run_kubectl by_namespace namespaces todo stdin σ in
  ∃ visited rest,
    todo = visited ++ rest
    ∧ namespaces_shown (trace r.2) = namespaces_shown (trace σ) ++ visited
    ∧ (r.1.1 = Normal → rest = []).
Proof.
  induction todo as [|ns todo IH]; intros stdin σ; simpl.
  - exists [], []. split_and!; [done | by rewrite app_nil_r | done].
  - pose proof (namespaces_shown_ask_namespace by_namespace namespaces ns stdin
                  (print_namespace ns (by_namespace !!! ns) σ)) as Ha.
    rewrite namespaces_shown_print_namespace in Ha.
    destruct (ask_namespace _ _ _ _ _ _) as [[c stdin'] σ'].
    destruct c; cbn [fst snd] in *;
      try (exists [ns], todo; by rewrite Ha).
    destruct (IH stdin' σ') as (visited & rest & -> & Hs & Hn).
    exists (ns :: visited), rest.
    rewrite Hs, Ha, <- (assoc_L (++)). done.
Qed.

(** X14.  The namespaces are walked in ascending order, each of them once: the
    headings a run prints are a prefix of the sorted list of the
    namespaces that hold an orphan, without a repetition, and all of it
    when the run reaches its end.  An answer never brings a namespace
    back, and none is visited after a quit. *)
Theorem namespaces_in_order orphans stdin w :
  let r := cleanup_orphans_interactive run_kubectl orphans stdin w in
  let namespaces := sorted_keys (group_by_namespace orphans) in
  namespaces_shown (events r) `prefix_of` namespaces
  ∧ StronglySorted String.le (namespaces_shown (events r))
  ∧ NoDup (namespaces_shown (events r))
  ∧ (∀ ns, ns ∈ namespaces_shown (events r) → ∃ o, o ∈ orphans ∧ o_namespace o = ns)
  ∧ (ending r = Normal → namespaces_shown (events r) = namespaces).
Proof.
  intros r namespaces.
  assert (namespaces_shown (events r) `prefix_of` namespaces
          ∧ (ending r = Normal → namespaces_shown (events r) = namespaces))
    as [Hpre Hall].
  { subst r namespaces. unfold ending, events.
    destruct orphans as [|o orphans].
    { split; [by exists [] | done]. }
    unfold cleanup_orphans_interactive.
    set (by_namespace := group_by_namespace (o :: orphans)).
    set (namespaces := sorted_keys by_namespace).
    set (σ := print_banner _ _ _).
    destruct (namespace_loop_shown by_namespace namespaces namespaces stdin σ)
      as (visited & rest & E & Hs & Hn).
    change (namespaces_shown (trace σ)) with (@nil string) in Hs.
    destruct (namespace_loop _ _ _ _ _ _) as [[c stdin'] σ'].
    cbn [fst snd app] in *.
    assert (namespaces_shown (trace (print_complete σ')) = visited) as Hc.
    { rewrite print_complete_trace, namespaces_shown_app, Hs.
      change (namespaces_shown (final_report _ _)) with (@nil string).
      by rewrite app_nil_r. }
    destruct c; cbn [fst snd]; rewrite ?Hc, ?Hs;
      (split; [by exists rest |]); try done.
    intros _. rewrite E, (Hn eq_refl). by rewrite app_nil_r. }
  destruct Hpre as [rest E].
  assert (StronglySorted String.le namespaces) as Hsorted.
  { apply Sorted_StronglySorted; [apply _|]. apply sorted_keys_sorted. }
  assert (NoDup namespaces) as Hnd by apply sorted_keys_NoDup.
  rewrite E in Hsorted, Hnd.
  split; [by exists rest|]. split; [by apply StronglySorted_app_1_l in Hsorted|].
  split; [by apply NoDup_app in Hnd as [? _]|]. split; [|done].
  intros ns Hin.
  assert (ns ∈ namespaces) as Hns by (rewrite E; apply elem_of_app; by left).
  apply elem_of_sorted_keys in Hns. rewrite group_by_namespace_dom in Hns.
  apply elem_of_list_to_set, list_elem_of_fmap in Hns as (o & -> & Ho). eauto.
Qed.

End NamespaceOrder.

Lemma namespaces_in_order_witness :
  let orphans := [sample_orphan "teamB" "db"; sample_orphan "teamA" "api"] in
  namespaces_shown
    (events (cleanup_orphans_interactive scripted_kubectl orphans ["n"; "y"] []))
  = sorted_keys (group_by_namespace orphans).
Proof.
  intros orphans.
  apply (proj2 (proj2 (proj2 (proj2
           (namespaces_in_order scripted_kubectl orphans ["n"; "y"] []))))).
  vm_compute. reflexivity.
Defined.

(* ===================================================================== *)
(** * The lines read as a choice                                          *)
(* ===================================================================== *)

Section Choice.

Implicit Types (s t pre post : string) (c d : ascii).

Lemma is_space_lower_ascii c :
  PyStr.is_space (PyStr.lower_ascii c) = PyStr.is_space c.
Proof. by destruct c as [[] [] [] [] [] [] [] []]. Qed.

Lemma lower_app s t : PyStr.lower (s +:+ t) = PyStr.lower s +:+ PyStr.lower t.
Proof. induction s as [|c s IH]; simpl; [done | by rewrite IH]. Qed.

Lemma lower_app_inv s : ∀ a b,
  PyStr.lower s = a +:+ b →
  ∃ a' b', s = a' +:+ b' ∧ PyStr.lower a' = a ∧ PyStr.lower b' = b.
Proof.
  intros a. revert s. induction a as [|c a IH]; intros s b E.
  - by exists EmptyString, s.
  - destruct s as [|c' s]; [done|]. simpl in E. injection E as Ec E.
    destruct (IH s b E) as (a' & b' & -> & Ha & Hb).
    exists (String c' a'), b'. simpl. by rewrite Ec, Ha.
Qed.

Lemma all_space_lower s : all_space (PyStr.lower s) = all_space s.
Proof.
  induction s as [|c s IH]; simpl; [done|].
  by rewrite is_space_lower_ascii, IH.
Qed.

Lemma lstrip_spaces pre t :
  all_space pre = true → PyStr.lstrip (pre +:+ t) = PyStr.lstrip t.
Proof.
  induction pre as [|c pre IH]; simpl; [done|].
  intros [Hc Hpre]%andb_true_iff. rewrite Hc. by apply IH.
Qed.

Lemma lstrip_inv t :
  ∃ pre, all_space pre = true
         ∧ t = pre +:+ PyStr.lstrip t
         ∧ (PyStr.lstrip t = EmptyString
            ∨ ∃ c u, PyStr.lstrip t = String c u ∧ PyStr.is_space c = false).
Proof.
  induction t as [|c t (pre & Hpre & E & Hfirst)]; simpl.
  - exists EmptyString. by split_and!; [..|left].
  - destruct (PyStr.is_space c) eqn:Hc.
    + exists (String c pre).
      split_and!; [simpl; by rewrite Hc, Hpre | | done].
      change (String c t = String c (pre +:+ PyStr.lstrip t)). by rewrite <- E.
    + exists EmptyString. split_and!; [done..|]. right. eauto.
Qed.

Lemma rstrip_spaces post : all_space post = true → PyStr.rstrip post = EmptyString.
Proof.
  induction post as [|c post IH]; simpl; [done|].
  intros [Hc Hpost]%andb_true_iff. by rewrite IH, Hc.
Qed.

Lemma rstrip_empty_inv s : PyStr.rstrip s = EmptyString → all_space s = true.
Proof.
  induction s as [|c s IH]; simpl; [done|].
  destruct (PyStr.rstrip s); [|done].
  destruct (PyStr.is_space c); [|done]. intros _. by rewrite IH.
Qed.

(** [strip] gives one character that is not white space on the strings
    that hold this character between white space, and on no other. *)
Lemma strip_single t c :
  PyStr.is_space c = false →
  PyStr.strip t = String c EmptyString
  ↔ ∃ pre post, t = pre +:+ String c post
                ∧ all_space pre = true ∧ all_space post = true.
Proof.
  intros Hc. unfold PyStr.strip. split.
  - intros E. destruct (lstrip_inv t) as (pre & Hpre & Et & Hfirst).
    destruct Hfirst as [E0|(d & u & Eu & Hd)].
    { by rewrite E0 in E. }
    rewrite Eu in E. simpl in E.
    destruct (PyStr.rstrip u) eqn:Hu.
    + rewrite Hd in E. injection E as ->.
      exists pre, u. rewrite Et at 1. rewrite Eu.
      split_and!; [done..|]. by apply rstrip_empty_inv.
    + by injection E.
  - intros (pre & post & -> & Hpre & Hpost).
    rewrite lstrip_spaces by done. cbn [PyStr.lstrip]. rewrite Hc.
    cbn [PyStr.rstrip]. rewrite rstrip_spaces by done. by rewrite Hc.
Qed.

(** Which lines are read as a choice (lines 232 and 258-260,
    [.lower().strip()] on ASCII): a line is read as the one-letter choice
    [c] when it holds this letter, in lower case or in upper case,
    between white space, and in no other case. *)
Lemma read_choice_single line c :
  PyStr.is_space c = false →
  read_choice line = String c EmptyString
  ↔ ∃ pre c' post,
      line = pre +:+ String c' post
      ∧ all_space pre = true ∧ all_space post = true
      ∧ PyStr.lower_ascii c' = c.
Proof.
  intros Hc. unfold read_choice. rewrite strip_single by done. split.
  - intros (pre & post & E & Hpre & Hpost).
    destruct (lower_app_inv line pre (String c post) E)
      as (pre' & t & -> & <- & Et).
    destruct t as [|c' post']; [done|]. simpl in Et. injection Et as <- <-.
    exists pre', c', post'. rewrite all_space_lower in Hpre, Hpost. done.
  - intros (pre & c' & post & -> & Hpre & Hpost & <-).
    exists (PyStr.lower pre), (PyStr.lower post).
    by rewrite lower_app, !all_space_lower.
Qed.

Lemma one_letter_spec line c :
  PyStr.is_space c = false →
  one_letter c line = true
  ↔ ∃ pre c' post,
      line = pre +:+ String c' post
      ∧ all_space pre = true ∧ all_space post = true
      ∧ PyStr.lower_ascii c' = c.
Proof.
  intros Hc. split.
  - induction line as [|d rest IH]; simpl; [done|].
    destruct (PyStr.is_space d) eqn:Hd.
    + intros (pre & c' & post & -> & Hpre & Hpost & E)%IH.
      exists (String d pre), c', post. simpl. by rewrite Hd, Hpre.
    + intros [Ed%Ascii.eqb_eq Hrest]%andb_true_iff.
      by exists EmptyString, d, rest.
  - intros (pre & c' & post & -> & Hpre & Hpost & <-).
    induction pre as [|d pre IH]; simpl.
    + rewrite <- is_space_lower_ascii, Hc. by rewrite Ascii.eqb_refl, Hpost.
    + simpl in Hpre. apply andb_true_iff in Hpre as [Hd Hpre].
      rewrite Hd. by apply IH.
Qed.

(** The comparison of the program, [choice == c], in terms of the line. *)
Lemma eqb_choice line c :
  PyStr.is_space c = false →
  String.eqb (read_choice line) (String c EmptyString) = one_letter c line.
Proof.
  intros Hc. apply Bool.eq_iff_eq_true.
  by rewrite String.eqb_eq, read_choice_single, one_letter_spec.
Qed.

(** A line holds one letter at most. *)
Lemma one_letter_functional line c1 c2 :
  one_letter c1 line = true → one_letter c2 line = true → c1 = c2.
Proof.
  induction line as [|d rest IH]; simpl; [done|].
  destruct (PyStr.is_space d); [done|].
  intros [E1%Ascii.eqb_eq _]%andb_true_iff [E2%Ascii.eqb_eq _]%andb_true_iff.
  congruence.
Qed.

Lemma one_letter_other line c1 c2 :
  one_letter c1 line = true → c1 ≠ c2 → one_letter c2 line = false.
Proof.
  intros H1 Hne. destruct (one_letter c2 line) eqn:H2; [|done].
  by destruct Hne; apply (one_letter_functional line).
Qed.

End Choice.

Section PromptAnswers.

Context {World : Type}.
Variable run_kubectl : list string → World → bool * string * World.

Implicit Types (σ : state World) (stdin : list string).

(** X15.  How a line is answered at the two prompts (lines 232-280).  A
    line that holds one letter of [q], [y], [n], in lower or in upper
    case, between white space, aborts, deletes or skips, at both
    prompts; the letter [s] starts the individual selection at the
    namespace prompt and is an invalid choice at the individual prompt;
    every other ASCII line (a longer answer such as [yes], the empty
    line) is an invalid choice: the program prints the message of the
    prompt and asks again, with the rest of the input, and neither
    deletes nor counts anything for it. *)
Theorem prompt_answers by_namespace namespaces ns o line stdin σ :
  let ns_orphans := by_namespace !!! ns in
  let σn := log (Input (PromptNamespace (length ns_orphans) ns) (Some line)) σ in
  let σi := log (Input (PromptIndividual (o_name o) (ks_ref o)) (Some line)) σ in
  let at_namespace :=
    ask_namespace run_kubectl by_namespace namespaces ns (line :: stdin) σ in
  let at_individual := ask_individual run_kubectl o (line :: stdin) σ in
  (one_letter "q" line = true →
   at_namespace.1 = (ReturnQuitNamespace, stdin)
   ∧ at_individual = (ReturnQuitIndividual, stdin, log (Stdout MsgAborted) σi))
  ∧ (one_letter "y" line = true →
     at_namespace
     = (Normal, stdin,
        delete_all run_kubectl ns_orphans (log (Stdout (MsgDeletingAll ns)) σn))
     ∧ at_individual = (Normal, stdin, delete_and_count run_kubectl o σi))
  ∧ (one_letter "n" line = true →
     at_namespace
     = (Normal, stdin,
        add_skipped (length ns_orphans)
          (log (Stdout (MsgSkippingNamespace ns)) σn))
     ∧ at_individual
       = (Normal, stdin,
          add_skipped 1 (log (Stdout (MsgSkipped (o_name o))) σi)))
  ∧ (one_letter "s" line = true →
     at_namespace = select_individual run_kubectl ns_orphans stdin σn
     ∧ at_individual
       = ask_individual run_kubectl o stdin
           (log (Stdout MsgInvalidIndividual) σi))
  ∧ (is_ascii line = true →
     one_letter "q" line = false → one_letter "y" line = false →
     one_letter "n" line = false →
     at_individual
     = ask_individual run_kubectl o stdin (log (Stdout MsgInvalidIndividual) σi)
     ∧ (one_letter "s" line = false →
        at_namespace
        = ask_namespace run_kubectl by_namespace namespaces ns stdin
            (log (Stdout MsgInvalidChoice) σn))).
Proof.
  intros ns_orphans σn σi at_namespace at_individual.
  subst at_namespace at_individual σn σi ns_orphans.
  cbn [ask_namespace ask_individual].
  rewrite !(eqb_choice line) by done.
  split_and!.
  - intros ->. done.
  - intros Hy. rewrite Hy.
    by rewrite (one_letter_other line "y" "q" Hy).
  - intros Hn. rewrite Hn.
    rewrite (one_letter_other line "n" "q" Hn) by done.
    by rewrite (one_letter_other line "n" "y" Hn).
  - intros Hs. rewrite Hs.
    rewrite (one_letter_other line "s" "q" Hs) by done.
    rewrite (one_letter_other line "s" "y" Hs) by done.
    by rewrite (one_letter_other line "s" "n" Hs).
  - intros _ -> -> ->. split; [done|]. by intros ->.
Qed.

End PromptAnswers.

Lemma prompt_answers_witness :
  ask_namespace scripted_kubectl
    (group_by_namespace one_orphan) ["teamA"] "teamA" ["yes"; "y"]
    (State 0 0 [] [])
  = ask_namespace scripted_kubectl
      (group_by_namespace one_orphan) ["teamA"] "teamA" ["y"]
      (log (Stdout MsgInvalidChoice)
         (log (Input (PromptNamespace
                        (length (group_by_namespace one_orphan !!! "teamA"))
                        "teamA")
                 (Some "yes")) (State 0 0 [] []))).
Proof.
  apply (proj2 (proj2 (proj2 (proj2
           (prompt_answers scripted_kubectl (group_by_namespace one_orphan)
              ["teamA"] "teamA" (sample_orphan "teamA" "web-release")
              "yes" ["y"] (State 0 0 [] [])))))); reflexivity.
Defined.

(* ===================================================================== *)
(** * The whole program: fetching, reporting, cleaning up                 *)
(* ===================================================================== *)

Section Main.

Context {World : Type}.
Variable run_kubectl : list string → World → bool * string * World.
Variable json_loads_kustomizations : string → string + option (list kustomization).
Variable json_loads_helmreleases : string → string + option (list helmrelease).

Implicit Types (args : arguments) (stdin : list string) (w : World).
Implicit Types (tr : list main_event).

#[local] Abbreviation get_all_kustomizations :=
  (get_all_kustomizations run_kubectl json_loads_kustomizations).
#[local] Abbreviation get_all_helmreleases :=
  (get_all_helmreleases run_kubectl json_loads_helmreleases).
#[local] Abbreviation detect :=
  (detect run_kubectl json_loads_kustomizations json_loads_helmreleases).
#[local] Abbreviation main :=
  (main run_kubectl json_loads_kustomizations json_loads_helmreleases).

Lemma main_call_args_app tr1 tr2 :
  main_call_args (tr1 ++ tr2) = main_call_args tr1 ++ main_call_args tr2.
Proof. unfold main_call_args, main_kubectl_calls. by rewrite omap_app, fmap_app. Qed.

Lemma main_call_args_Ev (tr : list event) :
  main_call_args (Ev <$> tr) = call_args tr.
Proof.
  unfold main_call_args, main_kubectl_calls, call_args, kubectl_calls.
  induction tr as [|[] tr IH]; csimpl; [done..|]. by rewrite IH.
Qed.

Lemma main_call_args_Out {A} (f : A → string) (l : list A) :
  main_call_args ((λ x, Out (f x)) <$> l) = [].
Proof. by induction l. Qed.

Lemma main_call_args_render format orphans :
  main_call_args (render format orphans) = [].
Proof.
  destruct format; simpl.
  - destruct orphans as [|o orphans]; [done|].
    unfold print_orphans_table. rewrite !main_call_args_app.
    by rewrite (main_call_args_Out table_row).
  - done.
  - unfold print_orphans_yaml. induction orphans as [|o l IH]; [done|].
    csimpl. apply IH.
Qed.

(** What the two fetches leave behind: one call each, and the cluster
    after the call. *)
Lemma get_all_kustomizations_calls w :
  main_call_args (get_all_kustomizations w).2 = [KUSTOMIZATIONS_ARGS]
  ∧ (get_all_kustomizations w).1.2 = (run_kubectl KUSTOMIZATIONS_ARGS w).2.
Proof.
  unfold get_all_kustomizations.
  destruct (run_kubectl KUSTOMIZATIONS_ARGS w) as [[[] output] w']; [|done].
  simpl. by destruct (json_loads_kustomizations output).
Qed.

Lemma get_all_helmreleases_calls namespace w :
  main_call_args (get_all_helmreleases namespace w).2
  = [helmreleases_args namespace]
  ∧ (get_all_helmreleases namespace w).1.2
    = (run_kubectl (helmreleases_args namespace) w).2.
Proof.
  unfold get_all_helmreleases.
  destruct (run_kubectl (helmreleases_args namespace) w) as [[[] output] w'];
    [|done].
  simpl. by destruct (json_loads_helmreleases output).
Qed.

(** A fetch that fails, or whose output is not JSON, gives the empty
    list and one line on the standard error. *)
Lemma get_all_kustomizations_failed w :
  (run_kubectl KUSTOMIZATIONS_ARGS w).1.1 = false
  ∨ (∃ e, json_loads_kustomizations (run_kubectl KUSTOMIZATIONS_ARGS w).1.2 = inl e) →
  (get_all_kustomizations w).1.1 = []
  ∧ ∃ text, err_texts (get_all_kustomizations w).2 = [text].
Proof.
  unfold get_all_kustomizations.
  destruct (run_kubectl KUSTOMIZATIONS_ARGS w) as [[[] output] w']; simpl.
  - intros [?|[e ->]]; [done|]. eauto.
  - eauto.
Qed.

Lemma get_all_helmreleases_failed namespace w :
  (run_kubectl (helmreleases_args namespace) w).1.1 = false
  ∨ (∃ e, json_loads_helmreleases
            (run_kubectl (helmreleases_args namespace) w).1.2 = inl e) →
  (get_all_helmreleases namespace w).1.1 = []
  ∧ ∃ text, err_texts (get_all_helmreleases namespace w).2 = [text].
Proof.
  unfold get_all_helmreleases.
  destruct (run_kubectl (helmreleases_args namespace) w) as [[[] output] w'];
    simpl.
  - intros [?|[e ->]]; [done|]. eauto.
  - eauto.
Qed.

Lemma err_texts_app tr1 tr2 : err_texts (tr1 ++ tr2) = err_texts tr1 ++ err_texts tr2.
Proof. apply omap_app. Qed.

(** The analysis, in terms of the two fetches. *)
Lemma detect_eq args w :
  let ks := get_all_kustomizations w in
  let hs := get_all_helmreleases (arg_namespace args) ks.1.2 in
  (detect args w).1.1
  = find_orphaned_helmreleases hs.1.1
      (get_managed_helmreleases_from_inventory ks.1.1)
  ∧ (detect args w).1.2 = hs.1.2
  ∧ main_call_args (detect args w).2
    = [KUSTOMIZATIONS_ARGS; helmreleases_args (arg_namespace args)]
  ∧ err_texts (detect args w).2
    = err_texts ks.2
      ++ (match ks.1.1 with
          | [] => ["Warning: No Kustomizations found or unable to fetch them."]
          | _ => []
          end)
      ++ err_texts hs.2.
Proof.
  intros ks hs. subst ks hs. unfold detect.
  pose proof (get_all_kustomizations_calls w) as [Hk _].
  destruct (get_all_kustomizations w) as [[kustomizations w1] fetched_ks].
  cbn [fst snd] in *.
  pose proof (get_all_helmreleases_calls (arg_namespace args) w1) as [Hh _].
  destruct (get_all_helmreleases (arg_namespace args) w1)
    as [[helmreleases w2] fetched_hr].
  cbn [fst snd] in *. split_and!; [done..| |].
  - rewrite !main_call_args_app, Hk, Hh. by destruct kustomizations.
  - rewrite !err_texts_app. destruct kustomizations; simpl;
      by rewrite ?app_nil_r.
Qed.

(** [main] when there is nothing to clean up or no cleanup is asked for. *)
Lemma main_quiet args stdin w :
  arg_cleanup args = false ∨ (detect args w).1.1 = [] →
  main args stdin w
  = (Normal, stdin, (detect args w).1.2,
     ((detect args w).2 ++ render (arg_output args) (detect args w).1.1)
     ++ (if arg_cleanup args
         then [Out (PyFmt.NL +:+ "No orphaned HelmReleases to clean up.")]
         else [])).
Proof.
  unfold main.
  destruct (detect args w) as [[orphans w'] detected]. cbn [fst snd].
  destruct (arg_cleanup args).
  - intros [?| ->]; [done|]. done.
  - intros _. by rewrite app_nil_r.
Qed.

(** The [kubectl] calls of [main]: the two fetches, then those of the
    cleanup when it is asked for. *)
Lemma main_call_args_main args stdin w :
  main_call_args (main args stdin w).2
  = KUSTOMIZATIONS_ARGS :: helmreleases_args (arg_namespace args)
    :: (if arg_cleanup args
        then call_args (events (cleanup_orphans_interactive run_kubectl
                                  (detect args w).1.1 stdin (detect args w).1.2))
        else []).
Proof.
  pose proof (detect_eq args w) as (_ & _ & Hc & _).
  unfold main.
  destruct (detect args w) as [[orphans w'] detected]. cbn [fst snd] in *.
  destruct (arg_cleanup args).
  - destruct orphans as [|o orphans].
    + cbn [snd]. by rewrite !main_call_args_app, Hc, main_call_args_render.
    + destruct (cleanup_orphans_interactive _ _ _ _) as [[c stdin'] σ].
      cbn [snd]. unfold events. cbn [snd].
      by rewrite !main_call_args_app, Hc, main_call_args_render, main_call_args_Ev.
  - cbn [snd]. by rewrite !main_call_args_app, Hc, main_call_args_render.
Qed.

(** X16.  The calls of the whole program.  It first fetches the Kustomizations
    of all namespaces, whatever [--namespace] says, then the HelmReleases;
    every later call is a [delete] of an orphan it has found, in the
    order of the walk and at most once for each; without [--cleanup] there
    is no later call. *)
Theorem main_calls args stdin w :
  let r := main args stdin w in
  ∃ deletes,
    main_call_args r.2
    = KUSTOMIZATIONS_ARGS :: helmreleases_args (arg_namespace args) :: deletes
    ∧ deletes `sublist_of` delete_call <$> walk_order (detect args w).1.1
    ∧ (arg_cleanup args = false → deletes = []).
Proof.
  intros r. subst r. rewrite main_call_args_main.
  eexists. split; [done|]. destruct (arg_cleanup args).
  - split; [apply cleanup_calls_sublist | done].
  - split; [apply sublist_nil_l | done].
Qed.

(** X17.  What the program deletes: every [delete] is for a HelmRelease that
    the second fetch returned, that carries both owner labels with a
    value, and whose key is in no inventory the first fetch returned; and
    it is made only with [--cleanup]. *)
Theorem main_deletes_only_orphans args stdin w a :
  let ks := get_all_kustomizations w in
  let hs := get_all_helmreleases (arg_namespace args) ks.1.2 in
  a ∈ drop 2 (main_call_args (main args stdin w).2) →
  arg_cleanup args = true
  ∧ ∃ hr, hr ∈ hs.1.1
          ∧ a = delete_args (hr_namespace hr) (hr_name hr)
          ∧ carries_nonempty_label hr OWNER_NAME_LABEL
          ∧ carries_nonempty_label hr OWNER_NAMESPACE_LABEL
          ∧ release_key (hr_namespace hr) (hr_name hr)
            ∉ get_managed_helmreleases_from_inventory ks.1.1.
Proof.
  intros ks hs. rewrite main_call_args_main. cbn [drop].
  destruct (arg_cleanup args); [|by intros ?%elem_of_nil].
  intros Ha. split; [done|].
  eapply elem_of_sublist in Ha; [|apply cleanup_calls_sublist].
  rewrite walk_order_Permutation in Ha.
  apply list_elem_of_fmap in Ha as (o & -> & Ho).
  destruct (detect_eq args w) as (Ed & _). fold ks hs in Ed.
  rewrite Ed in Ho. apply elem_of_find_orphaned in Ho as (hr & Hin & Ho).
  exists hr. split; [done|].
  assert (is_Some (orphan_of (get_managed_helmreleases_from_inventory ks.1.1) hr))
    as (H1 & H2 & H3)%orphan_of_is_Some by eauto.
  apply orphan_of_Some in Ho as (_ & En & Ens & _).
  unfold delete_call. rewrite En, Ens. done.
Qed.

(** X18.  Reporting is read-only: without [--cleanup], or when no orphan is
    found, the program makes the two [get] calls and no other, reads no
    line, and ends normally, leaving the cluster as the two calls left
    it. *)
Theorem report_is_read_only args stdin w :
  arg_cleanup args = false ∨ (detect args w).1.1 = [] →
  let r := main args stdin w in
  r.1.1.1 = Normal
  ∧ r.1.1.2 = stdin
  ∧ r.1.2 = (run_kubectl (helmreleases_args (arg_namespace args))
               (run_kubectl KUSTOMIZATIONS_ARGS w).2).2
  ∧ main_call_args r.2
    = [KUSTOMIZATIONS_ARGS; helmreleases_args (arg_namespace args)].
Proof.
  intros H r. subst r. rewrite (main_quiet args stdin w H). cbn [fst snd].
  destruct (detect_eq args w) as (_ & Ew & Hc & _).
  destruct (get_all_kustomizations_calls w) as [_ Ew1].
  destruct (get_all_helmreleases_calls (arg_namespace args)
              (get_all_kustomizations w).1.2) as [_ Ew2].
  split_and!; [done..| |].
  - by rewrite Ew, Ew2, Ew1.
  - rewrite !main_call_args_app, Hc, main_call_args_render.
    by destruct (arg_cleanup args).
Qed.

(** X19.  When the Kustomizations cannot be fetched (the call fails, or its
    output is not JSON) the program goes on with an empty set of managed
    releases: it warns on the standard error, and every HelmRelease the
    second fetch returns that carries both owner labels with a value is
    reported as an orphan, whether an inventory lists it or not. *)
Theorem kustomization_fetch_failure args w :
  (run_kubectl KUSTOMIZATIONS_ARGS w).1.1 = false
  ∨ (∃ e, json_loads_kustomizations (run_kubectl KUSTOMIZATIONS_ARGS w).1.2 = inl e) →
  let hs := get_all_helmreleases (arg_namespace args)
              (run_kubectl KUSTOMIZATIONS_ARGS w).2 in
  (detect args w).1.1 = find_orphaned_helmreleases hs.1.1 ∅
  ∧ (∀ hr, hr ∈ hs.1.1 →
           carries_nonempty_label hr OWNER_NAME_LABEL →
           carries_nonempty_label hr OWNER_NAMESPACE_LABEL →
           ∃ o, o ∈ (detect args w).1.1 ∧ o_raw o = hr)
  ∧ "Warning: No Kustomizations found or unable to fetch them."
    ∈ err_texts (detect args w).2.
Proof.
  intros H hs.
  destruct (get_all_kustomizations_failed w H) as [Eks _].
  destruct (get_all_kustomizations_calls w) as [_ Ew].
  destruct (detect_eq args w) as (Ed & _ & _ & Eerr).
  rewrite Eks, Ew in Ed. rewrite Eks in Eerr. fold hs in Ed.
  assert (get_managed_helmreleases_from_inventory [] = ∅) as E0 by done.
  rewrite E0 in Ed. split_and!; [done| |].
  - intros hr Hin H1 H2. rewrite Ed. apply reported_iff. split; [done|].
    apply orphan_of_is_Some. split_and!; [done..|]. apply not_elem_of_empty.
  - rewrite Eerr. apply elem_of_app. right. apply elem_of_app. left. by left.
Qed.

(** X20.  When the HelmReleases cannot be fetched (the call fails, or its
    output is not JSON) nothing is reported and nothing is deleted, also
    with [--cleanup]: the program ends normally after the two [get] calls
    without reading a line. *)
Theorem helmrelease_fetch_failure args stdin w :
  let w1 := (run_kubectl KUSTOMIZATIONS_ARGS w).2 in
  let hr_args := helmreleases_args (arg_namespace args) in
  (run_kubectl hr_args w1).1.1 = false
  ∨ (∃ e, json_loads_helmreleases (run_kubectl hr_args w1).1.2 = inl e) →
  let r := main args stdin w in
  (detect args w).1.1 = []
  ∧ r.1.1.1 = Normal
  ∧ r.1.1.2 = stdin
  ∧ main_call_args r.2 = [KUSTOMIZATIONS_ARGS; hr_args]
  ∧ ∃ text, text ∈ err_texts r.2.
Proof.
  intros w1 hr_args H r.
  destruct (get_all_kustomizations_calls w) as [_ Ew].
  destruct (detect_eq args w) as (Ed & _ & Hc & Eerr).
  rewrite Ew in Ed, Eerr. fold w1 in Ed, Eerr.
  destruct (get_all_helmreleases_failed (arg_namespace args) w1 H)
    as [Ehs [text Etext]].
  rewrite Ehs in Ed. simpl in Ed.
  subst r. rewrite (main_quiet args stdin w (or_intror Ed)). cbn [fst snd].
  split_and!; [done..| |].
  - rewrite !main_call_args_app, Hc, main_call_args_render.
    by destruct (arg_cleanup args).
  - exists text. rewrite !err_texts_app, Eerr, Etext.
    apply elem_of_app. left. apply elem_of_app. left.
    apply elem_of_app. right. apply elem_of_app. right. by left.
Qed.

End Main.

Lemma main_calls_witness :
  ∃ deletes,
    main_call_args
      (main scripted_cluster scripted_kustomizations scripted_helmreleases
         (Arguments_ None Table false) ["y"]
         [(true, "ks"%string); (true, "hr"%string)]).2
    = KUSTOMIZATIONS_ARGS :: helmreleases_args None :: deletes
    ∧ deletes = [].
Proof.
  destruct (main_calls scripted_cluster scripted_kustomizations
              scripted_helmreleases (Arguments_ None Table false) ["y"]
              [(true, "ks"%string); (true, "hr"%string)])
    as (deletes & E & _ & Hnone).
  exists deletes. split; [exact E | apply Hnone; reflexivity].
Defined.

Lemma main_deletes_only_orphans_witness :
  ∃ hr, hr ∈ [labelled_release]
        ∧ delete_args "teamA" "web-release"
          = delete_args (hr_namespace hr) (hr_name hr).
Proof.
  destruct (main_deletes_only_orphans scripted_cluster scripted_kustomizations
              scripted_helmreleases (Arguments_ None Json true) ["y"]
              [(true, "none"%string); (true, "hr"%string)]
              (delete_args "teamA" "web-release"))
    as (_ & hr & Hin & E & _).
  - apply list_elem_of_In. vm_compute. tauto.
  - exists hr. split; [exact Hin | exact E].
Defined.

Lemma report_is_read_only_witness :
  let r := main scripted_cluster scripted_kustomizations scripted_helmreleases
             (Arguments_ (Some "teamA") Yaml false) ["y"]
             [(true, "none"%string); (true, "hr"%string); (false, "unused"%string)] in
  r.1.1.1 = Normal
  ∧ r.1.1.2 = ["y"]
  ∧ r.1.2 = [(false, "unused"%string)]
  ∧ main_call_args r.2 = [KUSTOMIZATIONS_ARGS; helmreleases_args (Some "teamA")].
Proof.
  apply (report_is_read_only scripted_cluster scripted_kustomizations
           scripted_helmreleases (Arguments_ (Some "teamA") Yaml false) ["y"]
           [(true, "none"%string); (true, "hr"%string); (false, "unused"%string)]).
  left. reflexivity.
Defined.

Lemma kustomization_fetch_failure_witness :
  ∃ o, o ∈ (detect scripted_cluster scripted_kustomizations scripted_helmreleases
              (Arguments_ None Table true)
              [(false, "forbidden"%string); (true, "hr"%string)]).1.1
       ∧ o_raw o = labelled_release.
Proof.
  destruct (kustomization_fetch_failure scripted_cluster scripted_kustomizations
              scripted_helmreleases (Arguments_ None Table true)
              [(false, "forbidden"%string); (true, "hr"%string)])
    as (_ & Hall & _).
  - left. reflexivity.
  - apply (Hall labelled_release).
    + apply list_elem_of_here.
    + exists "apps". split; [reflexivity | discriminate].
    + exists "flux-system". split; [reflexivity | discriminate].
Defined.

Lemma helmrelease_fetch_failure_witness :
  let r := main scripted_cluster scripted_kustomizations scripted_helmreleases
             (Arguments_ None Table true) ["y"]
             [(true, "ks"%string); (false, "forbidden"%string)] in
  (detect scripted_cluster scripted_kustomizations scripted_helmreleases
     (Arguments_ None Table true)
     [(true, "ks"%string); (false, "forbidden"%string)]).1.1 = []
  ∧ r.1.1.1 = Normal
  ∧ r.1.1.2 = ["y"]
  ∧ main_call_args r.2 = [KUSTOMIZATIONS_ARGS; helmreleases_args None]
  ∧ ∃ text, text ∈ err_texts r.2.
Proof.
  apply (helmrelease_fetch_failure scripted_cluster scripted_kustomizations
           scripted_helmreleases (Arguments_ None Table true) ["y"]
           [(true, "ks"%string); (false, "forbidden"%string)]).
  left. reflexivity.
Defined.

(* ===================================================================== *)
(** * The renderers                                                       *)
(* ===================================================================== *)

Section Renderers.

Implicit Types (s t : string) (o : orphan) (orphans : list orphan).

Lemma string_length_app s t :
  String.length (s +:+ t) = String.length s + String.length t.
Proof. induction s as [|c s IH]; simpl; [done | by rewrite IH]. Qed.

Lemma length_repeat c n : String.length (PyFmt.repeat c n) = n.
Proof. induction n as [|n IH]; simpl; [done | by rewrite IH]. Qed.

Lemma all_space_repeat n : all_space (PyFmt.repeat " "%char n) = true.
Proof. by induction n. Qed.

(** [{s:<width}] pads and never cuts. *)
Lemma length_ljust width s :
  String.length (PyFmt.ljust width s) = width `max` String.length s.
Proof.
  unfold PyFmt.ljust. rewrite string_length_app, length_repeat. lia.
Qed.

(** X21.  The table never cuts a value: a row holds the namespace, the name
    and the owner in full, each padded with spaces to its column (30, 40
    and 50 characters) and followed by one space; it is 122 characters
    wide when the values fit their columns and wider by the excess when
    they do not, while the rule under the header is 120 wide. *)
Theorem table_row_width o :
  (∃ pad1 pad2 pad3,
     table_row o
     = (o_namespace o +:+ pad1) +:+ " "
       +:+ (o_name o +:+ pad2) +:+ " " +:+ (ks_ref o +:+ pad3)
     ∧ all_space pad1 = true ∧ all_space pad2 = true ∧ all_space pad3 = true)
  ∧ String.length (table_row o)
    = (30 `max` String.length (o_namespace o)) + 1
      + (40 `max` String.length (o_name o)) + 1
      + (50 `max` String.length (ks_ref o))
  ∧ (String.length (o_namespace o) ≤ 30 →
     String.length (o_name o) ≤ 40 →
     String.length (ks_ref o) ≤ 50 →
     String.length (table_row o) = 122)
  ∧ String.length (PyFmt.repeat "-"%char 120) = 120.
Proof.
  assert (String.length (table_row o)
          = (30 `max` String.length (o_namespace o)) + 1
            + (40 `max` String.length (o_name o)) + 1
            + (50 `max` String.length (ks_ref o))) as Hlen.
  { unfold table_row. rewrite !string_length_app, !length_ljust. simpl. lia. }
  split_and!.
  - eexists _, _, _. split; [reflexivity|]. by rewrite !all_space_repeat.
  - done.
  - intros H1 H2 H3. rewrite Hlen. lia.
  - apply length_repeat.
Qed.

(** X22.  The YAML output and the JSON output carry the same information: five
    lines for each orphan, in the order of the list, and two lists of
    orphans are printed as the same YAML lines exactly when they are
    handed to [json.dumps] as the same list of objects. *)
Theorem yaml_same_as_json orphans1 orphans2 :
  length (out_texts (print_orphans_yaml orphans1)) = 5 * length orphans1
  ∧ (print_orphans_yaml orphans1 = print_orphans_yaml orphans2
     ↔ print_orphans_json orphans1 = print_orphans_json orphans2).
Proof.
  split.
  - unfold print_orphans_yaml, out_texts.
    induction orphans1 as [|o l IH]; [done|].
    rewrite bind_cons, omap_app, length_app, IH. simpl. lia.
  - unfold print_orphans_yaml, print_orphans_json.
    revert orphans2. induction orphans1 as [|o1 l1 IH]; intros [|o2 l2]; csimpl;
      try done.
    split.
    + intros [= E1 E2 E4 E5 E].
      change (o_name o1 = o_name o2) in E1.
      change (o_namespace o1 = o_namespace o2) in E2.
      change (original_kustomization_name o1 = original_kustomization_name o2)
        in E4.
      change (original_kustomization_namespace o1
              = original_kustomization_namespace o2) in E5.
      apply IH in E. injection E as E.
      rewrite E. unfold json_of_orphan. by rewrite E1, E2, E4, E5.
    + intros E0. injection E0 as E1 E2 E3 E4 Et.
      assert ([OutJson (json_of_orphan <$> l1)] = [OutJson (json_of_orphan <$> l2)])
        as E by by rewrite Et.
      apply IH in E. rewrite E1, E2, E3, E4. do 5 f_equal. exact E.
Qed.

End Renderers.

Lemma table_row_width_witness :
  String.length (table_row (sample_orphan "teamA" "web-release")) = 122.
Proof.
  apply (proj1 (proj2 (proj2 (table_row_width (sample_orphan "teamA" "web-release")))));
    vm_compute; lia.
Defined.

Lemma yaml_same_as_json_witness :
  let bare := {| o_name := "api"; o_namespace := "teamA";
                 original_kustomization_name := "apps";
                 original_kustomization_namespace := "flux-system";
                 o_labels := ∅; o_raw := HelmRelease None |} in
  print_orphans_json [sample_orphan "teamA" "api"] = print_orphans_json [bare].
Proof.
  intros bare.
  apply (proj1 (proj2 (yaml_same_as_json [sample_orphan "teamA" "api"] [bare]))).
  reflexivity.
Defined.

(* ===================================================================== *)
(** * The outcome of each orphan in a run that completes                  *)
(* ===================================================================== *)

Section OutcomeOfEachOrphan.

Context {World : Type}.
Variable run_kubectl : list string → World → bool * string * World.
Variable by_namespace : gmap string (list orphan).

Implicit Types (σ : state World) (os : list orphan) (stdin : list string).
Implicit Types (tr Δ : list event) (out : list (string * string * outcome)).

Lemma heading_app ns tr1 tr2 :
  heading ns (tr1 ++ tr2) = heading (heading ns tr1) tr2.
Proof. apply foldl_app. Qed.

Lemma outcomes_from_app tr1 : ∀ ns tr2,
  outcomes_from by_namespace ns (tr1 ++ tr2)
  = outcomes_from by_namespace ns tr1
    ++ outcomes_from by_namespace (heading ns tr1) tr2.
Proof.
  induction tr1 as [|e tr1 IH]; intros ns tr2; [done|].
  destruct e as [m| |]; [destruct m| |]; simpl; rewrite IH; try done.
  by rewrite (assoc_L (++)).
Qed.

Lemma deleted_in_app out1 out2 :
  deleted_in (out1 ++ out2) = deleted_in out1 + deleted_in out2.
Proof. unfold deleted_in. by rewrite filter_app, length_app. Qed.

Lemma skipped_in_app out1 out2 :
  skipped_in (out1 ++ out2) = skipped_in out1 + skipped_in out2.
Proof. unfold skipped_in. by rewrite filter_app, length_app. Qed.

Lemma deleted_skipped_length out : deleted_in out + skipped_in out = length out.
Proof.
  unfold deleted_in, skipped_in. induction out as [|x out IH]; [done|].
  destruct (decide (x.2 = Deleted)).
  - rewrite filter_cons_True, filter_cons_False by auto. simpl. lia.
  - rewrite filter_cons_False, filter_cons_True by auto. simpl. lia.
Qed.

Lemma skipped_in_declined os :
  skipped_in ((λ o, (orphan_key o, Declined)) <$> os) = length os
  ∧ deleted_in ((λ o, (orphan_key o, Declined)) <$> os) = 0.
Proof.
  unfold skipped_in, deleted_in. split.
  - induction os as [|o os IH]; [done|]. csimpl. by rewrite <- IH.
  - induction os as [|o os IH]; [done|]. csimpl. exact IH.
Qed.

(** One step of the cleanup: the events [Δ] show the outcomes of the
    orphans [os'], and the counters move by their numbers. *)
Lemma accounted_step os os' ns ns' Δ σ σ' :
  accounted by_namespace os ns σ →
  trace σ' = trace σ ++ Δ →
  (outcomes_from by_namespace ns Δ).*1 = orphan_key <$> os' →
  deleted_count σ'
  = deleted_count σ + deleted_in (outcomes_from by_namespace ns Δ) →
  skipped_count σ'
  = skipped_count σ + skipped_in (outcomes_from by_namespace ns Δ) →
  heading ns Δ = ns' →
  accounted by_namespace (os ++ os') ns' σ'.
Proof.
  unfold accounted, outcomes. intros (Ho & Hd & Hs & Hh) Ht Hk Hd' Hs' Hh'.
  rewrite Ht, outcomes_from_app, heading_app, Hh.
  rewrite !fmap_app, deleted_in_app, skipped_in_app, Ho, Hk.
  split_and!; [done | lia | lia | done].
Qed.

(** An event that shows no outcome and is no heading. *)
Lemma accounted_log os ns e σ :
  outcomes_from by_namespace ns [e] = [] → heading ns [e] = ns →
  accounted by_namespace os ns σ → accounted by_namespace os ns (log e σ).
Proof.
  intros He Hh H. rewrite <- (app_nil_r os).
  apply (accounted_step os [] ns ns [e] σ); rewrite ?He; simpl; auto.
Qed.

Lemma accounted_add_skipped_one os ns o σ :
  o_namespace o = ns →
  accounted by_namespace os ns σ →
  accounted by_namespace (os ++ [o]) ns
    (add_skipped 1 (log (Stdout (MsgSkipped (o_name o))) σ)).
Proof.
  intros <- H.
  apply (accounted_step os [o] (o_namespace o) (o_namespace o)
           [Stdout (MsgSkipped (o_name o))] σ); simpl; auto.
Qed.

Lemma accounted_skip_namespace os ns0 ns σ :
  accounted by_namespace os ns0 σ →
  accounted by_namespace (os ++ by_namespace !!! ns) ns0
    (add_skipped (length (by_namespace !!! ns))
       (log (Stdout (MsgSkippingNamespace ns)) σ)).
Proof.
  intros H.
  destruct (skipped_in_declined (by_namespace !!! ns)) as [Hs Hd].
  apply (accounted_step os _ ns0 ns0 [Stdout (MsgSkippingNamespace ns)] σ);
    simpl; rewrite ?app_nil_r, ?Hs, ?Hd; auto.
  by rewrite <- list_fmap_compose.
Qed.

Lemma accounted_delete_and_count os ns o σ :
  accounted by_namespace os ns σ →
  accounted by_namespace (os ++ [o]) ns (delete_and_count run_kubectl o σ).
Proof.
  intros H.
  destruct (delete_and_count_eq run_kubectl o σ) as (ok & output & w' & ->).
  eapply (accounted_step os [o] ns ns _ σ); [done | reflexivity | ..];
    by destruct ok.
Qed.

Lemma accounted_delete_all ns l : ∀ os σ,
  accounted by_namespace os ns σ →
  accounted by_namespace (os ++ l) ns (delete_all run_kubectl l σ).
Proof.
  unfold delete_all. induction l as [|o l IH]; intros os σ H; simpl.
  - by rewrite app_nil_r.
  - rewrite cons_middle, (assoc_L (++)). by apply IH, accounted_delete_and_count.
Qed.

Lemma accounted_print_namespace os ns0 ns l σ :
  accounted by_namespace os ns0 σ →
  accounted by_namespace os ns (print_namespace ns l σ).
Proof.
  intros H. unfold print_namespace.
  assert (∀ l' σ0,
            accounted by_namespace os ns σ0 →
            accounted by_namespace os ns
              (foldl (λ σ o,
                 log (Stdout (MsgOrphanLine (o_name o) (ks_ref o))) σ) σ0 l'))
    as Hfold.
  { induction l' as [|o l' IH]; intros σ0 H0; [done|]. simpl.
    by apply IH, accounted_log. }
  apply Hfold, accounted_log; [done..|].
  rewrite <- (app_nil_r os).
  apply (accounted_step os [] ns0 ns [Stdout (MsgNamespace ns)]
           (log (Stdout MsgNamespaceRule) σ)); simpl; auto.
  by apply accounted_log.
Qed.

Lemma ask_individual_accounted os o : ∀ stdin σ,
  accounted by_namespace os (o_namespace o) σ →
  let r := ask_individual run_kubectl o stdin σ in
  r.1.1 = Normal → accounted by_namespace (os ++ [o]) (o_namespace o) r.2.
Proof.
  induction stdin as [|line stdin IH]; intros σ H; simpl; [done|].
  destruct (String.eqb (read_choice line) "q"); [done|].
  destruct (String.eqb (read_choice line) "y").
  { intros _. by apply accounted_delete_and_count, accounted_log. }
  destruct (String.eqb (read_choice line) "n").
  { intros _. by apply accounted_add_skipped_one, accounted_log. }
  by apply IH, accounted_log, accounted_log.
Qed.

Lemma select_individual_accounted ns l : ∀ os stdin σ,
  (∀ o, o ∈ l → o_namespace o = ns) →
  accounted by_namespace os ns σ →
  let r := select_individual run_kubectl l stdin σ in
  r.1.1 = Normal → accounted by_namespace (os ++ l) ns r.2.
Proof.
  induction l as [|o l IH]; intros os stdin σ Hns H; simpl.
  - by rewrite app_nil_r.
  - assert (o_namespace o = ns) as Eo by (apply Hns; by left).
    rewrite <- Eo in H.
    pose proof (ask_individual_accounted os o stdin σ H) as Ha.
    destruct (ask_individual run_kubectl o stdin σ) as [[c stdin'] σ'].
    destruct c; simpl in *; try done.
    rewrite cons_middle, (assoc_L (++)). rewrite Eo in Ha.
    apply IH; [|by apply Ha]. intros o' Ho'. apply Hns. by right.
Qed.

Lemma ask_namespace_accounted namespaces ns os : ∀ stdin σ,
  (∀ o, o ∈ by_namespace !!! ns → o_namespace o = ns) →
  accounted by_namespace os ns σ →
  let r := ask_namespace run_kubectl by_namespace namespaces ns stdin σ in
  r.1.1 = Normal → accounted by_namespace (os ++ by_namespace !!! ns) ns r.2.
Proof.
  induction stdin as [|line stdin IH]; intros σ Hns H; simpl; [done|].
  destruct (String.eqb (read_choice line) "q"); [done|].
  destruct (String.eqb (read_choice line) "y").
  { intros _. by apply accounted_delete_all, accounted_log, accounted_log. }
  destruct (String.eqb (read_choice line) "n").
  { intros _. by apply accounted_skip_namespace, accounted_log. }
  destruct (String.eqb (read_choice line) "s").
  { by apply select_individual_accounted, accounted_log. }
  by apply IH, accounted_log, accounted_log.
Qed.

Lemma namespace_loop_accounted namespaces todo : ∀ os ns0 stdin σ,
  (∀ ns o, ns ∈ todo → o ∈ by_namespace !!! ns → o_namespace o = ns) →
  accounted by_namespace os ns0 σ →
  let r := namespace_loop run_kubectl by_namespace namespaces todo stdin σ in
  r.1.1 = Normal →
  ∃ ns1,
    accounted by_namespace (os ++ (todo ≫= (λ ns, by_namespace !!! ns))) ns1 r.2.
Proof.
  induction todo as [|ns todo IH]; intros os ns0 stdin σ Hns H; simpl.
  - intros _. exists ns0. by rewrite app_nil_r.
  - pose proof (ask_namespace_accounted namespaces ns os stdin
                  (print_namespace ns (by_namespace !!! ns) σ)
                  (λ o Ho, Hns ns o (list_elem_of_here _ _) Ho)
                  (accounted_print_namespace os ns0 ns _ σ H)) as Ha.
    destruct (ask_namespace _ _ _ _ _ _) as [[c stdin'] σ'].
    destruct c; simpl in *; try done.
    rewrite (assoc_L (++)).
    apply (IH (os ++ by_namespace !!! ns) ns stdin' σ'); [|by apply Ha].
    intros ns' o Hin. apply Hns. by right.
Qed.

End OutcomeOfEachOrphan.

Section CompletedRun.

Context {World : Type}.
Variable run_kubectl : list string → World → bool * string * World.

(** C10.  A run that completes without abort (it reaches line 282) has
    read no line as [q], and it has given every orphan exactly one
    outcome: the outcomes its trace shows (a [kubectl] call that
    succeeded or failed, a [Skipped] message, the message of a skipped
    namespace) are, in order, for the orphans of the list in the order of
    the walk, one for each and no other, and the walk is a permutation of
    the list.  The final report gives the number [d] of orphans deleted
    and the number [s] of those not deleted (failed or declined), with
    [d + s] the number of orphans given to the cleanup.  On ASCII lines,
    a run on a list that is not empty completes when no line is read as
    [q] and the input does not run out. *)
Theorem completed_cleanup_counts orphans stdin w :
  let r := cleanup_orphans_interactive run_kubectl orphans stdin w in
  let out := outcomes (group_by_namespace orphans) (events r) in
  ((∀ line, line ∈ lines_read (events r) → is_ascii line = true) →
   orphans ≠ [] → no_quit (events r) → ending r ≠ RaiseEOFError →
   ending r = Normal)
  ∧ (ending r = Normal →
     no_quit (events r)
     ∧ out.*1 = orphan_key <$> walk_order orphans
     ∧ walk_order orphans ≡ₚ orphans
     ∧ ∃ pre d s,
         events r = pre ++ final_report d s
         ∧ d = deleted_in out ∧ s = skipped_in out
         ∧ d + s = length orphans).
Proof.
  intros r out. split.
  { intros _ Hne Hq He. by apply completes_iff_no_quit. }
  intros Hend.
  destruct (proj1 (completes_iff_no_quit run_kubectl orphans stdin w) Hend)
    as (Hne & Hq & _).
  split; [done|].
  assert (out.*1 = orphan_key <$> walk_order orphans
          ∧ ∃ pre d s,
              events r = pre ++ final_report d s
              ∧ d = deleted_in out ∧ s = skipped_in out) as [Hout Hrep].
  { subst r out. unfold events, ending, walk_order in *.
    destruct orphans as [|o orphans]; [done|].
    unfold cleanup_orphans_interactive in *.
    set (by_namespace := group_by_namespace (o :: orphans)) in *.
    set (namespaces := sorted_keys by_namespace) in *.
    set (σ := print_banner _ _ _) in *.
    assert (accounted by_namespace [] EmptyString σ) as Hσ by done.
    pose proof (namespace_loop_accounted run_kubectl by_namespace namespaces
                  namespaces [] EmptyString stdin σ) as Hl.
    destruct (namespace_loop _ _ _ _ _ _) as [[c stdin'] σ'].
    destruct c; cbn [fst snd] in *; try done.
    destruct Hl as (ns1 & Hk & Hd & Hs & _); [|done|done|].
    { intros ns o' _. subst by_namespace.
      rewrite group_by_namespace_lookup. by intros [? _]%list_elem_of_filter. }
    cbn [app] in Hk. unfold outcomes in *.
    rewrite print_complete_trace, outcomes_from_app.
    change (outcomes_from _ _ (final_report _ _))
      with (@nil (string * string * outcome)).
    rewrite app_nil_r. split; [done|]. by eexists _, _, _. }
  split; [done|]. split; [apply walk_order_Permutation|].
  destruct Hrep as (pre & d & s & E & -> & ->).
  exists pre, (deleted_in out), (skipped_in out). split_and!; [done..|].
  rewrite deleted_skipped_length.
  transitivity (length (out.*1)); [by rewrite length_fmap|].
  by rewrite Hout, length_fmap, walk_order_Permutation.
Qed.

End CompletedRun.

Lemma completed_cleanup_counts_witness :
  let orphans := [sample_orphan "teamB" "db"; sample_orphan "teamA" "api";
                  sample_orphan "teamA" "web"] in
  let r := cleanup_orphans_interactive scripted_kubectl orphans
             ["s"; "n"; "y"; "y"] [true; false] in
  let out := outcomes (group_by_namespace orphans) (events r) in
  no_quit (events r)
  ∧ out.*1 = orphan_key <$> walk_order orphans
  ∧ walk_order orphans ≡ₚ orphans
  ∧ ∃ pre d s,
      events r = pre ++ final_report d s
      ∧ d = deleted_in out ∧ s = skipped_in out
      ∧ d + s = length orphans.
Proof.
  intros orphans r out.
  apply (proj2 (completed_cleanup_counts scripted_kubectl orphans
                  ["s"; "n"; "y"; "y"] [true; false])).
  vm_compute. reflexivity.
Defined.
